(** * casingSimulations.sources: discretised current sources on mesh faces

    A shallow embedding of [casingSimulations/sources.py].

    Numbers.  The program computes with IEEE doubles held in numpy arrays.
    They are read here as exact rationals ([Q]); comparisons are the boolean
    comparisons of [Q] and [==] on floats is [Qeq].  Rounding, infinities and
    NaN are outside the model, which is why the statements about quotients
    assume face areas different from zero.

    Layers.  Every lazily cached property of the source classes is embedded
    twice: once as the value its body computes (modules named after the
    classes), once with the [getattr(self, '_x', None) is None] cache written
    out over an explicit instance state and array store (module [Memo]).
    [Memo] is proved to return the values of the first layer. *)

From Stdlib Require Import String.
From Stdlib Require Import QArith Qminmax List Bool Lia Lqa ZArith PeanoNat.
Import ListNotations.
Open Scope Q_scope.

Set Implicit Arguments.

(** ** Exceptions and results *)

Inductive exn : Type :=
| NameError (name : string)
| AssertionError (msg : string)
| ValueError (msg : string)
| IndexError (msg : string)
| AttributeError (name : string).

Inductive result (A : Type) : Type :=
| Ok (a : A)
| Raise (e : exn).
Arguments Raise {A} e.

Definition bind {A B} (r : result A) (k : A -> result B) : result B :=
  match r with
  | Ok a => k a
  | Raise e => Raise e
  end.

Declare Scope py_scope.
Delimit Scope py_scope with py.
Notation "x <- e ;; k" := (bind e (fun x => k))
  (at level 100, e at next level, right associativity) : py_scope.
Open Scope py_scope.

(** [assert cond, msg] *)
Definition assert (cond : bool) (msg : string) : result unit :=
  if cond then Ok tt else Raise (AssertionError msg).

(** ** Comparisons on rationals *)

Definition Qlt_bool (x y : Q) : bool :=
  (Qnum x * QDen y <? Qnum y * QDen x)%Z.

(** ** The numpy operations the sources use *)

Definition mask := list bool.

(** [np.zeros(n)] *)
Definition np_zeros (n : nat) : list Q := repeat 0 n.

(** [a.min()] *)
Definition np_min (a : list Q) : result Q :=
  match a with
  | [] => Raise (ValueError "zero-size array to reduction operation minimum")
  | x :: t => Ok (fold_left Qmin t x)
  end.

(** [a <= c], [a >= c], [a < c], [a > c] for an array [a] and a scalar [c] *)
Definition le_s (a : list Q) (c : Q) : mask := map (fun x => Qle_bool x c) a.
Definition ge_s (a : list Q) (c : Q) : mask := map (fun x => Qle_bool c x) a.
Definition lt_s (a : list Q) (c : Q) : mask := map (fun x => Qlt_bool x c) a.
Definition gt_s (a : list Q) (c : Q) : mask := map (fun x => Qlt_bool c x) a.

(** [m1 & m2] on boolean arrays of one length (every mask of a property is
    built from columns of the same grid) *)
Fixpoint np_and (m1 m2 : mask) : mask :=
  match m1, m2 with
  | b1 :: t1, b2 :: t2 => (b1 && b2) :: np_and t1 t2
  | _, _ => []
  end.

(** [arr[mask] = v]: boolean-mask assignment; numpy refuses a mask whose
    length differs from the array's. *)
Fixpoint assign (arr : list Q) (m : mask) (v : Q) : list Q :=
  match arr, m with
  | a :: arr', b :: m' => (if b then v else a) :: assign arr' m' v
  | _, _ => arr
  end.

Definition setmask (arr : list Q) (m : mask) (v : Q) : result (list Q) :=
  if (length m =? length arr)%nat then Ok (assign arr m v)
  else Raise (IndexError "boolean index did not match indexed array").

(** [a / b] element-wise, with numpy's broadcasting of a one-element operand *)
Fixpoint div_zip (a b : list Q) : list Q :=
  match a, b with
  | x :: a', y :: b' => (x / y) :: div_zip a' b'
  | _, _ => []
  end.

Definition np_divide (a b : list Q) : result (list Q) :=
  if (length a =? length b)%nat then Ok (div_zip a b)
  else match a, b with
       | _, [y] => Ok (map (fun x => x / y) a)
       | [x], _ => Ok (map (fun y => x / y) b)
       | _, _ => Raise (ValueError "operands could not be broadcast together")
       end.

(** [np.argmin(a)]: index of the first minimum *)
Fixpoint argmin_from (best_i : nat) (best : Q) (i : nat) (l : list Q) : nat :=
  match l with
  | [] => best_i
  | x :: t => if Qlt_bool x best then argmin_from i x (S i) t
              else argmin_from best_i best (S i) t
  end.

Definition np_argmin (a : list Q) : result nat :=
  match a with
  | [] => Raise (ValueError "attempt to get argmin of an empty sequence")
  | x :: t => Ok (argmin_from 0 x 1 t)
  end.

(** [np.unique(a)]: the distinct values of [a].  numpy also sorts them; the
    validators only take the length. *)
Fixpoint np_unique (a : list Q) : list Q :=
  match a with
  | [] => []
  | x :: t => if existsb (Qeq_bool x) t then np_unique t else x :: np_unique t
  end.

(** [a[mask]]: the entries selected by a boolean mask *)
Fixpoint select {A} (a : list A) (m : mask) : list A :=
  match a, m with
  | x :: a', b :: m' => if b then x :: select a' m' else select a' m'
  | _, _ => []
  end.

(** ** Data model *)

(** A row of a face grid, or an electrode location: [p[0]], [p[1]], [p[2]]. *)
Record point : Type := mkpoint { c0 : Q; c1 : Q; c2 : Q }.

(** [grid[:, k]] *)
Definition col0 (g : list point) : list Q := map c0 g.
Definition col1 (g : list point) : list Q := map c1 g.
Definition col2 (g : list point) : list Q := map c2 g.

(** [grid[inds, :]] *)
Fixpoint take_rows (g : list point) (inds : list nat) : result (list point) :=
  match inds with
  | [] => Ok []
  | i :: t =>
      match nth_error g i with
      | Some p => rows <- take_rows g t ;; Ok (p :: rows)
      | None => Raise (IndexError "index is out of bounds")
      end
  end.

Module model.
(** Modelled from the spec: [model.Wholespace] is declared in [model.py],
    which is not among the sources.  Section 3 gives what the sources read
    from it: the electrode endpoints [src_a] and [src_b] (3-D points), the
    casing radius [casing_a] and the frequencies [freqs]. *)
Record Wholespace : Type := {
  src_a : point;
  src_b : point;
  casing_a : Q;
  freqs : list Q
}.
End model.

(** Modelled from the spec: the mesh comes from the mesh generator
    ([mesh.py], not among the sources).  Section 3 gives what the sources
    read from it: the face grids (rows of 3-D points; only [gridFx] and
    [gridFz] are read), the face counts [vnF], the cell widths per axis
    (whose minima are taken), one area per face in the order x, y, z, and
    the symmetry flag, [None] on meshes without that attribute. *)
Record Mesh : Type := {
  gridFx : list point;
  gridFz : list point;
  vnF : nat * nat * nat;
  hx : list Q;
  hy : list Q;
  hz : list Q;
  area : list Q;
  isSymmetric : option bool
}.

Definition vnF0 (m : Mesh) : nat := fst (fst (vnF m)).
Definition vnF1 (m : Mesh) : nat := snd (fst (vnF m)).
Definition vnF2 (m : Mesh) : nat := snd (vnF m).

(** [getattr(mesh, 'isSymmetric', False) is False] *)
Definition not_symmetric (m : Mesh) : bool :=
  match isSymmetric m with
  | None => true
  | Some b => negb b
  end.

Inductive Physics : Type := FDEM | TDEM.

(** The keyword arguments of a source: [cp], [meshGenerator] (which holds the
    mesh) and [physics]. *)
Record Source : Type := {
  cp : model.Wholespace;
  meshGenerator : Mesh;
  physics : Physics
}.

(** Modelled from the spec: [closestPoints] is imported from discretize.
    Section 4.1 describes it as a nearest-neighbour search over the face
    grid of the axis.  [closestPoints(mesh, pt, 'Fz')] for one point is the
    index of the first z-face whose centre minimises the squared distance to
    [pt], returned as a one-element index array. *)
Definition dist2 (p q : point) : Q :=
  (c0 p - c0 q) * (c0 p - c0 q) + (c1 p - c1 q) * (c1 p - c1 q)
  + (c2 p - c2 q) * (c2 p - c2 q).

Definition closestPoints_Fz (m : Mesh) (pt : point) : result (list nat) :=
  i <- np_argmin (map (fun g => dist2 pt g) (gridFz m)) ;; Ok [i].

(** ** BaseCasingSrc *)

Module BaseCasingSrc.
Definition mesh (self : Source) : Mesh := meshGenerator self.
Definition src_a (self : Source) : point := model.src_a (cp self).
Definition src_b (self : Source) : point := model.src_b (cp self).
Definition casing_a (self : Source) : Q := model.casing_a (cp self).
Definition freqs (self : Source) : list Q := model.freqs (cp self).

(** [__init__]: [Utils.setKwargs] stores the keyword arguments, then the
    y-alignment assertion runs. *)
Definition __init__ (kwargs : Source) : result Source :=
  let self := kwargs in
  _ <- assert (Qeq_bool (c1 (src_a self)) (c1 (src_b self)))
         "non y-axis aligned sources have not been implemented" ;;
  Ok self.
End BaseCasingSrc.
Import BaseCasingSrc.

(** ** HorizontalElectricDipole *)

Module HorizontalElectricDipole.

Definition __init__ (kwargs : Source) : result Source :=
  self <- BaseCasingSrc.__init__ kwargs ;;
  _ <- assert (Qeq_bool (c2 (src_a self)) (c2 (src_b self)))
         "z locations must be the same for a HED" ;;
  Ok self.

Definition surface_wire (self : Source) : result mask :=
  let mesh := mesh self in
  let src_a := src_a self in
  let src_b := src_b self in
  let surface_wirex :=
    np_and (le_s (col0 (gridFx mesh)) (Qmax (c0 src_a) (c0 src_b)))
           (ge_s (col0 (gridFx mesh)) (Qmin (c0 src_a) (c0 src_b))) in
  hz1 <- np_min (hz mesh) ;;
  hz2 <- np_min (hz mesh) ;;
  let surface_wirez :=
    np_and (gt_s (col2 (gridFx mesh)) (c2 src_b - hz1 / 2))
           (lt_s (col2 (gridFx mesh)) (c2 src_b + hz2 / 2)) in
  let _surface_wire := np_and surface_wirex surface_wirez in
  if not_symmetric mesh then
    hy1 <- np_min (hy mesh) ;;
    hy2 <- np_min (hy mesh) ;;
    let surface_wirey :=
      np_and (gt_s (col1 (gridFx mesh)) (c1 src_b - hy1 / 2))
             (lt_s (col1 (gridFx mesh)) (c1 src_b + hy2 / 2)) in
    Ok (np_and _surface_wire surface_wirey)
  else Ok _surface_wire.

Definition surface_wire_direction (self : Source) : Q :=
  if Qlt_bool (c0 (src_a self)) (c0 (src_b self)) then -1 else 1.

(** The three face arrays after the masked assignment of [s_e]. *)
Definition s_xyz (self : Source) : result (list Q * list Q * list Q) :=
  let s_x := np_zeros (vnF0 (mesh self)) in
  let s_y := np_zeros (vnF1 (mesh self)) in
  let s_z := np_zeros (vnF2 (mesh self)) in
  let d := surface_wire_direction self in
  sw <- surface_wire self ;;
  s_x <- setmask s_x sw d ;;
  Ok (s_x, s_y, s_z).

(** [s_e = np.hstack([s_x, s_y, s_z])]; [s_e / self.mesh.area] *)
Definition s_e (self : Source) : result (list Q) :=
  xyz <- s_xyz self ;;
  let '(s_x, s_y, s_z) := xyz in
  let s_e := s_x ++ s_y ++ s_z in
  np_divide s_e (area (mesh self)).

(** The class validator [_check_wire]; it has no [return]. *)
Definition _check_wire (self : Source) : result unit :=
  sw <- surface_wire self ;;
  let surface_wire := select (gridFx (mesh self)) sw in
  _ <- assert (length (np_unique (col1 surface_wire)) =? 1)%nat
         "the surface wire has more than one y-location" ;;
  _ <- assert (length (np_unique (col2 surface_wire)) =? 1)%nat
         "the surface wire has more than one z-location" ;;
  Ok tt.

End HorizontalElectricDipole.

(** ** VerticalElectricDipole *)

(** What a name can be bound to while [VerticalElectricDipole.__init__] runs. *)
Inductive pyobj : Type :=
| PyModule
| PyClass
| PyFunction
| PyStr
| PySelf
| PyKwargs (kw : Source)
| PyWholespace (w : model.Wholespace).

(** The names bound at the top level of [sources.py]: its imports and its
    classes.  (No Python builtin is called [cp].) *)
Definition module_globals : list (string * pyobj) :=
  [ ("np"%string, PyModule); ("plt"%string, PyModule); ("os"%string, PyModule);
    ("properties"%string, PyModule); ("discretize"%string, PyModule);
    ("closestPoints"%string, PyFunction); ("Utils"%string, PyModule);
    ("FDEM"%string, PyModule); ("TDEM"%string, PyModule);
    ("LoadableInstance"%string, PyClass); ("BaseCasing"%string, PyClass);
    ("model"%string, PyModule); ("BaseMeshGenerator"%string, PyClass);
    ("__version__"%string, PyStr);
    ("BaseCasingSrc"%string, PyClass);
    ("HorizontalElectricDipole"%string, PyClass);
    ("VerticalElectricDipole"%string, PyClass);
    ("DownHoleTerminatingSrc"%string, PyClass);
    ("DownHoleCasingSrc"%string, PyClass); ("TopCasingSrc"%string, PyClass) ].

Fixpoint lookup (env : list (string * pyobj)) (name : string) : option pyobj :=
  match env with
  | [] => None
  | (n, v) :: t => if String.eqb n name then Some v else lookup t name
  end.

(** Resolution of a bare name inside a function: locals, then globals. *)
Definition load_name (locals : list (string * pyobj)) (name : string)
  : result pyobj :=
  match lookup locals name with
  | Some v => Ok v
  | None =>
      match lookup module_globals name with
      | Some v => Ok v
      | None => Raise (NameError name)
      end
  end.

Definition getattr_src_a (o : pyobj) : result point :=
  match o with
  | PyWholespace w => Ok (model.src_a w)
  | _ => Raise (AttributeError "src_a")
  end.

Definition getattr_src_b (o : pyobj) : result point :=
  match o with
  | PyWholespace w => Ok (model.src_b w)
  | _ => Raise (AttributeError "src_b")
  end.

Module VerticalElectricDipole.

(** The assertion reads the bare name [cp]; the locals of [__init__] are
    [self] and [kwargs]. *)
Definition __init__ (kwargs : Source) : result Source :=
  let locals := [("self"%string, PySelf); ("kwargs"%string, PyKwargs kwargs)] in
  o1 <- load_name locals "cp" ;;
  a <- getattr_src_a o1 ;;
  o2 <- load_name locals "cp" ;;
  b <- getattr_src_b o2 ;;
  _ <- assert (Qeq_bool (c0 a) (c0 b) && Qeq_bool (c1 a) (c1 b))
         "src_a and src_b must have the same horizontal location" ;;
  BaseCasingSrc.__init__ kwargs.

Definition src_a_closest (self : Source) : result point :=
  inds <- closestPoints_Fz (mesh self) (src_a self) ;;
  src_a_closest <- take_rows (gridFz (mesh self)) inds ;;
  _ <- assert (length src_a_closest =? 1)%nat "multiple source locs found" ;;
  match src_a_closest with
  | p :: _ => Ok p
  | [] => Raise (IndexError "index 0 is out of bounds")
  end.

Definition wire_in_borehole (self : Source) : result mask :=
  let mesh := mesh self in
  let src_a := src_a self in
  let src_b := src_b self in
  a1 <- src_a_closest self ;;
  hx1 <- np_min (hx mesh) ;;
  a2 <- src_a_closest self ;;
  hx2 <- np_min (hx mesh) ;;
  let wire_in_boreholex :=
    np_and (lt_s (col0 (gridFz mesh)) (c0 a1 + hx1 / 2))
           (gt_s (col0 (gridFz mesh)) (c0 a2 - hx2 / 2)) in
  hz1 <- np_min (hz mesh) ;;
  hz2 <- np_min (hz mesh) ;;
  let wire_in_boreholez :=
    np_and (ge_s (col2 (gridFz mesh)) (c2 src_a - (1#2) * hz1))
           (lt_s (col2 (gridFz mesh)) (c2 src_b + (3#2) * hz2)) in
  let _wire_in_borehole := np_and wire_in_boreholex wire_in_boreholez in
  if not_symmetric mesh then
    hy1 <- np_min (hy mesh) ;;
    hy2 <- np_min (hy mesh) ;;
    let wire_in_boreholey :=
      np_and (gt_s (col1 (gridFz mesh)) (c1 src_a - hy1 / 2))
             (lt_s (col1 (gridFz mesh)) (c1 src_a + hy2 / 2)) in
    Ok (np_and _wire_in_borehole wire_in_boreholey)
  else Ok _wire_in_borehole.

(** The three face arrays after the masked assignment of [s_e]. *)
Definition s_xyz (self : Source) : result (list Q * list Q * list Q) :=
  let s_x := np_zeros (vnF0 (mesh self)) in
  let s_y := np_zeros (vnF1 (mesh self)) in
  let s_z := np_zeros (vnF2 (mesh self)) in
  wib <- wire_in_borehole self ;;
  s_z <- setmask s_z wib (-1) ;;
  Ok (s_x, s_y, s_z).

(** [s_e = np.hstack([s_x, s_y, s_z])]; [s_e / self.mesh.area] *)
Definition s_e (self : Source) : result (list Q) :=
  xyz <- s_xyz self ;;
  let '(s_x, s_y, s_z) := xyz in
  let s_e := s_x ++ s_y ++ s_z in
  np_divide s_e (area (mesh self)).

Definition src_b_closest (self : Source) : result point :=
  inds <- closestPoints_Fz (mesh self) (src_b self) ;;
  src_b_closest <- take_rows (gridFz (mesh self)) inds ;;
  _ <- assert (length src_b_closest =? 1)%nat "multiple source locs found" ;;
  match src_b_closest with
  | p :: _ => Ok p
  | [] => Raise (IndexError "index 0 is out of bounds")
  end.

(** The class validator [_check_wire]. *)
Definition _check_wire (self : Source) : result bool :=
  wib <- wire_in_borehole self ;;
  let wire_in_borehole := select (gridFz (mesh self)) wib in
  _ <- assert (length (np_unique (col0 wire_in_borehole)) =? 1)%nat
         "the wire in borehole has more than one x-location" ;;
  _ <- assert (length (np_unique (col1 wire_in_borehole)) =? 1)%nat
         "the wire in borehole has more than one y-location" ;;
  Ok true.

End VerticalElectricDipole.

(** ** DownHoleTerminatingSrc *)

Module DownHoleTerminatingSrc.

Definition __init__ (kwargs : Source) : result Source :=
  BaseCasingSrc.__init__ kwargs.

Definition src_a_closest (self : Source) : result point :=
  inds <- closestPoints_Fz (mesh self) (src_a self) ;;
  src_a_closest <- take_rows (gridFz (mesh self)) inds ;;
  _ <- assert (length src_a_closest =? 1)%nat "multiple source locs found" ;;
  match src_a_closest with
  | p :: _ => Ok p
  | [] => Raise (IndexError "index 0 is out of bounds")
  end.

Definition src_b_closest (self : Source) : result point :=
  inds <- closestPoints_Fz (mesh self) (src_b self) ;;
  src_b_closest <- take_rows (gridFz (mesh self)) inds ;;
  _ <- assert (length src_b_closest =? 1)%nat "multiple source locs found" ;;
  match src_b_closest with
  | p :: _ => Ok p
  | [] => Raise (IndexError "index 0 is out of bounds")
  end.

Definition wire_in_borehole (self : Source) : result mask :=
  let mesh := mesh self in
  let src_a := src_a self in
  let src_b := src_b self in
  a1 <- src_a_closest self ;;
  hx1 <- np_min (hx mesh) ;;
  a2 <- src_a_closest self ;;
  hx2 <- np_min (hx mesh) ;;
  let wire_in_boreholex :=
    np_and (lt_s (col0 (gridFz mesh)) (c0 a1 + hx1 / 2))
           (gt_s (col0 (gridFz mesh)) (c0 a2 - hx2 / 2)) in
  hz1 <- np_min (hz mesh) ;;
  hz2 <- np_min (hz mesh) ;;
  let wire_in_boreholez :=
    np_and (ge_s (col2 (gridFz mesh)) (c2 src_a - (1#2) * hz1))
           (lt_s (col2 (gridFz mesh)) (c2 src_b + (3#2) * hz2)) in
  let _wire_in_borehole := np_and wire_in_boreholex wire_in_boreholez in
  if not_symmetric mesh then
    hy1 <- np_min (hy mesh) ;;
    hy2 <- np_min (hy mesh) ;;
    let wire_in_boreholey :=
      np_and (gt_s (col1 (gridFz mesh)) (c1 src_a - hy1 / 2))
             (lt_s (col1 (gridFz mesh)) (c1 src_a + hy2 / 2)) in
    Ok (np_and _wire_in_borehole wire_in_boreholey)
  else Ok _wire_in_borehole.

Definition surface_wire (self : Source) : result mask :=
  let mesh := mesh self in
  let src_a := src_a self in
  let src_b := src_b self in
  a1 <- src_a_closest self ;;
  b1 <- src_b_closest self ;;
  a2 <- src_a_closest self ;;
  b2 <- src_b_closest self ;;
  let surface_wirex :=
    np_and (le_s (col0 (gridFx mesh)) (Qmax (c0 a1) (c0 b1)))
           (ge_s (col0 (gridFx mesh)) (Qmin (c0 a2) (c0 b2))) in
  hz1 <- np_min (hz mesh) ;;
  hz2 <- np_min (hz mesh) ;;
  let surface_wirez :=
    np_and (gt_s (col2 (gridFx mesh)) hz1)
           (le_s (col2 (gridFx mesh)) ((7#4) * hz2)) in
  let _surface_wire := np_and surface_wirex surface_wirez in
  if not_symmetric mesh then
    hy1 <- np_min (hy mesh) ;;
    hy2 <- np_min (hy mesh) ;;
    let surface_wirey :=
      np_and (gt_s (col1 (gridFx mesh)) (c1 src_b - hy1 / 2))
             (lt_s (col1 (gridFx mesh)) (c1 src_b + hy2 / 2)) in
    Ok (np_and _surface_wire surface_wirey)
  else Ok _surface_wire.

Definition surface_electrode (self : Source) : result mask :=
  let mesh := mesh self in
  let src_a := src_a self in
  let src_b := src_b self in
  b1 <- src_b_closest self ;;
  hx1 <- np_min (hx mesh) ;;
  b2 <- src_b_closest self ;;
  hx2 <- np_min (hx mesh) ;;
  let surface_electrodex :=
    np_and (gt_s (col0 (gridFz mesh)) (c0 b1 - hx1 / 2))
           (lt_s (col0 (gridFz mesh)) (c0 b2 + hx2 / 2)) in
  hz1 <- np_min (hz mesh) ;;
  hz2 <- np_min (hz mesh) ;;
  let surface_electrodez :=
    np_and (ge_s (col2 (gridFz mesh)) (c2 src_b - hz1))
           (lt_s (col2 (gridFz mesh)) (c2 src_b + (7#4) * hz2)) in
  let _surface_electrode := np_and surface_electrodex surface_electrodez in
  if not_symmetric mesh then
    hy1 <- np_min (hy mesh) ;;
    hy2 <- np_min (hy mesh) ;;
    let surface_electrodey :=
      np_and (gt_s (col1 (gridFz mesh)) (c1 src_b - hy1 / 2))
             (lt_s (col1 (gridFz mesh)) (c1 src_b + hy2 / 2)) in
    Ok (np_and _surface_electrode surface_electrodey)
  else Ok _surface_electrode.

Definition surface_wire_direction (self : Source) : Q :=
  if Qlt_bool (c0 (src_a self)) (c0 (src_b self)) then -1 else 1.

(** The three face arrays after the masked assignments of [s_e] (the
    guard on the cache is in [Memo]). *)
Definition s_xyz (self : Source) : result (list Q * list Q * list Q) :=
  let s_x := np_zeros (vnF0 (mesh self)) in
  let s_y := np_zeros (vnF1 (mesh self)) in
  let s_z := np_zeros (vnF2 (mesh self)) in
  wib <- wire_in_borehole self ;;
  s_z <- setmask s_z wib (-1) ;;
  let d := surface_wire_direction self in
  sw <- surface_wire self ;;
  s_x <- setmask s_x sw d ;;
  se <- surface_electrode self ;;
  s_z <- setmask s_z se 1 ;;
  Ok (s_x, s_y, s_z).

(** [s_e = np.hstack([s_x, s_y, s_z])]; [s_e / self.mesh.area] *)
Definition s_e (self : Source) : result (list Q) :=
  xyz <- s_xyz self ;;
  let '(s_x, s_y, s_z) := xyz in
  let s_e := s_x ++ s_y ++ s_z in
  np_divide s_e (area (mesh self)).

(** The class validator [_check_wire], which DownHoleCasingSrc inherits. *)
Definition _check_wire (self : Source) : result bool :=
  se <- surface_electrode self ;;
  let surface_electrode := select (gridFz (mesh self)) se in
  _ <- assert (length (np_unique (col0 surface_electrode)) =? 1)%nat
         "the surface electrode has more than one x-location" ;;
  _ <- assert (length (np_unique (col1 surface_electrode)) =? 1)%nat
         "the surface electrode has more than one y-location" ;;
  sw <- surface_wire self ;;
  let surface_wire := select (gridFx (mesh self)) sw in
  _ <- assert (length (np_unique (col1 surface_wire)) =? 1)%nat
         "the surface wire has more than one y-location" ;;
  _ <- assert (length (np_unique (col2 surface_wire)) =? 1)%nat
         "the surface wire has more than one z-location" ;;
  wib <- wire_in_borehole self ;;
  let wire_in_borehole := select (gridFz (mesh self)) wib in
  _ <- assert (length (np_unique (col0 wire_in_borehole)) =? 1)%nat
         "the wire in borehole has more than one x-location" ;;
  _ <- assert (length (np_unique (col1 wire_in_borehole)) =? 1)%nat
         "the wire in borehole has more than one y-location" ;;
  Ok true.

End DownHoleTerminatingSrc.

(** ** DownHoleCasingSrc (extends DownHoleTerminatingSrc) *)

Module DownHoleCasingSrc.

Definition __init__ (kwargs : Source) : result Source :=
  DownHoleTerminatingSrc.__init__ kwargs.

Definition downhole_electrode (self : Source) : result mask :=
  let mesh := mesh self in
  let src_a := src_a self in
  let src_b := src_b self in
  let downhole_electrode_indx := le_s (col0 (gridFx mesh)) (casing_a self) in
  hz1 <- np_min (hz mesh) ;;
  let downhole_electrode_indz2 :=
    np_and (le_s (col2 (gridFx mesh)) (c2 src_a))
           (gt_s (col2 (gridFx mesh)) (c2 src_a - hz1)) in
  let _downhole_electrode :=
    np_and downhole_electrode_indx downhole_electrode_indz2 in
  if not_symmetric mesh then
    hy1 <- np_min (hy mesh) ;;
    hy2 <- np_min (hy mesh) ;;
    let dowhhole_electrode_indy :=
      np_and (gt_s (col1 (gridFx mesh)) (c1 src_a - hy1 / 2))
             (lt_s (col1 (gridFx mesh)) (c1 src_a + hy2 / 2)) in
    Ok (np_and _downhole_electrode dowhhole_electrode_indy)
  else Ok _downhole_electrode.

(** The three face arrays after the masked assignments of [s_e]; the
    inherited properties are those of [DownHoleTerminatingSrc]. *)
Definition s_xyz (self : Source) : result (list Q * list Q * list Q) :=
  let s_x := np_zeros (vnF0 (mesh self)) in
  let s_y := np_zeros (vnF1 (mesh self)) in
  let s_z := np_zeros (vnF2 (mesh self)) in
  wib <- DownHoleTerminatingSrc.wire_in_borehole self ;;
  s_z <- setmask s_z wib (-1) ;;
  de <- downhole_electrode self ;;
  s_x <- setmask s_x de 1 ;;
  sw <- DownHoleTerminatingSrc.surface_wire self ;;
  s_x <- setmask s_x sw (-1) ;;
  se <- DownHoleTerminatingSrc.surface_electrode self ;;
  s_z <- setmask s_z se 1 ;;
  Ok (s_x, s_y, s_z).

(** [s_e = np.hstack([s_x, s_y, s_z])]; [s_e / self.mesh.area] *)
Definition s_e (self : Source) : result (list Q) :=
  xyz <- s_xyz self ;;
  let '(s_x, s_y, s_z) := xyz in
  let s_e := s_x ++ s_y ++ s_z in
  np_divide s_e (area (mesh self)).

(** The class validator [_check_wire_more].  It is registered with
    [properties.validator] and runs when [validate()] is called on the
    instance; no method of the source classes calls it. *)
Definition _check_wire_more (self : Source) : result bool :=
  de <- downhole_electrode self ;;
  let downhole_electrode := select (gridFx (mesh self)) de in
  _ <- assert (length (np_unique (col1 downhole_electrode)) =? 1)%nat
         "the downhole electrode has more than one y-location" ;;
  _ <- assert (length (np_unique (col2 downhole_electrode)) =? 1)%nat
         "the downhole electrode has more than one z-location" ;;
  Ok true.

End DownHoleCasingSrc.

(** ** TopCasingSrc (extends DownHoleTerminatingSrc) *)

Module TopCasingSrc.

Definition __init__ (kwargs : Source) : result Source :=
  DownHoleTerminatingSrc.__init__ kwargs.

Definition tophole_electrode (self : Source) : result mask :=
  let mesh := mesh self in
  let src_a := src_a self in
  let src_b := src_b self in
  hx1 <- np_min (hx mesh) ;;
  let tophole_electrodex :=
    np_and (le_s (col0 (gridFz mesh)) (casing_a self + hx1))
           (gt_s (col0 (gridFz mesh)) (casing_a self)) in
  hz1 <- np_min (hz mesh) ;;
  hz2 <- np_min (hz mesh) ;;
  let tophole_electrodez :=
    np_and (lt_s (col2 (gridFz mesh)) (c2 src_a + (3#2) * hz1))
           (ge_s (col2 (gridFz mesh)) (c2 src_a - (1#2) * hz2)) in
  let _tophole_electrode := np_and tophole_electrodex tophole_electrodez in
  if not_symmetric mesh then
    hy1 <- np_min (hy mesh) ;;
    hy2 <- np_min (hy mesh) ;;
    let tophole_electrodey :=
      np_and (gt_s (col1 (gridFz mesh)) (c1 src_a - hy1))
             (lt_s (col1 (gridFz mesh)) (c1 src_a + hy2)) in
    Ok (np_and _tophole_electrode tophole_electrodey)
  else Ok _tophole_electrode.

Definition surface_wire (self : Source) : result mask :=
  let mesh := mesh self in
  let src_a := src_a self in
  let src_b := src_b self in
  b1 <- DownHoleTerminatingSrc.src_b_closest self ;;
  hx1 <- np_min (hx mesh) ;;
  let surface_wirex :=
    np_and (le_s (col0 (gridFx mesh)) (c0 b1))
           (gt_s (col0 (gridFx mesh)) (casing_a self + hx1 / 2)) in
  hz1 <- np_min (hz mesh) ;;
  hz2 <- np_min (hz mesh) ;;
  let surface_wirez :=
    np_and (gt_s (col2 (gridFx mesh)) (c2 src_b + hz1))
           (le_s (col2 (gridFx mesh)) (c2 src_b + (7#4) * hz2)) in
  let _surface_wire := np_and surface_wirex surface_wirez in
  if not_symmetric mesh then
    hy1 <- np_min (hy mesh) ;;
    hy2 <- np_min (hy mesh) ;;
    let surface_wirey :=
      np_and (lt_s (col1 (gridFx mesh)) (c1 src_b + hy1 / 2))
             (gt_s (col1 (gridFx mesh)) (c1 src_b - hy2 / 2)) in
    Ok (np_and _surface_wire surface_wirey)
  else Ok _surface_wire.

(** The three face arrays after the masked assignments of [s_e]. *)
Definition s_xyz (self : Source) : result (list Q * list Q * list Q) :=
  let s_x := np_zeros (vnF0 (mesh self)) in
  let s_y := np_zeros (vnF1 (mesh self)) in
  let s_z := np_zeros (vnF2 (mesh self)) in
  te <- tophole_electrode self ;;
  s_z <- setmask s_z te (-1) ;;
  sw <- surface_wire self ;;
  s_x <- setmask s_x sw (-1) ;;
  se <- DownHoleTerminatingSrc.surface_electrode self ;;
  s_z <- setmask s_z se 1 ;;
  Ok (s_x, s_y, s_z).

(** [s_e = np.hstack([s_x, s_y, s_z])]; [s_e / self.mesh.area] *)
Definition s_e (self : Source) : result (list Q) :=
  xyz <- s_xyz self ;;
  let '(s_x, s_y, s_z) := xyz in
  let s_e := s_x ++ s_y ++ s_z in
  np_divide s_e (area (mesh self)).

(** The class validator [_check_wire], which replaces the inherited one. *)
Definition _check_wire (self : Source) : result bool :=
  se <- DownHoleTerminatingSrc.surface_electrode self ;;
  let surface_electrode := select (gridFz (mesh self)) se in
  _ <- assert (length (np_unique (col0 surface_electrode)) =? 1)%nat
         "the surface electrode has more than one x-location" ;;
  _ <- assert (length (np_unique (col1 surface_electrode)) =? 1)%nat
         "the surface electrode has more than one y-location" ;;
  te <- tophole_electrode self ;;
  let tophole_electrode := select (gridFz (mesh self)) te in
  _ <- assert (length (np_unique (col0 tophole_electrode)) =? 1)%nat
         "the tophole electrode has more than one x-location" ;;
  _ <- assert (length (np_unique (col1 tophole_electrode)) =? 1)%nat
         "the tophole electrode has more than one y-location" ;;
  sw <- surface_wire self ;;
  let surface_wire := select (gridFx (mesh self)) sw in
  _ <- assert (length (np_unique (col1 surface_wire)) =? 1)%nat
         "the surface wire has more than one y-location" ;;
  _ <- assert (length (np_unique (col2 surface_wire)) =? 1)%nat
         "the surface wire has more than one z-location" ;;
  Ok true.

End TopCasingSrc.

(** ** The five topologies and their segments *)

Inductive SourceVariant : Type :=
| HED   (**r HorizontalElectricDipole *)
| VED   (**r VerticalElectricDipole *)
| DHT   (**r DownHoleTerminatingSrc *)
| DHC   (**r DownHoleCasingSrc *)
| TCS   (**r TopCasingSrc *).

(** [s_e] of an instance of the given class *)
Definition s_e (v : SourceVariant) (self : Source) : result (list Q) :=
  match v with
  | HED => HorizontalElectricDipole.s_e self
  | VED => VerticalElectricDipole.s_e self
  | DHT => DownHoleTerminatingSrc.s_e self
  | DHC => DownHoleCasingSrc.s_e self
  | TCS => TopCasingSrc.s_e self
  end.

Inductive axis : Type := Fx | Fy | Fz.

(** One masked assignment [s_axis[self.role] = sign] of an [s_e] body. *)
Record segment : Type := {
  seg_axis : axis;
  seg_role : string;
  seg_mask : result mask;
  seg_sign : Q
}.

(** The masked assignments of each [s_e] body, in program order. *)
Definition segments (v : SourceVariant) (self : Source) : list segment :=
  match v with
  | HED =>
      [ {| seg_axis := Fx; seg_role := "surface_wire";
           seg_mask := HorizontalElectricDipole.surface_wire self;
           seg_sign := HorizontalElectricDipole.surface_wire_direction self |} ]
  | VED =>
      [ {| seg_axis := Fz; seg_role := "wire_in_borehole";
           seg_mask := VerticalElectricDipole.wire_in_borehole self;
           seg_sign := -1 |} ]
  | DHT =>
      [ {| seg_axis := Fz; seg_role := "wire_in_borehole";
           seg_mask := DownHoleTerminatingSrc.wire_in_borehole self;
           seg_sign := -1 |};
        {| seg_axis := Fx; seg_role := "surface_wire";
           seg_mask := DownHoleTerminatingSrc.surface_wire self;
           seg_sign := DownHoleTerminatingSrc.surface_wire_direction self |};
        {| seg_axis := Fz; seg_role := "surface_electrode";
           seg_mask := DownHoleTerminatingSrc.surface_electrode self;
           seg_sign := 1 |} ]
  | DHC =>
      [ {| seg_axis := Fz; seg_role := "wire_in_borehole";
           seg_mask := DownHoleTerminatingSrc.wire_in_borehole self;
           seg_sign := -1 |};
        {| seg_axis := Fx; seg_role := "downhole_electrode";
           seg_mask := DownHoleCasingSrc.downhole_electrode self;
           seg_sign := 1 |};
        {| seg_axis := Fx; seg_role := "surface_wire";
           seg_mask := DownHoleTerminatingSrc.surface_wire self;
           seg_sign := -1 |};
        {| seg_axis := Fz; seg_role := "surface_electrode";
           seg_mask := DownHoleTerminatingSrc.surface_electrode self;
           seg_sign := 1 |} ]
  | TCS =>
      [ {| seg_axis := Fz; seg_role := "tophole_electrode";
           seg_mask := TopCasingSrc.tophole_electrode self;
           seg_sign := -1 |};
        {| seg_axis := Fx; seg_role := "surface_wire";
           seg_mask := TopCasingSrc.surface_wire self;
           seg_sign := -1 |};
        {| seg_axis := Fz; seg_role := "surface_electrode";
           seg_mask := DownHoleTerminatingSrc.surface_electrode self;
           seg_sign := 1 |} ]
  end.

(** The face arrays of an instance of the given class *)
Definition s_xyz (v : SourceVariant) (self : Source)
  : result (list Q * list Q * list Q) :=
  match v with
  | HED => HorizontalElectricDipole.s_xyz self
  | VED => VerticalElectricDipole.s_xyz self
  | DHT => DownHoleTerminatingSrc.s_xyz self
  | DHC => DownHoleCasingSrc.s_xyz self
  | TCS => TopCasingSrc.s_xyz self
  end.

(** Sum of the signed unit currents of a list of segments *)
Definition sum_signs (segs : list segment) : Q :=
  fold_right (fun s acc => seg_sign s + acc) 0 segs.

(** Position [i] of the stacked vector [hstack([s_x, s_y, s_z])]: the face
    array it belongs to and its index there. *)
Definition locate (m : Mesh) (i : nat) : axis * nat :=
  if (i <? vnF0 m)%nat then (Fx, i)
  else if (i <? vnF0 m + vnF1 m)%nat then (Fy, (i - vnF0 m)%nat)
  else (Fz, (i - vnF0 m - vnF1 m)%nat).

Definition axis_eqb (a b : axis) : bool :=
  match a, b with
  | Fx, Fx | Fy, Fy | Fz, Fz => true
  | _, _ => false
  end.

(** Segment [s] writes entry [j] of the face array of axis [ax]. *)
Definition selects (s : segment) (ax : axis) (j : nat) : bool :=
  axis_eqb (seg_axis s) ax &&
  match seg_mask s with
  | Ok m => nth j m false
  | Raise _ => false
  end.

(** The sign written last at entry [j] of axis [ax] by assignments made in
    the order of the list; [None] when no segment writes there. *)
Fixpoint last_sign (segs : list segment) (ax : axis) (j : nat) : option Q :=
  match segs with
  | [] => None
  | s :: t =>
      match last_sign t ax j with
      | Some q => Some q
      | None => if selects s ax j then Some (seg_sign s) else None
      end
  end.

(** The contract of the mesh collaborator: the face counts are those of the
    grids, there is one area per face, and no face has area zero. *)
Definition mesh_wf (m : Mesh) : Prop :=
  vnF0 m = length (gridFx m) /\
  vnF2 m = length (gridFz m) /\
  length (area m) = (vnF0 m + vnF1 m + vnF2 m)%nat /\
  Forall (fun a => ~ a == 0) (area m).

(** ** The cached properties over an explicit instance state

    [Memo] writes out what the first layer leaves implicit: the attributes
    [_x] in which the properties keep their values, and the identity of the
    array that [s_e] returns.  The arrays built by [s_e] live in [arrays] and
    are named by their index there; masks and points are kept by value. *)

Module Memo.

Definition ref := nat.

(** The entries of [srcList]: [FDEM.Src.RawVec_e] receives a complex copy
    of the vector, [TDEM.Src.RawVec_Grounded] the vector itself. *)
Inductive Src : Type :=
| RawVec_e (freq : Q) (s_e : list Q)
| RawVec_Grounded (s_e : ref).

(** The cache attributes that hold a grid row, and those that hold a mask. *)
Inductive point_attr : Type := _src_a_closest | _src_b_closest.

Inductive mask_attr : Type :=
| _wire_in_borehole
| _surface_wire
| _surface_electrode
| _downhole_electrode
| _tophole_electrode.

Definition point_attr_eqb (a b : point_attr) : bool :=
  match a, b with
  | _src_a_closest, _src_a_closest | _src_b_closest, _src_b_closest => true
  | _, _ => false
  end.

Definition mask_attr_eqb (a b : mask_attr) : bool :=
  match a, b with
  | _wire_in_borehole, _wire_in_borehole
  | _surface_wire, _surface_wire
  | _surface_electrode, _surface_electrode
  | _downhole_electrode, _downhole_electrode
  | _tophole_electrode, _tophole_electrode => true
  | _, _ => false
  end.

(** The instance: its keyword arguments, its cache attributes ([None]
    while unset, as [getattr(self, '_x', None)] reads them) and the arrays
    allocated so far. *)
Record State : Type := {
  kwargs : Source;
  points : point_attr -> option point;
  masks : mask_attr -> option mask;
  _s_e : option ref;
  _srcList : option (list Src);
  arrays : list (list Q)
}.

(** [self._x = v] *)
Definition set_point (a : point_attr) (v : point) (st : State) : State :=
  {| kwargs := kwargs st;
     points := fun b => if point_attr_eqb a b then Some v else points st b;
     masks := masks st; _s_e := _s_e st; _srcList := _srcList st;
     arrays := arrays st |}.

Definition set_mask (a : mask_attr) (v : mask) (st : State) : State :=
  {| kwargs := kwargs st; points := points st;
     masks := fun b => if mask_attr_eqb a b then Some v else masks st b;
     _s_e := _s_e st; _srcList := _srcList st; arrays := arrays st |}.

Definition set_s_e (v : ref) (st : State) : State :=
  {| kwargs := kwargs st; points := points st; masks := masks st;
     _s_e := Some v; _srcList := _srcList st; arrays := arrays st |}.

Definition set_srcList (v : list Src) (st : State) : State :=
  {| kwargs := kwargs st; points := points st; masks := masks st;
     _s_e := _s_e st; _srcList := Some v; arrays := arrays st |}.

Definition push_array (v : list Q) (st : State) : State :=
  {| kwargs := kwargs st; points := points st; masks := masks st;
     _s_e := _s_e st; _srcList := _srcList st; arrays := arrays st ++ [v] |}.

(** The instance right after construction. *)
Definition fresh (kw : Source) : State :=
  {| kwargs := kw; points := fun _ => None; masks := fun _ => None;
     _s_e := None; _srcList := None; arrays := [] |}.

(** Computations on the instance that may raise. *)
Definition M (A : Type) : Type := State -> result A * State.

Definition ret {A} (a : A) : M A := fun st => (Ok a, st).

Definition mbind {A B} (m : M A) (k : A -> M B) : M B :=
  fun st =>
    match m st with
    | (Ok a, st') => k a st'
    | (Raise e, st') => (Raise e, st')
    end.

Notation "x <~ e ;; k" := (mbind e (fun x => k))
  (at level 100, e at next level, right associativity) : py_scope.

Definition lift {A} (r : result A) : M A := fun st => (r, st).

Definition self : M Source := fun st => (Ok (kwargs st), st).

Definition modify (f : State -> State) : M unit := fun st => (Ok tt, f st).

(** [getattr(self, '_x', None)] and [self._x] *)
Definition getattr_or_None {A} (get : State -> option A) : M (option A) :=
  fun st => (Ok (get st), st).

Definition getattr {A} (get : State -> option A) (name : string) : M A :=
  fun st =>
    match get st with
    | Some v => (Ok v, st)
    | None => (Raise (AttributeError name), st)
    end.

(** A new array; the result is its reference. *)
Definition alloc (v : list Q) : M ref :=
  fun st => (Ok (length (arrays st)), push_array v st).

Definition deref (r : ref) : M (list Q) :=
  fun st =>
    match nth_error (arrays st) r with
    | Some v => (Ok v, st)
    | None => (Raise (ValueError "dangling array reference"), st)
    end.

(** The shape of every cached property:
    [if getattr(self, guard, None) is None: self._x = body]
    followed by [return self._x]. *)
Definition lazy_attr {G A} (guard : State -> option G)
    (get : State -> option A) (name : string)
    (set : A -> State -> State) (body : M A) : M A :=
  g <~ getattr_or_None guard ;;
  _ <~ match g with
       | None => v <~ body ;; modify (set v)
       | Some _ => ret tt
       end ;;
  getattr get name.

Definition cached_point (a : point_attr) (name : string) (body : M point)
  : M point :=
  lazy_attr (fun st => points st a) (fun st => points st a) name
            (set_point a) body.

(** The shape of the mask properties:
    [if getattr(self, '_x', None) is None:] followed by statements that
    assign [self._x], then [return self._x]. *)
Definition lazy_mask (a : mask_attr) (name : string) (body : M unit)
  : M mask :=
  g <~ getattr_or_None (fun st => masks st a) ;;
  _ <~ match g with
       | None => body
       | Some _ => ret tt
       end ;;
  getattr (fun st => masks st a) name.

(** [self._x = m] and [self._x] for a mask attribute *)
Definition setattr_mask (a : mask_attr) (m : mask) : M unit :=
  modify (set_mask a m).

Definition getattr_mask (a : mask_attr) (name : string) : M mask :=
  getattr (fun st => masks st a) name.

(** [np.hstack] of the face arrays, the division by [mesh.area], and the
    array that holds the quotient *)
Definition normalise (s_x s_y s_z : list Q) : M ref :=
  self <~ self ;;
  let s_e := s_x ++ s_y ++ s_z in
  v <~ lift (np_divide s_e (area (mesh self))) ;;
  alloc v.

Module HorizontalElectricDipole.

Definition surface_wire : M mask :=
  lazy_mask _surface_wire "_surface_wire" (
    self <~ self ;;
    let mesh := mesh self in
    let src_a := src_a self in
    let src_b := src_b self in
    let surface_wirex :=
      np_and (le_s (col0 (gridFx mesh)) (Qmax (c0 src_a) (c0 src_b)))
             (ge_s (col0 (gridFx mesh)) (Qmin (c0 src_a) (c0 src_b))) in
    hz1 <~ lift (np_min (hz mesh)) ;;
    hz2 <~ lift (np_min (hz mesh)) ;;
    let surface_wirez :=
      np_and (gt_s (col2 (gridFx mesh)) (c2 src_b - hz1 / 2))
             (lt_s (col2 (gridFx mesh)) (c2 src_b + hz2 / 2)) in
    _ <~ setattr_mask _surface_wire (np_and surface_wirex surface_wirez) ;;
    if not_symmetric mesh then
      hy1 <~ lift (np_min (hy mesh)) ;;
      hy2 <~ lift (np_min (hy mesh)) ;;
      let surface_wirey :=
        np_and (gt_s (col1 (gridFx mesh)) (c1 src_b - hy1 / 2))
               (lt_s (col1 (gridFx mesh)) (c1 src_b + hy2 / 2)) in
      cur <~ getattr_mask _surface_wire "_surface_wire" ;;
      setattr_mask _surface_wire (np_and cur surface_wirey)
    else ret tt).

(** The statements under the guard of [s_e]. *)
Definition s_e_body : M ref :=
  self <~ self ;;
  let s_x := np_zeros (vnF0 (mesh self)) in
  let s_y := np_zeros (vnF1 (mesh self)) in
  let s_z := np_zeros (vnF2 (mesh self)) in
  let d := HorizontalElectricDipole.surface_wire_direction self in
  sw <~ surface_wire ;;
  s_x <~ lift (setmask s_x sw d) ;;
  normalise s_x s_y s_z.

Definition s_e : M ref :=
  lazy_attr _s_e _s_e "_s_e" set_s_e s_e_body.

End HorizontalElectricDipole.

Module VerticalElectricDipole.

Definition src_a_closest : M point :=
  cached_point _src_a_closest "_src_a_closest" (
    self <~ self ;;
    lift (VerticalElectricDipole.src_a_closest self)).

Definition wire_in_borehole : M mask :=
  lazy_mask _wire_in_borehole "_wire_in_borehole" (
    self <~ self ;;
    let mesh := mesh self in
    let src_a := src_a self in
    let src_b := src_b self in
    a1 <~ src_a_closest ;;
    hx1 <~ lift (np_min (hx mesh)) ;;
    a2 <~ src_a_closest ;;
    hx2 <~ lift (np_min (hx mesh)) ;;
    let wire_in_boreholex :=
      np_and (lt_s (col0 (gridFz mesh)) (c0 a1 + hx1 / 2))
             (gt_s (col0 (gridFz mesh)) (c0 a2 - hx2 / 2)) in
    hz1 <~ lift (np_min (hz mesh)) ;;
    hz2 <~ lift (np_min (hz mesh)) ;;
    let wire_in_boreholez :=
      np_and (ge_s (col2 (gridFz mesh)) (c2 src_a - (1#2) * hz1))
             (lt_s (col2 (gridFz mesh)) (c2 src_b + (3#2) * hz2)) in
    _ <~ setattr_mask _wire_in_borehole
           (np_and wire_in_boreholex wire_in_boreholez) ;;
    if not_symmetric mesh then
      hy1 <~ lift (np_min (hy mesh)) ;;
      hy2 <~ lift (np_min (hy mesh)) ;;
      let wire_in_boreholey :=
        np_and (gt_s (col1 (gridFz mesh)) (c1 src_a - hy1 / 2))
               (lt_s (col1 (gridFz mesh)) (c1 src_a + hy2 / 2)) in
      cur <~ getattr_mask _wire_in_borehole "_wire_in_borehole" ;;
      setattr_mask _wire_in_borehole (np_and cur wire_in_boreholey)
    else ret tt).

(** The statements under the guard of [s_e]. *)
Definition s_e_body : M ref :=
  self <~ self ;;
  let s_x := np_zeros (vnF0 (mesh self)) in
  let s_y := np_zeros (vnF1 (mesh self)) in
  let s_z := np_zeros (vnF2 (mesh self)) in
  wib <~ wire_in_borehole ;;
  s_z <~ lift (setmask s_z wib (-1)) ;;
  normalise s_x s_y s_z.

Definition s_e : M ref :=
  lazy_attr _s_e _s_e "_s_e" set_s_e s_e_body.

End VerticalElectricDipole.

Module DownHoleTerminatingSrc.

Definition src_a_closest : M point :=
  cached_point _src_a_closest "_src_a_closest" (
    self <~ self ;;
    lift (DownHoleTerminatingSrc.src_a_closest self)).

Definition src_b_closest : M point :=
  cached_point _src_b_closest "_src_b_closest" (
    self <~ self ;;
    lift (DownHoleTerminatingSrc.src_b_closest self)).

Definition wire_in_borehole : M mask :=
  lazy_mask _wire_in_borehole "_wire_in_borehole" (
    self <~ self ;;
    let mesh := mesh self in
    let src_a := src_a self in
    let src_b := src_b self in
    a1 <~ src_a_closest ;;
    hx1 <~ lift (np_min (hx mesh)) ;;
    a2 <~ src_a_closest ;;
    hx2 <~ lift (np_min (hx mesh)) ;;
    let wire_in_boreholex :=
      np_and (lt_s (col0 (gridFz mesh)) (c0 a1 + hx1 / 2))
             (gt_s (col0 (gridFz mesh)) (c0 a2 - hx2 / 2)) in
    hz1 <~ lift (np_min (hz mesh)) ;;
    hz2 <~ lift (np_min (hz mesh)) ;;
    let wire_in_boreholez :=
      np_and (ge_s (col2 (gridFz mesh)) (c2 src_a - (1#2) * hz1))
             (lt_s (col2 (gridFz mesh)) (c2 src_b + (3#2) * hz2)) in
    _ <~ setattr_mask _wire_in_borehole
           (np_and wire_in_boreholex wire_in_boreholez) ;;
    if not_symmetric mesh then
      hy1 <~ lift (np_min (hy mesh)) ;;
      hy2 <~ lift (np_min (hy mesh)) ;;
      let wire_in_boreholey :=
        np_and (gt_s (col1 (gridFz mesh)) (c1 src_a - hy1 / 2))
               (lt_s (col1 (gridFz mesh)) (c1 src_a + hy2 / 2)) in
      cur <~ getattr_mask _wire_in_borehole "_wire_in_borehole" ;;
      setattr_mask _wire_in_borehole (np_and cur wire_in_boreholey)
    else ret tt).

Definition surface_wire : M mask :=
  lazy_mask _surface_wire "_surface_wire" (
    self <~ self ;;
    let mesh := mesh self in
    let src_a := src_a self in
    let src_b := src_b self in
    a1 <~ src_a_closest ;;
    b1 <~ src_b_closest ;;
    a2 <~ src_a_closest ;;
    b2 <~ src_b_closest ;;
    let surface_wirex :=
      np_and (le_s (col0 (gridFx mesh)) (Qmax (c0 a1) (c0 b1)))
             (ge_s (col0 (gridFx mesh)) (Qmin (c0 a2) (c0 b2))) in
    hz1 <~ lift (np_min (hz mesh)) ;;
    hz2 <~ lift (np_min (hz mesh)) ;;
    let surface_wirez :=
      np_and (gt_s (col2 (gridFx mesh)) hz1)
             (le_s (col2 (gridFx mesh)) ((7#4) * hz2)) in
    _ <~ setattr_mask _surface_wire (np_and surface_wirex surface_wirez) ;;
    if not_symmetric mesh then
      hy1 <~ lift (np_min (hy mesh)) ;;
      hy2 <~ lift (np_min (hy mesh)) ;;
      let surface_wirey :=
        np_and (gt_s (col1 (gridFx mesh)) (c1 src_b - hy1 / 2))
               (lt_s (col1 (gridFx mesh)) (c1 src_b + hy2 / 2)) in
      cur <~ getattr_mask _surface_wire "_surface_wire" ;;
      setattr_mask _surface_wire (np_and cur surface_wirey)
    else ret tt).

Definition surface_electrode : M mask :=
  lazy_mask _surface_electrode "_surface_electrode" (
    self <~ self ;;
    let mesh := mesh self in
    let src_a := src_a self in
    let src_b := src_b self in
    b1 <~ src_b_closest ;;
    hx1 <~ lift (np_min (hx mesh)) ;;
    b2 <~ src_b_closest ;;
    hx2 <~ lift (np_min (hx mesh)) ;;
    let surface_electrodex :=
      np_and (gt_s (col0 (gridFz mesh)) (c0 b1 - hx1 / 2))
             (lt_s (col0 (gridFz mesh)) (c0 b2 + hx2 / 2)) in
    hz1 <~ lift (np_min (hz mesh)) ;;
    hz2 <~ lift (np_min (hz mesh)) ;;
    let surface_electrodez :=
      np_and (ge_s (col2 (gridFz mesh)) (c2 src_b - hz1))
             (lt_s (col2 (gridFz mesh)) (c2 src_b + (7#4) * hz2)) in
    _ <~ setattr_mask _surface_electrode
           (np_and surface_electrodex surface_electrodez) ;;
    if not_symmetric mesh then
      hy1 <~ lift (np_min (hy mesh)) ;;
      hy2 <~ lift (np_min (hy mesh)) ;;
      let surface_electrodey :=
        np_and (gt_s (col1 (gridFz mesh)) (c1 src_b - hy1 / 2))
               (lt_s (col1 (gridFz mesh)) (c1 src_b + hy2 / 2)) in
      cur <~ getattr_mask _surface_electrode "_surface_electrode" ;;
      setattr_mask _surface_electrode (np_and cur surface_electrodey)
    else ret tt).

(** The statements under the guard of [s_e]. *)
Definition s_e_body : M ref :=
  self <~ self ;;
  let s_x := np_zeros (vnF0 (mesh self)) in
  let s_y := np_zeros (vnF1 (mesh self)) in
  let s_z := np_zeros (vnF2 (mesh self)) in
  wib <~ wire_in_borehole ;;
  s_z <~ lift (setmask s_z wib (-1)) ;;
  let d := DownHoleTerminatingSrc.surface_wire_direction self in
  sw <~ surface_wire ;;
  s_x <~ lift (setmask s_x sw d) ;;
  se <~ surface_electrode ;;
  s_z <~ lift (setmask s_z se 1) ;;
  normalise s_x s_y s_z.

(** The guard of this [s_e] reads [_srcList], not [_s_e]. *)
Definition s_e : M ref :=
  lazy_attr _srcList _s_e "_s_e" set_s_e s_e_body.

End DownHoleTerminatingSrc.

Module DownHoleCasingSrc.

Definition downhole_electrode : M mask :=
  lazy_mask _downhole_electrode "_downhole_electrode" (
    self <~ self ;;
    let mesh := mesh self in
    let src_a := src_a self in
    let src_b := src_b self in
    let downhole_electrode_indx := le_s (col0 (gridFx mesh)) (casing_a self) in
    hz1 <~ lift (np_min (hz mesh)) ;;
    let downhole_electrode_indz2 :=
      np_and (le_s (col2 (gridFx mesh)) (c2 src_a))
             (gt_s (col2 (gridFx mesh)) (c2 src_a - hz1)) in
    _ <~ setattr_mask _downhole_electrode
           (np_and downhole_electrode_indx downhole_electrode_indz2) ;;
    if not_symmetric mesh then
      hy1 <~ lift (np_min (hy mesh)) ;;
      hy2 <~ lift (np_min (hy mesh)) ;;
      let dowhhole_electrode_indy :=
        np_and (gt_s (col1 (gridFx mesh)) (c1 src_a - hy1 / 2))
               (lt_s (col1 (gridFx mesh)) (c1 src_a + hy2 / 2)) in
      cur <~ getattr_mask _downhole_electrode "_downhole_electrode" ;;
      setattr_mask _downhole_electrode (np_and cur dowhhole_electrode_indy)
    else ret tt).

(** The statements under the guard of [s_e]. *)
Definition s_e_body : M ref :=
  self <~ self ;;
  let s_x := np_zeros (vnF0 (mesh self)) in
  let s_y := np_zeros (vnF1 (mesh self)) in
  let s_z := np_zeros (vnF2 (mesh self)) in
  wib <~ DownHoleTerminatingSrc.wire_in_borehole ;;
  s_z <~ lift (setmask s_z wib (-1)) ;;
  de <~ downhole_electrode ;;
  s_x <~ lift (setmask s_x de 1) ;;
  sw <~ DownHoleTerminatingSrc.surface_wire ;;
  s_x <~ lift (setmask s_x sw (-1)) ;;
  se <~ DownHoleTerminatingSrc.surface_electrode ;;
  s_z <~ lift (setmask s_z se 1) ;;
  normalise s_x s_y s_z.

(** The guard of this [s_e] reads [_srcList], not [_s_e]. *)
Definition s_e : M ref :=
  lazy_attr _srcList _s_e "_s_e" set_s_e s_e_body.

End DownHoleCasingSrc.

Module TopCasingSrc.

Definition tophole_electrode : M mask :=
  lazy_mask _tophole_electrode "_tophole_electrode" (
    self <~ self ;;
    let mesh := mesh self in
    let src_a := src_a self in
    let src_b := src_b self in
    hx1 <~ lift (np_min (hx mesh)) ;;
    let tophole_electrodex :=
      np_and (le_s (col0 (gridFz mesh)) (casing_a self + hx1))
             (gt_s (col0 (gridFz mesh)) (casing_a self)) in
    hz1 <~ lift (np_min (hz mesh)) ;;
    hz2 <~ lift (np_min (hz mesh)) ;;
    let tophole_electrodez :=
      np_and (lt_s (col2 (gridFz mesh)) (c2 src_a + (3#2) * hz1))
             (ge_s (col2 (gridFz mesh)) (c2 src_a - (1#2) * hz2)) in
    _ <~ setattr_mask _tophole_electrode
           (np_and tophole_electrodex tophole_electrodez) ;;
    if not_symmetric mesh then
      hy1 <~ lift (np_min (hy mesh)) ;;
      hy2 <~ lift (np_min (hy mesh)) ;;
      let tophole_electrodey :=
        np_and (gt_s (col1 (gridFz mesh)) (c1 src_a - hy1))
               (lt_s (col1 (gridFz mesh)) (c1 src_a + hy2)) in
      cur <~ getattr_mask _tophole_electrode "_tophole_electrode" ;;
      setattr_mask _tophole_electrode (np_and cur tophole_electrodey)
    else ret tt).

Definition surface_wire : M mask :=
  lazy_mask _surface_wire "_surface_wire" (
    self <~ self ;;
    let mesh := mesh self in
    let src_a := src_a self in
    let src_b := src_b self in
    b1 <~ DownHoleTerminatingSrc.src_b_closest ;;
    hx1 <~ lift (np_min (hx mesh)) ;;
    let surface_wirex :=
      np_and (le_s (col0 (gridFx mesh)) (c0 b1))
             (gt_s (col0 (gridFx mesh)) (casing_a self + hx1 / 2)) in
    hz1 <~ lift (np_min (hz mesh)) ;;
    hz2 <~ lift (np_min (hz mesh)) ;;
    let surface_wirez :=
      np_and (gt_s (col2 (gridFx mesh)) (c2 src_b + hz1))
             (le_s (col2 (gridFx mesh)) (c2 src_b + (7#4) * hz2)) in
    _ <~ setattr_mask _surface_wire (np_and surface_wirex surface_wirez) ;;
    if not_symmetric mesh then
      hy1 <~ lift (np_min (hy mesh)) ;;
      hy2 <~ lift (np_min (hy mesh)) ;;
      let surface_wirey :=
        np_and (lt_s (col1 (gridFx mesh)) (c1 src_b + hy1 / 2))
               (gt_s (col1 (gridFx mesh)) (c1 src_b - hy2 / 2)) in
      cur <~ getattr_mask _surface_wire "_surface_wire" ;;
      setattr_mask _surface_wire (np_and cur surface_wirey)
    else ret tt).

(** The statements under the guard of [s_e]. *)
Definition s_e_body : M ref :=
  self <~ self ;;
  let s_x := np_zeros (vnF0 (mesh self)) in
  let s_y := np_zeros (vnF1 (mesh self)) in
  let s_z := np_zeros (vnF2 (mesh self)) in
  te <~ tophole_electrode ;;
  s_z <~ lift (setmask s_z te (-1)) ;;
  sw <~ surface_wire ;;
  s_x <~ lift (setmask s_x sw (-1)) ;;
  se <~ DownHoleTerminatingSrc.surface_electrode ;;
  s_z <~ lift (setmask s_z se 1) ;;
  normalise s_x s_y s_z.

(** The guard of this [s_e] reads [_srcList], not [_s_e]. *)
Definition s_e : M ref :=
  lazy_attr _srcList _s_e "_s_e" set_s_e s_e_body.

End TopCasingSrc.

(** [s_e] of an instance of the given class *)
Definition s_e (v : SourceVariant) : M ref :=
  match v with
  | HED => HorizontalElectricDipole.s_e
  | VED => VerticalElectricDipole.s_e
  | DHT => DownHoleTerminatingSrc.s_e
  | DHC => DownHoleCasingSrc.s_e
  | TCS => TopCasingSrc.s_e
  end.

(** [for _ in self.freqs]: one [RawVec_e] per frequency, each reading
    [self.s_e] anew *)
Fixpoint fdem_sources (s_e : M ref) (fs : list Q) : M (list Src) :=
  match fs with
  | [] => ret []
  | f :: t =>
      r <~ s_e ;;
      v <~ deref r ;;
      rest <~ fdem_sources s_e t ;;
      ret (RawVec_e f v :: rest)
  end.

(** [BaseCasingSrc.srcList] *)
Definition srcList (v : SourceVariant) : M (list Src) :=
  lazy_attr _srcList _srcList "_srcList" set_srcList (
    self <~ self ;;
    match physics self with
    | FDEM => fdem_sources (s_e v) (freqs self)
    | TDEM => r <~ s_e v ;; ret [RawVec_Grounded r]
    end).

End Memo.

(** ** A small mesh and sources on it

    A cylindrically symmetric mesh with five cells of width 1/5 along x and
    four cells of height 1 along z (nodes at -2 .. 2): twenty x-faces and
    twenty-five z-faces, x running fastest. *)

Definition faces (xs zs : list Q) : list point :=
  flat_map (fun z => map (fun x => mkpoint x 0 z) xs) zs.

Definition ex_mesh : Mesh :=
  {| gridFx := faces [1#5; 2#5; 3#5; 4#5; 1] [-(3#2); -(1#2); 1#2; 3#2];
     gridFz := faces [1#10; 3#10; 5#10; 7#10; 9#10] [-2; -1; 0; 1; 2];
     vnF := (20, 0, 25)%nat;
     hx := [1#5; 1#5; 1#5; 1#5; 1#5];
     hy := [6];
     hz := [1; 1; 1; 1];
     area := repeat (1#2) 20 ++ repeat (1#4) 25;
     isSymmetric := Some true |}.

Definition ex_source (a b : point) (ca : Q) : Source :=
  {| cp := {| model.src_a := a; model.src_b := b; model.casing_a := ca;
              model.freqs := [1] |};
     meshGenerator := ex_mesh;
     physics := FDEM |}.

(** A source lowered to z = -1 with its return electrode near x = 9/10. *)
Definition ex_downhole : Source :=
  ex_source (mkpoint 0 0 (-1)) (mkpoint (9#10) 0 0) (1#2).

(** The same endpoints with the upper one at the surface, for a source
    grounded on the top of a casing of radius 1/2. *)
Definition ex_top : Source :=
  ex_source (mkpoint 0 0 0) (mkpoint (9#10) 0 0) (1#2).

(** The mesh of the horizontal-dipole scenario: x-faces at x = 0, 5, 10 on
    the plane z = 0, and no other face. *)
Definition hed_mesh : Mesh :=
  {| gridFx := [mkpoint 0 0 0; mkpoint 5 0 0; mkpoint 10 0 0];
     gridFz := [];
     vnF := (3, 0, 0)%nat;
     hx := [5; 5];
     hy := [1];
     hz := [1];
     area := [1; 1; 1];
     isSymmetric := None |}.

Definition hed_scenario : Source :=
  {| cp := {| model.src_a := mkpoint 0 0 0; model.src_b := mkpoint 10 0 0;
              model.casing_a := 1#2; model.freqs := [] |};
     meshGenerator := hed_mesh;
     physics := TDEM |}.

(** Endpoints on one vertical line. *)
Definition ex_vertical : Source :=
  ex_source (mkpoint 0 0 0) (mkpoint 0 0 (-1)) (1#2).

(** [ex_mesh] with one x-face of the layer z = -3/2 moved to y = 1, and a
    source coupled to a casing of radius 1 at depth -1: the faces of its
    downhole contact lie on two y-coordinates. *)
Definition smeared_mesh : Mesh :=
  {| gridFx := map (fun p => if Qeq_bool (c0 p) (2#5)
                             then mkpoint (c0 p) 1 (c2 p) else p)
                   (gridFx ex_mesh);
     gridFz := gridFz ex_mesh;
     vnF := vnF ex_mesh;
     hx := hx ex_mesh;
     hy := hy ex_mesh;
     hz := hz ex_mesh;
     area := area ex_mesh;
     isSymmetric := isSymmetric ex_mesh |}.

Definition smeared_source : Source :=
  {| cp := {| model.src_a := mkpoint 0 0 (-1);
              model.src_b := mkpoint (9#10) 0 0;
              model.casing_a := 1; model.freqs := [1] |};
     meshGenerator := smeared_mesh;
     physics := FDEM |}.

(** ** Vocabulary of the statements *)

(** The resolved face is a row of the grid and no row is nearer. *)
Definition nearest_face (m : Mesh) (pt a : point) : Prop :=
  In a (gridFz m) /\
  forall g, In g (gridFz m) -> dist2 pt a <= dist2 pt g.

(** The unit current the segments leave at entry [j] of axis [ax]. *)
Definition unit_current (segs : list segment) (ax : axis) (j : nat) : Q :=
  match last_sign segs ax j with
  | Some q => q
  | None => 0
  end.

(** The mesh has at least one z-face and one cell along each axis. *)
Definition grids_ok (m : Mesh) : Prop :=
  gridFz m <> [] /\ hx m <> [] /\ hy m <> [] /\ hz m <> [].

(** The vector of the casing source lowered to z = -1 in [ex_mesh]. *)
Definition ex_vec : list Q :=
  Eval vm_compute in
    match s_e DHC ex_downhole with
    | Ok vec => vec
    | Raise _ => []
    end.

(** The vector that [s_e] returns on [smeared_source]. *)
Definition smeared_vec : list Q :=
  Eval vm_compute in
    match DownHoleCasingSrc.s_e smeared_source with
    | Ok vec => vec
    | Raise _ => []
    end.

(** The value each cache attribute stands for, on an instance of class [v]. *)
Definition point_value (a : Memo.point_attr) (self : Source) : result point :=
  match a with
  | Memo._src_a_closest => DownHoleTerminatingSrc.src_a_closest self
  | Memo._src_b_closest => DownHoleTerminatingSrc.src_b_closest self
  end.

(** The same for the attributes that hold masks; [_surface_wire] is
    computed by the class of the instance. *)
Definition mask_value (v : SourceVariant) (a : Memo.mask_attr) (self : Source)
  : result mask :=
  match a, v with
  | Memo._wire_in_borehole, _ => DownHoleTerminatingSrc.wire_in_borehole self
  | Memo._surface_wire, HED => HorizontalElectricDipole.surface_wire self
  | Memo._surface_wire, TCS => TopCasingSrc.surface_wire self
  | Memo._surface_wire, _ => DownHoleTerminatingSrc.surface_wire self
  | Memo._surface_electrode, _ => DownHoleTerminatingSrc.surface_electrode self
  | Memo._downhole_electrode, _ => DownHoleCasingSrc.downhole_electrode self
  | Memo._tophole_electrode, _ => TopCasingSrc.tophole_electrode self
  end.

(** Every attribute that is set holds the value its property computes; the
    cached vector is an array of the store; [_srcList] is set only after
    [_s_e]; and a mesh that is not symmetric has a cell along y, so that
    [hy.min()] returns (a mask property stores its mask before it reads
    [hy]). *)
Definition coherent (v : SourceVariant) (st : Memo.State) : Prop :=
  (forall a p, Memo.points st a = Some p ->
               point_value a (Memo.kwargs st) = Ok p) /\
  (forall a m, Memo.masks st a = Some m ->
               mask_value v a (Memo.kwargs st) = Ok m) /\
  (forall r, Memo._s_e st = Some r ->
             exists vec, nth_error (Memo.arrays st) r = Some vec /\
                         s_e v (Memo.kwargs st) = Ok vec) /\
  (Memo._srcList st <> None -> Memo._s_e st <> None) /\
  (not_symmetric (mesh (Memo.kwargs st)) = true ->
   hy (mesh (Memo.kwargs st)) <> []).

(** [st] is coherent and differs from [F] in cached points and masks only. *)
Definition good (v : SourceVariant) (F st : Memo.State) : Prop :=
  coherent v st /\
  Memo.kwargs st = Memo.kwargs F /\
  Memo.arrays st = Memo.arrays F /\
  Memo._s_e st = Memo._s_e F /\
  Memo._srcList st = Memo._srcList F.

(** The outcome of a run is the expected value, in a good state. *)
Definition post {A} (v : SourceVariant) (F : Memo.State)
    (out : result A * Memo.State) (expected : result A) : Prop :=
  fst out = expected /\ good v F (snd out).

(** [m] computes [f] of the keyword arguments and keeps the state good. *)
Definition returns {A} (v : SourceVariant) (m : Memo.M A)
    (f : Source -> result A) : Prop :=
  forall F st, good v F st -> post v F (m st) (f (Memo.kwargs F)).

(** The outcome of the statements under the guard of a mask property, which
    leave the mask in attribute [a]. *)
Definition store_post (v : SourceVariant) (F : Memo.State)
    (a : Memo.mask_attr) (out : result unit * Memo.State)
    (expected : result mask) : Prop :=
  mask_value v a (Memo.kwargs F) = expected ->
  match fst out with
  | Ok _ =>
      exists m, expected = Ok m /\ Memo.masks (snd out) a = Some m /\
                good v F (snd out)
  | Raise e => expected = Raise e /\ good v F (snd out)
  end.

(** The outcome of a body of [s_e]: either it allocates the next reference
    for the vector of the first layer, or it raises what the first layer
    raises and allocates nothing. *)
Definition alloc_post (v : SourceVariant) (F : Memo.State)
    (out : result Memo.ref * Memo.State) (expected : result (list Q)) : Prop :=
  match fst out with
  | Ok r =>
      exists vec,
        expected = Ok vec /\
        r = length (Memo.arrays F) /\
        Memo.arrays (snd out) = Memo.arrays F ++ [vec] /\
        coherent v (snd out) /\
        Memo.kwargs (snd out) = Memo.kwargs F /\
        Memo._s_e (snd out) = Memo._s_e F /\
        Memo._srcList (snd out) = Memo._srcList F
  | Raise e => expected = Raise e /\ good v F (snd out)
  end.

(** The entries of a column are all equal and there is at least one: what
    [len(np.unique(column)) == 1] asks. *)
Definition single_valued (l : list Q) : Prop :=
  l <> [] /\ forall x y, In x l -> In y l -> x == y.

(** The instance with its two electrodes exchanged. *)
Definition swap_endpoints (self : Source) : Source :=
  {| cp := {| model.src_a := src_b self; model.src_b := src_a self;
              model.casing_a := casing_a self; model.freqs := freqs self |};
     meshGenerator := meshGenerator self;
     physics := physics self |}.

(** What the [s_e] of each class reads from the mesh besides the x-faces:
    the minimum of [hz], on a mesh that is not symmetric the minimum of [hy],
    and, for every class but the horizontal dipole, the minimum of [hx] and a
    nearest z-face. *)
Definition mesh_needs (v : SourceVariant) (m : Mesh) : Prop :=
  hz m <> [] /\
  (not_symmetric m = true -> hy m <> []) /\
  (v <> HED -> gridFz m <> [] /\ hx m <> []).

(** A result that, when it is an exception, is a ValueError. *)
Definition ok_or_ValueError {A} (r : result A) : Prop :=
  match r with
  | Ok _ => True
  | Raise e => exists msg, e = ValueError msg
  end.

(** What a mask property reads from the mesh: [hz] and, on a mesh that is
    not symmetric, [hy]; with [x], also [hx]; with [z], also a z-face. *)
Definition mask_needs (x z : bool) (m : Mesh) : Prop :=
  hz m <> [] /\
  (not_symmetric m = true -> hy m <> []) /\
  (x = true -> hx m <> []) /\
  (z = true -> gridFz m <> []).

(** The outcome of a mask property over a grid [g]: it returns a mask with
    one entry per row of [g] exactly when the mesh has what it reads, and
    otherwise raises ValueError. *)
Definition mask_outcome (x z : bool) (m : Mesh) (g : list point)
    (r : result mask) : Prop :=
  (mask_needs x z m -> exists k, r = Ok k /\ length k = length g) /\
  ((exists k, r = Ok k) -> mask_needs x z m) /\
  ok_or_ValueError r.

(** The attribute that guards [s_e] is set: [_s_e] for the two dipoles,
    [_srcList] for the three downhole classes. *)
Definition guard_set (v : SourceVariant) (st : Memo.State) : bool :=
  match v with
  | HED | VED =>
      match Memo._s_e st with Some _ => true | None => false end
  | DHT | DHC | TCS =>
      match Memo._srcList st with Some _ => true | None => false end
  end.

(** The number of arrays that [n] successive reads of [s_e] allocate while
    nothing else touches the instance. *)
Definition allocations (v : SourceVariant) (st : Memo.State) (n : nat) : nat :=
  if guard_set v st then 0%nat
  else match v with
       | HED | VED => Nat.min 1 n
       | DHT | DHC | TCS => n
       end.

(** ** Lemmas on the numpy operations *)

Lemma Qlt_bool_iff x y : Qlt_bool x y = true <-> x < y.
Proof. unfold Qlt_bool, Qlt. apply Z.ltb_lt. Qed.

Lemma Qlt_bool_false x y : Qlt_bool x y = false <-> y <= x.
Proof. unfold Qlt_bool, Qle. apply Z.ltb_ge. Qed.

Section MaskLemmas.
Variable A : Type.

Lemma np_and_map (f h : A -> bool) (g : list A) :
  np_and (map f g) (map h g) = map (fun p => f p && h p) g.
Proof. induction g as [|p g IH]; simpl; [reflexivity | now rewrite IH]. Qed.

Lemma nth_map_mask (F : A -> bool) (g : list A) (i : nat) :
  nth i (map F g) false = true <->
  exists p, nth_error g i = Some p /\ F p = true.
Proof.
  revert i; induction g as [|q g IH]; intros [|i]; simpl.
  - split; [discriminate | intros (p & H & _); discriminate].
  - split; [discriminate | intros (p & H & _); discriminate].
  - split.
    + intros H; exists q; auto.
    + intros (p & H & HF); now inversion H; subst.
  - apply IH.
Qed.
End MaskLemmas.

Lemma Qmin_cases (x y : Q) : Qmin x y = x \/ Qmin x y = y.
Proof. unfold Qmin, GenericMinMax.gmin. destruct (x ?= y); auto. Qed.

Lemma np_min_spec (l : list Q) (m : Q) :
  np_min l = Ok m -> In m l /\ Forall (fun x => m <= x) l.
Proof.
  destruct l as [|x t]; simpl; [discriminate|].
  intros H; inversion H as [Hm]; clear H Hm.
  assert (G : forall t x, (fold_left Qmin t x = x \/ In (fold_left Qmin t x) t)
                          /\ fold_left Qmin t x <= x
                          /\ Forall (fun y => fold_left Qmin t x <= y) t).
  { clear. induction t as [|y t IH]; intros x; simpl.
    - repeat split; [now left | apply Qle_refl | constructor].
    - destruct (IH (Qmin x y)) as (Hin & Hle & Hall).
      repeat split.
      + destruct Hin as [Heq | Hin]; [|now right; right].
        rewrite Heq. destruct (Qmin_cases x y) as [E | E]; rewrite E; auto.
      + eapply Qle_trans; [exact Hle | apply Q.le_min_l].
      + constructor; [eapply Qle_trans; [exact Hle | apply Q.le_min_r] | exact Hall]. }
  destruct (G t x) as (Hin & Hle & Hall).
  split; [destruct Hin as [-> | Hin]; [now left | now right] | constructor; assumption].
Qed.

Lemma mask_char (g : list point) (F : point -> bool) (P : point -> Prop) :
  (forall p, F p = true <-> P p) ->
  forall i, nth i (map F g) false = true <->
            exists p, nth_error g i = Some p /\ P p.
Proof.
  intros HF i. rewrite nth_map_mask.
  split; intros (p & Hp & H); exists p; split; auto; now apply HF.
Qed.

Lemma argmin_from_spec (all : list Q) :
  forall (l : list Q) (best_i i : nat) (best : Q),
    nth_error all best_i = Some best ->
    (forall k x, nth_error l k = Some x -> nth_error all (i + k) = Some x) ->
    exists v, nth_error all (argmin_from best_i best i l) = Some v /\
              v <= best /\ Forall (fun x => v <= x) l.
Proof.
  induction l as [|x t IH]; intros best_i i best Hb Hl; simpl.
  - exists best. repeat split; [assumption | apply Qle_refl | constructor].
  - assert (Hx : nth_error all i = Some x).
    { specialize (Hl 0%nat x eq_refl). now rewrite Nat.add_0_r in Hl. }
    assert (Ht : forall k y, nth_error t k = Some y ->
                             nth_error all (S i + k) = Some y).
    { intros k y Hk. specialize (Hl (S k) y Hk).
      now rewrite Nat.add_succ_r in Hl. }
    destruct (Qlt_bool x best) eqn:C.
    + apply Qlt_bool_iff in C.
      destruct (IH i (S i) x Hx Ht) as (v & Hv & Hle & Hall).
      exists v. split; [assumption|]. split.
      * apply Qlt_le_weak. eapply Qle_lt_trans; eassumption.
      * constructor; assumption.
    + apply Qlt_bool_false in C.
      destruct (IH best_i (S i) best Hb Ht) as (v & Hv & Hle & Hall).
      exists v. split; [assumption|]. split; [assumption|].
      constructor; [eapply Qle_trans; eassumption | assumption].
Qed.

Lemma np_argmin_spec (l : list Q) :
  l <> [] ->
  exists i v, np_argmin l = Ok i /\ nth_error l i = Some v /\
              Forall (fun x => v <= x) l.
Proof.
  destruct l as [|x t]; [congruence | intros _; simpl].
  destruct (@argmin_from_spec (x :: t) t 0 1 x eq_refl) as (v & Hv & Hle & Hall).
  { intros k y Hk. exact Hk. }
  exists (argmin_from 0 x 1 t), v. repeat split; auto.
Qed.

Lemma closest_face_spec (m : Mesh) (pt : point) :
  gridFz m <> [] ->
  exists i a, closestPoints_Fz m pt = Ok [i] /\
              nth_error (gridFz m) i = Some a /\ nearest_face m pt a.
Proof.
  intros Hne. unfold closestPoints_Fz.
  destruct (@np_argmin_spec (map (fun g => dist2 pt g) (gridFz m)))
    as (i & v & Hi & Hv & Hall).
  { destruct (gridFz m); [congruence | discriminate]. }
  rewrite Hi; simpl.
  rewrite nth_error_map in Hv.
  destruct (nth_error (gridFz m) i) as [a|] eqn:Ha; [|discriminate].
  simpl in Hv. inversion Hv; subst v.
  exists i, a. repeat split; auto.
  - eapply nth_error_In; eassumption.
  - intros g Hg. rewrite Forall_forall in Hall.
    apply Hall. now apply in_map.
Qed.

Lemma src_a_closest_spec (self : Source) :
  gridFz (mesh self) <> [] ->
  exists a, DownHoleTerminatingSrc.src_a_closest self = Ok a /\
            nearest_face (mesh self) (src_a self) a.
Proof.
  intros Hne.
  destruct (@closest_face_spec (mesh self) (src_a self) Hne) as (i & a & Hc & Ha & Hn).
  exists a. split; [|assumption].
  unfold DownHoleTerminatingSrc.src_a_closest.
  rewrite Hc; simpl. now rewrite Ha.
Qed.

Lemma src_b_closest_spec (self : Source) :
  gridFz (mesh self) <> [] ->
  exists b, DownHoleTerminatingSrc.src_b_closest self = Ok b /\
            nearest_face (mesh self) (src_b self) b.
Proof.
  intros Hne.
  destruct (@closest_face_spec (mesh self) (src_b self) Hne) as (i & b & Hc & Hb & Hn).
  exists b. split; [|assumption].
  unfold DownHoleTerminatingSrc.src_b_closest.
  rewrite Hc; simpl. now rewrite Hb.
Qed.

Lemma VED_src_a_closest_eq (self : Source) :
  VerticalElectricDipole.src_a_closest self
  = DownHoleTerminatingSrc.src_a_closest self.
Proof. reflexivity. Qed.

Lemma VED_wire_in_borehole_eq (self : Source) :
  VerticalElectricDipole.wire_in_borehole self
  = DownHoleTerminatingSrc.wire_in_borehole self.
Proof. reflexivity. Qed.

Ltac split_ands :=
  repeat match goal with |- _ /\ _ => split end.

(** Masks are read face by face: a mask built from the columns of a grid is
    the image of the grid under one boolean test. *)
Ltac as_map :=
  unfold le_s, ge_s, lt_s, gt_s, col0, col1, col2;
  rewrite ?map_map, ?np_and_map.

Ltac bool_to_prop :=
  rewrite ?andb_true_iff, ?Qle_bool_iff, ?Qlt_bool_iff.

Ltac finish_mask :=
  as_map; split;
  [ apply length_map
  | apply mask_char; intros p; bool_to_prop;
    intuition (auto; try discriminate) ].

(** ** The selected faces of each segment *)

(** The mask of the wire in the borehole, face by face.  [a] is the z-face
    nearest to [src_a]. *)
Lemma wire_in_borehole_spec (self : Source) (hx_min hy_min hz_min : Q) :
  gridFz (mesh self) <> [] ->
  np_min (hx (mesh self)) = Ok hx_min ->
  np_min (hz (mesh self)) = Ok hz_min ->
  (not_symmetric (mesh self) = true -> np_min (hy (mesh self)) = Ok hy_min) ->
  exists a m,
    DownHoleTerminatingSrc.src_a_closest self = Ok a /\
    nearest_face (mesh self) (src_a self) a /\
    DownHoleTerminatingSrc.wire_in_borehole self = Ok m /\
    length m = length (gridFz (mesh self)) /\
    forall i, nth i m false = true <->
      exists p, nth_error (gridFz (mesh self)) i = Some p /\
        (c2 (src_a self) - (1#2) * hz_min <= c2 p /\
         c2 p < c2 (src_b self) + (3#2) * hz_min) /\
        (c0 a - hx_min / 2 < c0 p /\ c0 p < c0 a + hx_min / 2) /\
        (not_symmetric (mesh self) = true ->
         c1 (src_a self) - hy_min / 2 < c1 p /\
         c1 p < c1 (src_a self) + hy_min / 2).
Proof.
  intros Hne Hx Hz Hy.
  destruct (@src_a_closest_spec self Hne) as (a & Ha & Hn).
  unfold DownHoleTerminatingSrc.wire_in_borehole. cbv zeta.
  rewrite Ha, Hx, Hz. cbn [bind].
  destruct (not_symmetric (mesh self)) eqn:Hs;
    [rewrite (Hy eq_refl); cbn [bind] |];
    exists a; eexists; (split; [reflexivity|]); (split; [assumption|]);
    (split; [reflexivity|]); finish_mask.
Qed.

Lemma HED_surface_wire_spec (self : Source) (hy_min hz_min : Q) :
  np_min (hz (mesh self)) = Ok hz_min ->
  (not_symmetric (mesh self) = true -> np_min (hy (mesh self)) = Ok hy_min) ->
  exists m,
    HorizontalElectricDipole.surface_wire self = Ok m /\
    length m = length (gridFx (mesh self)) /\
    forall i, nth i m false = true <->
      exists p, nth_error (gridFx (mesh self)) i = Some p /\
        (Qmin (c0 (src_a self)) (c0 (src_b self)) <= c0 p /\
         c0 p <= Qmax (c0 (src_a self)) (c0 (src_b self))) /\
        (c2 (src_b self) - hz_min / 2 < c2 p /\
         c2 p < c2 (src_b self) + hz_min / 2) /\
        (not_symmetric (mesh self) = true ->
         c1 (src_b self) - hy_min / 2 < c1 p /\
         c1 p < c1 (src_b self) + hy_min / 2).
Proof.
  intros Hz Hy.
  unfold HorizontalElectricDipole.surface_wire. cbv zeta.
  rewrite Hz. cbn [bind].
  destruct (not_symmetric (mesh self)) eqn:Hs;
    [rewrite (Hy eq_refl); cbn [bind] |];
    eexists; (split; [reflexivity|]); finish_mask.
Qed.

Lemma DHT_surface_wire_spec (self : Source) (hy_min hz_min : Q) :
  gridFz (mesh self) <> [] ->
  np_min (hz (mesh self)) = Ok hz_min ->
  (not_symmetric (mesh self) = true -> np_min (hy (mesh self)) = Ok hy_min) ->
  exists a b m,
    DownHoleTerminatingSrc.src_a_closest self = Ok a /\
    DownHoleTerminatingSrc.src_b_closest self = Ok b /\
    DownHoleTerminatingSrc.surface_wire self = Ok m /\
    length m = length (gridFx (mesh self)) /\
    forall i, nth i m false = true <->
      exists p, nth_error (gridFx (mesh self)) i = Some p /\
        (hz_min < c2 p /\ c2 p <= (7#4) * hz_min) /\
        (Qmin (c0 a) (c0 b) <= c0 p /\ c0 p <= Qmax (c0 a) (c0 b)) /\
        (not_symmetric (mesh self) = true ->
         c1 (src_b self) - hy_min / 2 < c1 p /\
         c1 p < c1 (src_b self) + hy_min / 2).
Proof.
  intros Hne Hz Hy.
  destruct (@src_a_closest_spec self Hne) as (a & Ha & _).
  destruct (@src_b_closest_spec self Hne) as (b & Hb & _).
  unfold DownHoleTerminatingSrc.surface_wire. cbv zeta.
  rewrite Ha, Hb, Hz. cbn [bind].
  destruct (not_symmetric (mesh self)) eqn:Hs;
    [rewrite (Hy eq_refl); cbn [bind] |];
    exists a, b; eexists; (split; [reflexivity|]); (split; [reflexivity|]);
    (split; [reflexivity|]); finish_mask.
Qed.

Lemma surface_electrode_spec (self : Source) (hx_min hy_min hz_min : Q) :
  gridFz (mesh self) <> [] ->
  np_min (hx (mesh self)) = Ok hx_min ->
  np_min (hz (mesh self)) = Ok hz_min ->
  (not_symmetric (mesh self) = true -> np_min (hy (mesh self)) = Ok hy_min) ->
  exists b m,
    DownHoleTerminatingSrc.src_b_closest self = Ok b /\
    DownHoleTerminatingSrc.surface_electrode self = Ok m /\
    length m = length (gridFz (mesh self)) /\
    forall i, nth i m false = true <->
      exists p, nth_error (gridFz (mesh self)) i = Some p /\
        (c0 b - hx_min / 2 < c0 p /\ c0 p < c0 b + hx_min / 2) /\
        (c2 (src_b self) - hz_min <= c2 p /\
         c2 p < c2 (src_b self) + (7#4) * hz_min) /\
        (not_symmetric (mesh self) = true ->
         c1 (src_b self) - hy_min / 2 < c1 p /\
         c1 p < c1 (src_b self) + hy_min / 2).
Proof.
  intros Hne Hx Hz Hy.
  destruct (@src_b_closest_spec self Hne) as (b & Hb & _).
  unfold DownHoleTerminatingSrc.surface_electrode. cbv zeta.
  rewrite Hb, Hx, Hz. cbn [bind].
  destruct (not_symmetric (mesh self)) eqn:Hs;
    [rewrite (Hy eq_refl); cbn [bind] |];
    exists b; eexists; (split; [reflexivity|]); (split; [reflexivity|]);
    finish_mask.
Qed.

Lemma downhole_electrode_spec (self : Source) (hy_min hz_min : Q) :
  np_min (hz (mesh self)) = Ok hz_min ->
  (not_symmetric (mesh self) = true -> np_min (hy (mesh self)) = Ok hy_min) ->
  exists m,
    DownHoleCasingSrc.downhole_electrode self = Ok m /\
    length m = length (gridFx (mesh self)) /\
    forall i, nth i m false = true <->
      exists p, nth_error (gridFx (mesh self)) i = Some p /\
        c0 p <= casing_a self /\
        (c2 (src_a self) - hz_min < c2 p /\ c2 p <= c2 (src_a self)) /\
        (not_symmetric (mesh self) = true ->
         c1 (src_a self) - hy_min / 2 < c1 p /\
         c1 p < c1 (src_a self) + hy_min / 2).
Proof.
  intros Hz Hy.
  unfold DownHoleCasingSrc.downhole_electrode. cbv zeta.
  rewrite Hz. cbn [bind].
  destruct (not_symmetric (mesh self)) eqn:Hs;
    [rewrite (Hy eq_refl); cbn [bind] |];
    eexists; (split; [reflexivity|]); finish_mask.
Qed.

Lemma tophole_electrode_spec (self : Source) (hx_min hy_min hz_min : Q) :
  np_min (hx (mesh self)) = Ok hx_min ->
  np_min (hz (mesh self)) = Ok hz_min ->
  (not_symmetric (mesh self) = true -> np_min (hy (mesh self)) = Ok hy_min) ->
  exists m,
    TopCasingSrc.tophole_electrode self = Ok m /\
    length m = length (gridFz (mesh self)) /\
    forall i, nth i m false = true <->
      exists p, nth_error (gridFz (mesh self)) i = Some p /\
        (casing_a self < c0 p /\ c0 p <= casing_a self + hx_min) /\
        (c2 (src_a self) - (1#2) * hz_min <= c2 p /\
         c2 p < c2 (src_a self) + (3#2) * hz_min) /\
        (not_symmetric (mesh self) = true ->
         c1 (src_a self) - hy_min < c1 p /\
         c1 p < c1 (src_a self) + hy_min).
Proof.
  intros Hx Hz Hy.
  unfold TopCasingSrc.tophole_electrode. cbv zeta.
  rewrite Hx, Hz. cbn [bind].
  destruct (not_symmetric (mesh self)) eqn:Hs;
    [rewrite (Hy eq_refl); cbn [bind] |];
    eexists; (split; [reflexivity|]); finish_mask.
Qed.

Lemma TCS_surface_wire_spec (self : Source) (hx_min hy_min hz_min : Q) :
  gridFz (mesh self) <> [] ->
  np_min (hx (mesh self)) = Ok hx_min ->
  np_min (hz (mesh self)) = Ok hz_min ->
  (not_symmetric (mesh self) = true -> np_min (hy (mesh self)) = Ok hy_min) ->
  exists b m,
    DownHoleTerminatingSrc.src_b_closest self = Ok b /\
    TopCasingSrc.surface_wire self = Ok m /\
    length m = length (gridFx (mesh self)) /\
    forall i, nth i m false = true <->
      exists p, nth_error (gridFx (mesh self)) i = Some p /\
        (casing_a self + hx_min / 2 < c0 p /\ c0 p <= c0 b) /\
        (c2 (src_b self) + hz_min < c2 p /\
         c2 p <= c2 (src_b self) + (7#4) * hz_min) /\
        (not_symmetric (mesh self) = true ->
         c1 (src_b self) - hy_min / 2 < c1 p /\
         c1 p < c1 (src_b self) + hy_min / 2).
Proof.
  intros Hne Hx Hz Hy.
  destruct (@src_b_closest_spec self Hne) as (b & Hb & _).
  unfold TopCasingSrc.surface_wire. cbv zeta.
  rewrite Hb, Hx, Hz. cbn [bind].
  destruct (not_symmetric (mesh self)) eqn:Hs;
    [rewrite (Hy eq_refl); cbn [bind] |];
    exists b; eexists; (split; [reflexivity|]); (split; [reflexivity|]);
    finish_mask.
Qed.

(** ** The face arrays *)

Lemma length_assign (arr : list Q) (m : mask) (v : Q) :
  length (assign arr m v) = length arr.
Proof.
  revert m; induction arr as [|a arr IH]; intros [|b m]; simpl; auto.
Qed.

Lemma nth_assign (arr : list Q) (m : mask) (v : Q) (j : nat) :
  length m = length arr ->
  nth j (assign arr m v) 0 = if nth j m false then v else nth j arr 0.
Proof.
  revert m j; induction arr as [|a arr IH]; intros [|b m] j; simpl;
    try discriminate.
  - intros _. now destruct j.
  - intros H. destruct j as [|j]; [reflexivity | apply IH; congruence].
Qed.

Lemma setmask_Ok (arr arr' : list Q) (m : mask) (v : Q) :
  setmask arr m v = Ok arr' ->
  length m = length arr /\ arr' = assign arr m v.
Proof.
  unfold setmask. destruct (length m =? length arr)%nat eqn:L; [|discriminate].
  intros H; inversion H. split; [now apply Nat.eqb_eq | reflexivity].
Qed.

Lemma nth_np_zeros (n j : nat) : nth j (np_zeros n) 0 = 0.
Proof. unfold np_zeros. apply nth_repeat. Qed.

Lemma length_np_zeros (n : nat) : length (np_zeros n) = n.
Proof. unfold np_zeros. apply repeat_length. Qed.

(** Unfolds one masked assignment of an [s_xyz] body. *)
Ltac step_mask :=
  match goal with
  | |- context [bind ?r _] =>
      let E := fresh "Em" in
      destruct r as [?m|] eqn:E; cbn [bind]; [|discriminate]
  end.

Ltac step_setmask :=
  match goal with
  | |- context [bind (setmask ?a0 ?m0 ?v0) _] =>
      let H := fresh "Hset" in
      let L := fresh "Hlen" in
      let E := fresh "Earr" in
      destruct (setmask a0 m0 v0) as [?s|] eqn:H; cbn [bind]; [|discriminate];
      apply setmask_Ok in H; destruct H as [L E]; subst
  end.

Lemma s_xyz_spec (v : SourceVariant) (self : Source) (s_x s_y s_z : list Q) :
  s_xyz v self = Ok (s_x, s_y, s_z) ->
  (length s_x = vnF0 (mesh self) /\ length s_y = vnF1 (mesh self) /\
   length s_z = vnF2 (mesh self)) /\
  forall j,
    nth j s_x 0 = unit_current (segments v self) Fx j /\
    nth j s_y 0 = unit_current (segments v self) Fy j /\
    nth j s_z 0 = unit_current (segments v self) Fz j.
Proof.
  destruct v; unfold s_xyz, segments, unit_current;
    [ unfold HorizontalElectricDipole.s_xyz
    | unfold VerticalElectricDipole.s_xyz
    | unfold DownHoleTerminatingSrc.s_xyz
    | unfold DownHoleCasingSrc.s_xyz
    | unfold TopCasingSrc.s_xyz ];
    cbv zeta;
    repeat (first [step_setmask | step_mask]);
    intros H; inversion H; subst; clear H;
    repeat match goal with
           | L : length _ = length (assign _ _ _) |- _ =>
               rewrite length_assign in L
           end;
    (split;
     [ rewrite ?length_assign, ?length_np_zeros; auto
     | intros j; unfold last_sign, selects; cbn [seg_axis seg_mask seg_sign axis_eqb andb];
       rewrite ?nth_assign, ?nth_np_zeros
         by (rewrite ?length_assign; assumption);
       repeat match goal with
              | |- context [nth j ?m false] => destruct (nth j m false)
              end; auto ]).
Qed.

(** ** The current-density vector *)

Lemma s_e_unfold (v : SourceVariant) (self : Source) :
  s_e v self =
  (xyz <- s_xyz v self ;;
   let '(s_x, s_y, s_z) := xyz in
   np_divide (s_x ++ s_y ++ s_z) (area (mesh self))).
Proof. destruct v; reflexivity. Qed.

Lemma length_div_zip (a b : list Q) :
  length a = length b -> length (div_zip a b) = length a.
Proof.
  revert b; induction a as [|x a IH]; intros [|y b]; simpl; try discriminate;
    auto.
Qed.

Lemma nth_div_zip (a b : list Q) (i : nat) :
  length a = length b -> (i < length a)%nat ->
  nth i (div_zip a b) 0 = nth i a 0 / nth i b 0.
Proof.
  revert b i; induction a as [|x a IH]; intros [|y b] i; simpl;
    try discriminate; try lia.
  intros H Hi. destruct i as [|i]; [reflexivity|].
  apply IH; [congruence | lia].
Qed.

Lemma np_divide_same_length (a b : list Q) :
  length a = length b -> np_divide a b = Ok (div_zip a b).
Proof. intros H. unfold np_divide. now rewrite H, Nat.eqb_refl. Qed.

Lemma nth_hstack (s_x s_y s_z : list Q) (m : Mesh) (i : nat) :
  length s_x = vnF0 m -> length s_y = vnF1 m -> length s_z = vnF2 m ->
  nth i (s_x ++ s_y ++ s_z) 0 =
  match locate m i with
  | (Fx, j) => nth j s_x 0
  | (Fy, j) => nth j s_y 0
  | (Fz, j) => nth j s_z 0
  end.
Proof.
  intros Hx Hy Hz. unfold locate.
  destruct (i <? vnF0 m)%nat eqn:C1.
  - apply Nat.ltb_lt in C1. rewrite app_nth1; [reflexivity | lia].
  - apply Nat.ltb_ge in C1. rewrite app_nth2 by lia.
    destruct (i <? vnF0 m + vnF1 m)%nat eqn:C2.
    + apply Nat.ltb_lt in C2. rewrite app_nth1 by lia. now rewrite Hx.
    + apply Nat.ltb_ge in C2. rewrite app_nth2 by lia.
      rewrite Hx, Hy. reflexivity.
Qed.

(** Every entry of [s_e] is the unit current left at its face divided by the
    area of that face. *)
Lemma s_e_entries (v : SourceVariant) (self : Source) (vec : list Q) :
  mesh_wf (mesh self) ->
  s_e v self = Ok vec ->
  length vec = (vnF0 (mesh self) + vnF1 (mesh self) + vnF2 (mesh self))%nat /\
  forall i ax j,
    (i < length vec)%nat ->
    locate (mesh self) i = (ax, j) ->
    nth i vec 0
    = unit_current (segments v self) ax j / nth i (area (mesh self)) 0.
Proof.
  intros (_ & _ & Harea & _) H.
  rewrite s_e_unfold in H.
  destruct (s_xyz v self) as [[[s_x s_y] s_z]|] eqn:E; [|discriminate].
  cbn [bind] in H.
  destruct (s_xyz_spec _ _ E) as ((Lx & Ly & Lz) & Hn).
  assert (L : length (s_x ++ s_y ++ s_z) = length (area (mesh self))).
  { rewrite !length_app. lia. }
  rewrite (np_divide_same_length _ _ L) in H. inversion H; subst vec; clear H.
  rewrite length_div_zip by assumption.
  split; [rewrite !length_app; lia|].
  intros i ax j Hi Hloc.
  rewrite nth_div_zip by assumption.
  rewrite (nth_hstack _ _ _ (mesh self) i Lx Ly Lz), Hloc.
  destruct (Hn j) as (Hjx & Hjy & Hjz).
  destruct ax; congruence.
Qed.

Lemma last_sign_None (segs : list segment) (ax : axis) (j : nat) :
  last_sign segs ax j = None <->
  forall s, In s segs -> selects s ax j = false.
Proof.
  induction segs as [|s t IH]; simpl.
  - split; [intros _ s [] | reflexivity].
  - destruct (last_sign t ax j) as [q|].
    + split; [discriminate|].
      intros H. destruct IH as [_ IH].
      discriminate IH. intros s' Hs'. apply H. now right.
    + destruct (selects s ax j) eqn:Hs.
      * split; [discriminate|]. intros H.
        rewrite (H s) in Hs; [discriminate | now left].
      * split; [|reflexivity]. intros _ s' [<- | Hs']; [assumption|].
        now apply IH.
Qed.

Lemma last_sign_Some (segs : list segment) (ax : axis) (j : nat) (q : Q) :
  last_sign segs ax j = Some q ->
  exists pre s post,
    segs = pre ++ s :: post /\ selects s ax j = true /\ seg_sign s = q /\
    forall s', In s' post -> selects s' ax j = false.
Proof.
  revert q; induction segs as [|s t IH]; simpl; intros q; [discriminate|].
  destruct (last_sign t ax j) as [q'|] eqn:E.
  - intros H; inversion H; subst q'.
    destruct (IH q eq_refl) as (pre & s0 & post & -> & Hs & Hq & Hpost).
    exists (s :: pre), s0, post. repeat split; auto.
  - destruct (selects s ax j) eqn:Hs; [|discriminate].
    intros H; inversion H.
    exists [], s, t. repeat split; auto.
    now apply last_sign_None.
Qed.

(** ** When the properties return *)

Lemma np_min_total (l : list Q) : l <> [] -> exists m, np_min l = Ok m.
Proof. destruct l; [congruence | intros _; simpl; eauto]. Qed.

Lemma setmask_same_length (arr : list Q) (m : mask) (v : Q) :
  length m = length arr -> setmask arr m v = Ok (assign arr m v).
Proof. intros H. unfold setmask. now rewrite H, Nat.eqb_refl. Qed.

Lemma s_xyz_total (v : SourceVariant) (self : Source) :
  mesh_wf (mesh self) -> grids_ok (mesh self) ->
  exists s_x s_y s_z, s_xyz v self = Ok (s_x, s_y, s_z).
Proof.
  intros (Wx & Wz & _) (Hne & Hx & Hy & Hz).
  destruct (np_min_total Hx) as (hx_min & Ex).
  destruct (np_min_total Hy) as (hy_min & Ey).
  destruct (np_min_total Hz) as (hz_min & Ez).
  assert (Ey' : not_symmetric (mesh self) = true ->
                np_min (hy (mesh self)) = Ok hy_min) by auto.
  destruct (HED_surface_wire_spec self Ez Ey') as (m1 & E1 & L1 & _).
  destruct (wire_in_borehole_spec self Hne Ex Ez Ey')
    as (a & m2 & _ & _ & E2 & L2 & _).
  destruct (DHT_surface_wire_spec self Hne Ez Ey')
    as (a' & b & m3 & _ & _ & E3 & L3 & _).
  destruct (surface_electrode_spec self Hne Ex Ez Ey')
    as (b' & m4 & _ & E4 & L4 & _).
  destruct (downhole_electrode_spec self Ez Ey') as (m5 & E5 & L5 & _).
  destruct (tophole_electrode_spec self Ex Ez Ey') as (m6 & E6 & L6 & _).
  destruct (TCS_surface_wire_spec self Hne Ex Ez Ey')
    as (b'' & m7 & _ & E7 & L7 & _).
  destruct v; unfold s_xyz;
    [ unfold HorizontalElectricDipole.s_xyz
    | unfold VerticalElectricDipole.s_xyz; rewrite VED_wire_in_borehole_eq
    | unfold DownHoleTerminatingSrc.s_xyz
    | unfold DownHoleCasingSrc.s_xyz
    | unfold TopCasingSrc.s_xyz ];
    cbv zeta;
    rewrite ?E1, ?E2, ?E3, ?E4, ?E5, ?E6, ?E7; cbn [bind];
    repeat (rewrite setmask_same_length
              by (rewrite ?length_assign, ?length_np_zeros; congruence);
            cbn [bind]);
    eauto.
Qed.

Lemma s_e_total (v : SourceVariant) (self : Source) :
  mesh_wf (mesh self) -> grids_ok (mesh self) ->
  exists vec, s_e v self = Ok vec.
Proof.
  intros W G.
  destruct (s_xyz_total v self W G) as (s_x & s_y & s_z & E).
  destruct (s_xyz_spec _ _ E) as ((Lx & Ly & Lz) & _).
  destruct W as (_ & _ & Harea & _).
  rewrite s_e_unfold, E. cbn [bind].
  rewrite np_divide_same_length by (rewrite !length_app; lia).
  eauto.
Qed.

(** ** The validator of the downhole contact *)

Lemma np_unique_nil (l : list Q) : np_unique l = [] -> l = [].
Proof.
  induction l as [|x t IH]; simpl; [reflexivity|].
  destruct (existsb (Qeq_bool x) t) eqn:E; [|discriminate].
  intros H. rewrite (IH H) in E. discriminate.
Qed.

Lemma np_unique_single (l : list Q) (u : Q) :
  np_unique l = [u] -> forall x, In x l -> x == u.
Proof.
  induction l as [|y t IH]; simpl; [intros _ x []|].
  destruct (existsb (Qeq_bool y) t) eqn:E.
  - intros H x [<- | Hx]; [|now apply IH].
    apply existsb_exists in E. destruct E as (z & Hz & Hyz).
    apply Qeq_bool_iff in Hyz. rewrite Hyz. now apply IH.
  - intros H. inversion H as [[Hy Ht]].
    apply np_unique_nil in Ht. subst t.
    intros x [<- | []]. reflexivity.
Qed.

Lemma two_values_not_unique (l : list Q) (x y : Q) :
  In x l -> In y l -> ~ x == y -> (length (np_unique l) =? 1)%nat = false.
Proof.
  intros Hx Hy Hxy. apply Nat.eqb_neq. intros L.
  destruct (np_unique l) as [|u [|? ?]] eqn:E; try discriminate.
  apply Hxy.
  rewrite (np_unique_single _ E x Hx), (np_unique_single _ E y Hy).
  reflexivity.
Qed.

Lemma In_select (g : list point) (m : mask) (i : nat) (p : point) :
  nth_error g i = Some p -> nth i m false = true -> In p (select g m).
Proof.
  revert m i; induction g as [|q g IH]; intros [|b m] [|i]; simpl;
    try discriminate.
  - intros H Hb; inversion H; subst. now left.
  - intros H Hb. destruct b; [right|]; eapply IH; eassumption.
Qed.

(** ** Signs of the segments *)

Lemma surface_wire_direction_cases (self : Source) :
  HorizontalElectricDipole.surface_wire_direction self = -1 \/
  HorizontalElectricDipole.surface_wire_direction self = 1.
Proof.
  unfold HorizontalElectricDipole.surface_wire_direction.
  destruct (Qlt_bool _ _); auto.
Qed.

(** C1, as the code has it: of the five topologies only DownHoleCasingSrc
    has segment signs that sum to zero, (-1)+(+1)+(-1)+(+1) = 0.  The signs of
    HorizontalElectricDipole and of DownHoleTerminatingSrc sum to the
    direction of the surface wire, which is -1 or +1, and those of
    VerticalElectricDipole and of TopCasingSrc sum to -1. *)
Theorem C1_sum_of_segment_signs :
  forall self : Source,
    sum_signs (segments DHC self) == 0 /\
    map seg_sign (segments DHC self) = [-1; 1; -1; 1] /\
    sum_signs (segments VED self) == -1 /\
    sum_signs (segments TCS self) == -1 /\
    sum_signs (segments HED self)
      == HorizontalElectricDipole.surface_wire_direction self /\
    sum_signs (segments DHT self)
      == DownHoleTerminatingSrc.surface_wire_direction self /\
    ~ sum_signs (segments HED self) == 0 /\
    ~ sum_signs (segments DHT self) == 0.
Proof.
  intros self. unfold sum_signs, segments; cbn [fold_right seg_sign map].
  assert (D : DownHoleTerminatingSrc.surface_wire_direction self
              = HorizontalElectricDipole.surface_wire_direction self)
    by reflexivity.
  rewrite D.
  repeat split; try reflexivity; try ring;
    destruct (surface_wire_direction_cases self) as [-> | ->]; discriminate.
Qed.

(** C1, as stated, fails: the one segment of the horizontal dipole from
    (0,0,0) to (10,0,0) carries the sign -1, so the signs do not sum to zero. *)
Lemma C1_counterexample :
  sum_signs (segments HED hed_scenario) == -1 /\
  ~ sum_signs (segments HED hed_scenario) == 0.
Proof. split; [reflexivity | discriminate]. Qed.

(** C5: on an instance that HorizontalElectricDipole's constructor accepts,
    every entry of the x-face array selected by the surface wire holds -1
    when src_a.x < src_b.x and +1 otherwise. *)
Theorem C5_surface_wire_sign :
  forall (kwargs self : Source) (sw : mask) (s_x s_y s_z : list Q) (j : nat),
    HorizontalElectricDipole.__init__ kwargs = Ok self ->
    HorizontalElectricDipole.surface_wire self = Ok sw ->
    HorizontalElectricDipole.s_xyz self = Ok (s_x, s_y, s_z) ->
    nth j sw false = true ->
    (c0 (src_a self) < c0 (src_b self) -> nth j s_x 0 = -1) /\
    (~ c0 (src_a self) < c0 (src_b self) -> nth j s_x 0 = 1).
Proof.
  intros kwargs self sw s_x s_y s_z j _ Hsw Hxyz Hj.
  destruct (@s_xyz_spec HED self s_x s_y s_z Hxyz) as (_ & Hn).
  destruct (Hn j) as (Hx & _).
  unfold unit_current, segments, last_sign, selects in Hx.
  cbn [seg_axis seg_mask seg_sign axis_eqb andb] in Hx.
  rewrite Hsw, Hj in Hx. rewrite Hx.
  unfold HorizontalElectricDipole.surface_wire_direction.
  destruct (Qlt_bool _ _) eqn:C.
  - apply Qlt_bool_iff in C. split; [reflexivity | tauto].
  - apply Qlt_bool_false in C. split; [|reflexivity].
    intros H. exfalso. eapply Qlt_not_le; eassumption.
Qed.

(** The dipole from (0,0,0) to (10,0,0) on x-faces at 0, 5, 10: the three
    faces are selected and the sign written there is -1. *)
Lemma C5_surface_wire_sign_witness :
  HorizontalElectricDipole.surface_wire hed_scenario = Ok [true; true; true] /\
  HorizontalElectricDipole.s_xyz hed_scenario = Ok ([-1; -1; -1], [], []) /\
  (c0 (src_a hed_scenario) < c0 (src_b hed_scenario) ->
   nth 1 [-1; -1; -1] 0 = -1) /\
  (~ c0 (src_a hed_scenario) < c0 (src_b hed_scenario) ->
   nth 1 [-1; -1; -1] 0 = 1).
Proof.
  split; [reflexivity|]. split; [reflexivity|].
  apply (@C5_surface_wire_sign hed_scenario hed_scenario [true; true; true]
           [-1; -1; -1] [] [] 1%nat);
    reflexivity.
Defined.

(** C9: when src_a.x == src_b.x the surface-wire direction of
    HorizontalElectricDipole and of DownHoleTerminatingSrc is +1; the value
    -1 is returned exactly under the strict inequality src_a.x < src_b.x. *)
Theorem C9_equal_x_direction :
  forall self : Source,
    c0 (src_a self) == c0 (src_b self) ->
    HorizontalElectricDipole.surface_wire_direction self = 1 /\
    DownHoleTerminatingSrc.surface_wire_direction self = 1 /\
    (forall other : Source,
       (HorizontalElectricDipole.surface_wire_direction other = -1 <->
        c0 (src_a other) < c0 (src_b other)) /\
       (DownHoleTerminatingSrc.surface_wire_direction other = -1 <->
        c0 (src_a other) < c0 (src_b other))).
Proof.
  intros self Heq.
  unfold HorizontalElectricDipole.surface_wire_direction,
    DownHoleTerminatingSrc.surface_wire_direction.
  assert (C : Qlt_bool (c0 (src_a self)) (c0 (src_b self)) = false).
  { apply Qlt_bool_false. rewrite Heq. apply Qle_refl. }
  rewrite C. repeat split; try reflexivity;
    destruct (Qlt_bool (c0 (src_a other)) (c0 (src_b other))) eqn:D;
    try discriminate; try reflexivity;
    try (intros _; now apply Qlt_bool_iff);
    intros H; apply Qlt_bool_iff in H; congruence.
Qed.

Lemma C9_equal_x_direction_witness :
  c0 (src_a ex_vertical) == c0 (src_b ex_vertical) /\
  HorizontalElectricDipole.surface_wire_direction ex_vertical = 1 /\
  DownHoleTerminatingSrc.surface_wire_direction ex_vertical = 1.
Proof.
  split; [reflexivity|].
  destruct (@C9_equal_x_direction ex_vertical) as (H1 & H2 & _);
    [reflexivity | split; assumption].
Defined.

(** ** The bands of the masks *)

(** C6: the tophole-electrode mask of TopCasingSrc selects exactly the
    z-faces whose x-coordinate lies in (casing_a, casing_a + hx_min], whose
    z-coordinate lies in [src_a.z - hz_min/2, src_a.z + 3 hz_min/2) and, when
    the mesh is not symmetric, whose y-coordinate lies strictly within hy_min
    of src_a.y. *)
Theorem C6_tophole_electrode_band :
  forall (self : Source) (hx_min hy_min hz_min : Q),
    np_min (hx (mesh self)) = Ok hx_min ->
    np_min (hz (mesh self)) = Ok hz_min ->
    (not_symmetric (mesh self) = true ->
     np_min (hy (mesh self)) = Ok hy_min) ->
    exists m,
      TopCasingSrc.tophole_electrode self = Ok m /\
      length m = length (gridFz (mesh self)) /\
      forall i, nth i m false = true <->
        exists p, nth_error (gridFz (mesh self)) i = Some p /\
          (casing_a self < c0 p /\ c0 p <= casing_a self + hx_min) /\
          (c2 (src_a self) - (1#2) * hz_min <= c2 p /\
           c2 p < c2 (src_a self) + (3#2) * hz_min) /\
          (not_symmetric (mesh self) = true ->
           c1 (src_a self) - hy_min < c1 p /\
           c1 p < c1 (src_a self) + hy_min).
Proof. intros; now apply tophole_electrode_spec. Qed.

(** With casing_a = 1/2 and hx_min = 1/5 on [ex_mesh], whose z-faces lie at
    x = 1/10, 3/10, 5/10, 7/10, 9/10: the selected faces are those at
    x = 7/10, the only x in (1/2, 7/10], on the layers z = 0 and z = 1. *)
Lemma C6_tophole_electrode_band_witness :
  casing_a ex_top = 1#2 /\
  np_min (hx (mesh ex_top)) = Ok (1#5) /\
  (exists m,
      TopCasingSrc.tophole_electrode ex_top = Ok m /\
      select (gridFz (mesh ex_top)) m
      = [mkpoint (7#10) 0 0; mkpoint (7#10) 0 1] /\
      forall i, nth i m false = true <->
        exists p, nth_error (gridFz (mesh ex_top)) i = Some p /\
          (casing_a ex_top < c0 p /\ c0 p <= casing_a ex_top + (1#5)) /\
          (c2 (src_a ex_top) - (1#2) * 1 <= c2 p /\
           c2 p < c2 (src_a ex_top) + (3#2) * 1) /\
          (not_symmetric (mesh ex_top) = true ->
           c1 (src_a ex_top) - 6 < c1 p /\
           c1 p < c1 (src_a ex_top) + 6)).
Proof.
  split; [reflexivity|]. split; [reflexivity|].
  destruct (@C6_tophole_electrode_band ex_top (1#5) 6 1)
    as (m & Hm & _ & Hi);
    [reflexivity | reflexivity | intros H; discriminate H |].
  exists m. split; [exact Hm|]. split; [|exact Hi].
  vm_compute in Hm. inversion Hm. reflexivity.
Defined.

(** C7: the wire-in-borehole mask of VerticalElectricDipole and of
    DownHoleTerminatingSrc selects exactly the z-faces whose z-coordinate
    lies in [src_a.z - hz_min/2, src_b.z + 3 hz_min/2), whose x-coordinate
    lies strictly within hx_min/2 of the x-coordinate of the z-face nearest
    to src_a and, when the mesh is not symmetric, whose y-coordinate lies
    strictly within hy_min/2 of src_a.y. *)
Theorem C7_wire_in_borehole_band :
  forall (self : Source) (hx_min hy_min hz_min : Q),
    gridFz (mesh self) <> [] ->
    np_min (hx (mesh self)) = Ok hx_min ->
    np_min (hz (mesh self)) = Ok hz_min ->
    (not_symmetric (mesh self) = true ->
     np_min (hy (mesh self)) = Ok hy_min) ->
    exists a m,
      VerticalElectricDipole.src_a_closest self = Ok a /\
      DownHoleTerminatingSrc.src_a_closest self = Ok a /\
      nearest_face (mesh self) (src_a self) a /\
      VerticalElectricDipole.wire_in_borehole self = Ok m /\
      DownHoleTerminatingSrc.wire_in_borehole self = Ok m /\
      length m = length (gridFz (mesh self)) /\
      forall i, nth i m false = true <->
        exists p, nth_error (gridFz (mesh self)) i = Some p /\
          (c2 (src_a self) - (1#2) * hz_min <= c2 p /\
           c2 p < c2 (src_b self) + (3#2) * hz_min) /\
          (c0 a - hx_min / 2 < c0 p /\ c0 p < c0 a + hx_min / 2) /\
          (not_symmetric (mesh self) = true ->
           c1 (src_a self) - hy_min / 2 < c1 p /\
           c1 p < c1 (src_a self) + hy_min / 2).
Proof.
  intros self hx_min hy_min hz_min Hne Hx Hz Hy.
  destruct (wire_in_borehole_spec self Hne Hx Hz Hy)
    as (a & m & Ha & Hn & Hm & Hl & Hi).
  exists a, m.
  rewrite VED_src_a_closest_eq, VED_wire_in_borehole_eq.
  repeat (split; [assumption|]). assumption.
Qed.

(** A source lowered to z = -1 in [ex_mesh]: the nearest z-face to src_a is
    (1/10, 0, -1) and the wire occupies the faces at x = 1/10 on the layers
    z = -1, 0 and 1. *)
Lemma C7_wire_in_borehole_band_witness :
  exists a m,
    DownHoleTerminatingSrc.src_a_closest ex_downhole = Ok a /\
    a = mkpoint (1#10) 0 (-1) /\
    VerticalElectricDipole.wire_in_borehole ex_downhole = Ok m /\
    DownHoleTerminatingSrc.wire_in_borehole ex_downhole = Ok m /\
    select (gridFz (mesh ex_downhole)) m
    = [mkpoint (1#10) 0 (-1); mkpoint (1#10) 0 0; mkpoint (1#10) 0 1] /\
    forall i, nth i m false = true <->
      exists p, nth_error (gridFz (mesh ex_downhole)) i = Some p /\
        (c2 (src_a ex_downhole) - (1#2) * 1 <= c2 p /\
         c2 p < c2 (src_b ex_downhole) + (3#2) * 1) /\
        (c0 a - (1#5) / 2 < c0 p /\ c0 p < c0 a + (1#5) / 2) /\
        (not_symmetric (mesh ex_downhole) = true ->
         c1 (src_a ex_downhole) - 6 / 2 < c1 p /\
         c1 p < c1 (src_a ex_downhole) + 6 / 2).
Proof.
  destruct (@C7_wire_in_borehole_band ex_downhole (1#5) 6 1)
    as (a & m & _ & Ha & _ & Hv & Hm & _ & Hi);
    [discriminate | reflexivity | reflexivity | intros H; discriminate H |].
  exists a, m.
  vm_compute in Ha. inversion Ha as [Ea].
  split; [now rewrite Ea|]. split; [reflexivity|].
  split; [exact Hv|]. split; [exact Hm|].
  split; [|subst a; exact Hi].
  vm_compute in Hm. inversion Hm. reflexivity.
Defined.

(** C10: the surface-wire mask of DownHoleTerminatingSrc, which
    DownHoleCasingSrc inherits, selects exactly the x-faces whose
    z-coordinate lies in (hz_min, 7 hz_min/4], whose x-coordinate lies between
    those of the z-faces nearest to src_a and to src_b and, when the mesh is
    not symmetric, whose y-coordinate lies strictly within hy_min/2 of
    src_b.y.  The z-band is fixed by the mesh alone: neither src_a.z nor
    src_b.z occurs in it. *)
Theorem C10_surface_wire_z_band :
  forall (self : Source) (hy_min hz_min : Q),
    gridFz (mesh self) <> [] ->
    np_min (hz (mesh self)) = Ok hz_min ->
    (not_symmetric (mesh self) = true ->
     np_min (hy (mesh self)) = Ok hy_min) ->
    exists a b m,
      DownHoleTerminatingSrc.src_a_closest self = Ok a /\
      DownHoleTerminatingSrc.src_b_closest self = Ok b /\
      DownHoleTerminatingSrc.surface_wire self = Ok m /\
      length m = length (gridFx (mesh self)) /\
      forall i, nth i m false = true <->
        exists p, nth_error (gridFx (mesh self)) i = Some p /\
          (hz_min < c2 p /\ c2 p <= (7#4) * hz_min) /\
          (Qmin (c0 a) (c0 b) <= c0 p /\ c0 p <= Qmax (c0 a) (c0 b)) /\
          (not_symmetric (mesh self) = true ->
           c1 (src_b self) - hy_min / 2 < c1 p /\
           c1 p < c1 (src_b self) + hy_min / 2).
Proof. intros; now apply DHT_surface_wire_spec. Qed.

(** With the electrodes at z = -1 and z = 0 in [ex_mesh] (hz_min = 1) the
    surface wire lies on the layer z = 3/2, the only one in (1, 7/4]. *)
Lemma C10_surface_wire_z_band_witness :
  exists m,
    DownHoleTerminatingSrc.surface_wire ex_downhole = Ok m /\
    select (gridFx (mesh ex_downhole)) m
    = [mkpoint (1#5) 0 (3#2); mkpoint (2#5) 0 (3#2);
       mkpoint (3#5) 0 (3#2); mkpoint (4#5) 0 (3#2)] /\
    forall i, nth i m false = true ->
      exists p, nth_error (gridFx (mesh ex_downhole)) i = Some p /\
                1 < c2 p /\ c2 p <= (7#4) * 1.
Proof.
  destruct (@C10_surface_wire_z_band ex_downhole 6 1)
    as (a & b & m & _ & _ & Hm & _ & Hi);
    [discriminate | reflexivity | intros H; discriminate H |].
  exists m. split; [exact Hm|]. split.
  - vm_compute in Hm. inversion Hm. reflexivity.
  - intros i H. apply Hi in H. destruct H as (p & Hp & Hz & _).
    exists p. split; [exact Hp | exact Hz].
Defined.

(** ** Support and normalisation of [s_e] *)

Lemma mesh_wf_ex_mesh : mesh_wf ex_mesh.
Proof.
  repeat split; try reflexivity.
  apply Forall_forall. intros a Ha.
  apply in_app_or in Ha. destruct Ha as [Ha | Ha];
    apply repeat_spec in Ha; subst a; discriminate.
Qed.

Lemma grids_ok_ex_mesh : grids_ok ex_mesh.
Proof. repeat split; discriminate. Qed.

(** C2: the vector returned by [s_e] has one entry per face, the x-faces
    first, then the y-faces, then the z-faces.  An entry whose face no
    segment mask selects is zero; an entry whose face some segment mask
    selects is the sign assigned last to that face divided by the area of
    the face. *)
Theorem C2_support_and_normalisation :
  forall (v : SourceVariant) (self : Source) (vec : list Q),
    mesh_wf (mesh self) ->
    s_e v self = Ok vec ->
    length vec
    = (length (gridFx (mesh self)) + vnF1 (mesh self)
       + length (gridFz (mesh self)))%nat /\
    forall i ax j,
      (i < length vec)%nat ->
      locate (mesh self) i = (ax, j) ->
      ((forall s, In s (segments v self) -> selects s ax j = false) ->
       nth i vec 0 == 0) /\
      (forall s, In s (segments v self) -> selects s ax j = true ->
         exists sign,
           last_sign (segments v self) ax j = Some sign /\
           nth i vec 0 = sign / nth i (area (mesh self)) 0).
Proof.
  intros v self vec W H.
  destruct (s_e_entries v self W H) as (L & E).
  destruct W as (Wx & Wz & _).
  split; [rewrite L, Wx, Wz; reflexivity|].
  intros i ax j Hi Hloc. rewrite (E i ax j Hi Hloc). unfold unit_current.
  split.
  - intros Hnone. apply last_sign_None in Hnone. rewrite Hnone.
    unfold Qdiv. apply Qmult_0_l.
  - intros s Hs Hsel.
    destruct (last_sign (segments v self) ax j) as [sign|] eqn:Els.
    + exists sign. split; reflexivity.
    + rewrite last_sign_None in Els. rewrite (Els s Hs) in Hsel.
      discriminate.
Qed.

(** On that source: entry 0 is the x-face (1/5, 0, -3/2) of the downhole
    contact, of area 1/2, and holds 1 / (1/2); entry 2 is the x-face
    (3/5, 0, -3/2), which no segment selects, and holds 0. *)
Lemma C2_support_and_normalisation_witness :
  s_e DHC ex_downhole = Ok ex_vec /\
  length ex_vec = 45%nat /\
  nth 0 ex_vec 0 = 1 / nth 0 (area (mesh ex_downhole)) 0 /\
  nth 2 ex_vec 0 == 0.
Proof.
  split; [reflexivity|].
  destruct (@C2_support_and_normalisation DHC ex_downhole ex_vec
              mesh_wf_ex_mesh eq_refl) as (L & E).
  split; [exact L|]. split.
  - destruct (E 0%nat Fx 0%nat) as (_ & Hin); [vm_compute; lia | reflexivity |].
    destruct (Hin {| seg_axis := Fx; seg_role := "downhole_electrode";
                     seg_mask := DownHoleCasingSrc.downhole_electrode
                                   ex_downhole;
                     seg_sign := 1 |})
      as (sign & Hs & Hv).
    + right; left; reflexivity.
    + reflexivity.
    + vm_compute in Hs. inversion Hs; subst sign. exact Hv.
  - destruct (E 2%nat Fx 2%nat) as (Hout & _); [vm_compute; lia | reflexivity |].
    apply Hout. intros s Hs.
    repeat (destruct Hs as [<- | Hs]; [reflexivity|]). destruct Hs.
Defined.

(** ** Validation and construction *)

(** C3, as the code has it: [s_e] runs no validator.  For a DownHoleCasingSrc
    whose downhole contact selects two faces with different y-coordinates,
    the class validator [_check_wire_more], which runs when the instance is
    validated, fails with the assertion that names the downhole electrode
    and its y-location, while [s_e] returns its vector. *)
Theorem C3_validator_not_run_by_s_e :
  forall (self : Source) (m : mask) (i j : nat) (p q : point),
    mesh_wf (mesh self) ->
    grids_ok (mesh self) ->
    DownHoleCasingSrc.downhole_electrode self = Ok m ->
    nth_error (gridFx (mesh self)) i = Some p -> nth i m false = true ->
    nth_error (gridFx (mesh self)) j = Some q -> nth j m false = true ->
    ~ c1 p == c1 q ->
    DownHoleCasingSrc._check_wire_more self
    = Raise (AssertionError
               "the downhole electrode has more than one y-location") /\
    exists vec, DownHoleCasingSrc.s_e self = Ok vec.
Proof.
  intros self m i j p q W G Hm Hp Hi Hq Hj Hpq. split.
  - unfold DownHoleCasingSrc._check_wire_more. rewrite Hm. cbn [bind].
    rewrite (@two_values_not_unique _ (c1 p) (c1 q)); [reflexivity | | | assumption].
    + unfold col1. apply in_map. eapply In_select; eassumption.
    + unfold col1. apply in_map. eapply In_select; eassumption.
  - exact (s_e_total DHC self W G).
Qed.

Lemma mesh_wf_smeared_mesh : mesh_wf smeared_mesh.
Proof.
  repeat split; try reflexivity.
  apply Forall_forall. intros a Ha.
  apply in_app_or in Ha. destruct Ha as [Ha | Ha];
    apply repeat_spec in Ha; subst a; discriminate.
Qed.

Lemma grids_ok_smeared_mesh : grids_ok smeared_mesh.
Proof. repeat split; discriminate. Qed.

(** C3, as stated, fails.  With casing_a = 1 the downhole contact of
    [smeared_source] selects the x-faces (1/5, 0, -3/2) and (2/5, 1, -3/2), on
    two y-coordinates, and [s_e] returns a vector instead of raising. *)
Lemma C3_counterexample :
  (exists m,
     DownHoleCasingSrc.downhole_electrode smeared_source = Ok m /\
     nth_error (gridFx (mesh smeared_source)) 0
     = Some (mkpoint (1#5) 0 (-(3#2))) /\
     nth 0 m false = true /\
     nth_error (gridFx (mesh smeared_source)) 1
     = Some (mkpoint (2#5) 1 (-(3#2))) /\
     nth 1 m false = true) /\
  DownHoleCasingSrc.s_e smeared_source = Ok smeared_vec /\
  forall e, DownHoleCasingSrc.s_e smeared_source <> Raise e.
Proof.
  split.
  - eexists. split; [vm_compute; reflexivity|].
    repeat split.
  - split; [reflexivity | intros e H; discriminate H].
Qed.

Lemma C3_validator_not_run_by_s_e_witness :
  DownHoleCasingSrc._check_wire_more smeared_source
  = Raise (AssertionError
             "the downhole electrode has more than one y-location") /\
  exists vec, DownHoleCasingSrc.s_e smeared_source = Ok vec.
Proof.
  apply (@C3_validator_not_run_by_s_e smeared_source
           (true :: true :: true :: true :: true :: repeat false 15)
           0%nat 1%nat (mkpoint (1#5) 0 (-(3#2))) (mkpoint (2#5) 1 (-(3#2)))
           mesh_wf_smeared_mesh grids_ok_smeared_mesh);
    try reflexivity.
  vm_compute. discriminate.
Defined.

(** C4, on the code: the constructor of VerticalElectricDipole raises
    NameError on every input, because its assertion reads the name [cp],
    which is bound neither in [__init__] nor at the top level of the module.
    In particular it returns no instance for endpoints on one vertical line,
    and the failure for endpoints that differ horizontally is not the
    orientation assertion. *)
Theorem C4_VerticalElectricDipole_init_raises_NameError :
  forall kwargs : Source,
    VerticalElectricDipole.__init__ kwargs = Raise (NameError "cp").
Proof. intros kwargs. reflexivity. Qed.

(** The same at the two inputs of the claim: endpoints on one vertical line,
    and the endpoints (0,0,0), (5,5,0). *)
Lemma C4_failing_inputs :
  VerticalElectricDipole.__init__ ex_vertical = Raise (NameError "cp") /\
  VerticalElectricDipole.__init__
    (ex_source (mkpoint 0 0 0) (mkpoint 5 5 0) (1#2))
  = Raise (NameError "cp") /\
  BaseCasingSrc.__init__ ex_vertical = Ok ex_vertical.
Proof. repeat split. Qed.

(** ** The cache returns the values of the first layer *)

Section Rules.
Variable v : SourceVariant.
Variable F : Memo.State.

Lemma coherent_fresh (kw : Source) :
  (not_symmetric (mesh kw) = true -> hy (mesh kw) <> []) ->
  coherent v (Memo.fresh kw).
Proof.
  intros Hy. unfold coherent; simpl. split_ands; try discriminate; auto.
Qed.

Lemma good_refl (st : Memo.State) : coherent v st -> good v st st.
Proof. intros H. unfold good. split_ands; auto. Qed.

(** A step [x <~ m ;; k x] against [bind (f kw) g]; [Q] is any outcome
    relation that accepts an exception raised in a good state. *)
Lemma bind_rule {A B C} (Q : result B * Memo.State -> result C -> Prop)
    (m : Memo.M A) (f : Source -> result A) (k : A -> Memo.M B)
    (g : A -> result C) (st : Memo.State) :
  returns v m f ->
  good v F st ->
  (forall e st', good v F st' -> Q (Raise e, st') (Raise e)) ->
  (forall a st', good v F st' -> Q (k a st') (g a)) ->
  Q (Memo.mbind m k st) (bind (f (Memo.kwargs F)) g).
Proof.
  intros Hm G HR HK. unfold Memo.mbind.
  destruct (Hm F st G) as (Hr & G').
  destruct (m st) as [r st']. simpl in Hr, G'. rewrite <- Hr.
  destruct r as [a|e]; simpl; auto.
Qed.

Lemma lift_rule {A B C} (Q : result B * Memo.State -> result C -> Prop)
    (r : result A) (k : A -> Memo.M B) (g : A -> result C)
    (st : Memo.State) :
  good v F st ->
  (forall e st', good v F st' -> Q (Raise e, st') (Raise e)) ->
  (forall a, Q (k a st) (g a)) ->
  Q (Memo.mbind (Memo.lift r) k st) (bind r g).
Proof.
  intros G HR HK. unfold Memo.mbind, Memo.lift.
  destruct r as [a|e]; simpl; auto.
Qed.

Lemma self_rule {B C} (Q : result B * Memo.State -> result C -> Prop)
    (k : Source -> Memo.M B) (E : result C) (st : Memo.State) :
  good v F st ->
  Q (k (Memo.kwargs F) st) E ->
  Q (Memo.mbind Memo.self k st) E.
Proof.
  intros (_ & Hk & _) H. unfold Memo.mbind, Memo.self. now rewrite Hk.
Qed.

Lemma post_ret {A} (a : A) (st : Memo.State) :
  good v F st -> post v F (Memo.ret a st) (Ok a).
Proof. intros G. split; [reflexivity | exact G]. Qed.

Lemma post_raise {A} (e : exn) (st : Memo.State) :
  good v F st -> post (A := A) v F (Raise e, st) (Raise e).
Proof. intros G. split; [reflexivity | exact G]. Qed.

Lemma store_post_raise (a : Memo.mask_attr) (e : exn) (st : Memo.State) :
  good v F st -> store_post v F a (Raise e, st) (Raise e).
Proof. intros G _. split; [reflexivity | exact G]. Qed.
End Rules.

Lemma point_attr_eqb_eq (a b : Memo.point_attr) :
  Memo.point_attr_eqb a b = true -> a = b.
Proof. destruct a, b; simpl; congruence. Qed.

Lemma mask_attr_eqb_eq (a b : Memo.mask_attr) :
  Memo.mask_attr_eqb a b = true -> a = b.
Proof. destruct a, b; simpl; congruence. Qed.

Lemma mask_attr_eqb_refl (a : Memo.mask_attr) : Memo.mask_attr_eqb a a = true.
Proof. destruct a; reflexivity. Qed.

Lemma good_set_point (v : SourceVariant) (F st : Memo.State)
    (a : Memo.point_attr) (p : point) :
  good v F st -> point_value a (Memo.kwargs F) = Ok p ->
  good v F (Memo.set_point a p st).
Proof.
  intros ((Hp & Hm & Hs & Hl & Hy) & Hk & Ha & He & Hsl) Hv.
  unfold good, coherent; simpl. split_ands; auto.
  intros b q. destruct (Memo.point_attr_eqb a b) eqn:E; [|apply Hp].
  intros H; inversion H; subst q.
  apply point_attr_eqb_eq in E. subst b. now rewrite Hk.
Qed.

(** Storing the final mask, over the mask stored before it or not. *)
Lemma good_set_mask (v : SourceVariant) (F st : Memo.State)
    (a : Memo.mask_attr) (m : mask) :
  good v F st -> mask_value v a (Memo.kwargs F) = Ok m ->
  good v F (Memo.set_mask a m st).
Proof.
  intros ((Hp & Hm & Hs & Hl & Hy) & Hk & Ha & He & Hsl) Hv.
  unfold good, coherent; simpl. split_ands; auto.
  intros b q. destruct (Memo.mask_attr_eqb a b) eqn:E; [|apply Hm].
  intros H; inversion H; subst q.
  apply mask_attr_eqb_eq in E. subst b. now rewrite Hk.
Qed.

Lemma good_set_mask_twice (v : SourceVariant) (F st : Memo.State)
    (a : Memo.mask_attr) (m0 m : mask) :
  good v F st -> mask_value v a (Memo.kwargs F) = Ok m ->
  good v F (Memo.set_mask a m (Memo.set_mask a m0 st)).
Proof.
  intros ((Hp & Hm & Hs & Hl & Hy) & Hk & Ha & He & Hsl) Hv.
  unfold good, coherent; simpl. split_ands; auto.
  intros b q. destruct (Memo.mask_attr_eqb a b) eqn:E; [|apply Hm].
  intros H; inversion H; subst q.
  apply mask_attr_eqb_eq in E. subst b. now rewrite Hk.
Qed.

Lemma returns_cached_point (v : SourceVariant) (a : Memo.point_attr)
    (name : string) (body : Memo.M point) :
  returns v body (point_value a) ->
  returns v (Memo.cached_point a name body) (point_value a).
Proof.
  intros Hb F st G.
  unfold Memo.cached_point, Memo.lazy_attr, Memo.mbind, Memo.getattr_or_None,
    Memo.getattr, Memo.modify, Memo.ret.
  destruct (Memo.points st a) as [p|] eqn:Ec.
  - rewrite Ec. split; [|exact G]. simpl.
    destruct G as ((Hp & _) & Hk & _). rewrite <- Hk. symmetry. now apply Hp.
  - destruct (Hb F st G) as (Hr & G').
    destruct (body st) as [[p|e] st']; simpl in Hr, G'.
    + simpl. destruct a; simpl; (split; [exact Hr|]);
        apply good_set_point; auto.
    + split; [exact Hr | exact G'].
Qed.

Lemma returns_lazy_mask (v : SourceVariant) (a : Memo.mask_attr)
    (name : string) (body : Memo.M unit) :
  (forall F st, good v F st ->
                store_post v F a (body st) (mask_value v a (Memo.kwargs F))) ->
  returns v (Memo.lazy_mask a name body) (mask_value v a).
Proof.
  intros Hb F st G.
  unfold Memo.lazy_mask, Memo.mbind, Memo.getattr_or_None, Memo.getattr,
    Memo.ret.
  destruct (Memo.masks st a) as [p|] eqn:Ec.
  - rewrite Ec. split; [|exact G]. simpl.
    destruct G as ((_ & Hm & _) & Hk & _). rewrite <- Hk. symmetry.
    now apply Hm.
  - pose proof (Hb F st G eq_refl) as H.
    destruct (body st) as [[u|e] st']; simpl in H.
    + destruct H as (m & Hv & Hm & G'). rewrite Hm.
      split; [simpl; congruence | exact G'].
    + destruct H as (Hv & G'). split; [simpl; congruence | exact G'].
Qed.

(** The end of every mask body: the mask of the x- and z-tests is stored,
    and on a mesh that is not symmetric it is stored again, conjoined with
    the y-test. *)
Lemma store_tail (v : SourceVariant) (F st : Memo.State)
    (a : Memo.mask_attr) (name : string) (xz : mask) (yb : Q -> Q -> mask) :
  good v F st ->
  store_post v F a
    (Memo.mbind (Memo.setattr_mask a xz)
       (fun _ =>
          if not_symmetric (mesh (Memo.kwargs F)) then
            Memo.mbind (Memo.lift (np_min (hy (mesh (Memo.kwargs F)))))
              (fun hy1 =>
                 Memo.mbind (Memo.lift (np_min (hy (mesh (Memo.kwargs F)))))
                   (fun hy2 =>
                      Memo.mbind (Memo.getattr_mask a name)
                        (fun cur =>
                           Memo.setattr_mask a (np_and cur (yb hy1 hy2)))))
          else Memo.ret tt) st)
    (if not_symmetric (mesh (Memo.kwargs F)) then
       bind (np_min (hy (mesh (Memo.kwargs F))))
         (fun hy1 =>
            bind (np_min (hy (mesh (Memo.kwargs F))))
              (fun hy2 => Ok (np_and xz (yb hy1 hy2))))
     else Ok xz).
Proof.
  intros G Hval.
  unfold Memo.mbind, Memo.setattr_mask, Memo.getattr_mask, Memo.getattr,
    Memo.modify, Memo.lift, Memo.ret.
  destruct (not_symmetric (mesh (Memo.kwargs F))) eqn:Hs.
  - assert (Hy : exists h, np_min (hy (mesh (Memo.kwargs F))) = Ok h).
    { apply np_min_total.
      destruct G as ((_ & _ & _ & _ & Hy) & Hk & _).
      rewrite <- Hk. apply Hy. now rewrite Hk. }
    destruct Hy as (h & Hh). rewrite Hh in Hval |- *. simpl in Hval |- *.
    rewrite mask_attr_eqb_refl. simpl.
    exists (np_and xz (yb h h)). split; [reflexivity|]. split.
    + now rewrite mask_attr_eqb_refl.
    + now apply good_set_mask_twice.
  - simpl. exists xz. split; [reflexivity|]. split.
    + now rewrite mask_attr_eqb_refl.
    + now apply good_set_mask.
Qed.

Lemma bind_assoc {A B C} (r : result A) (g : A -> result B)
    (K : B -> result C) :
  bind (bind r g) K = bind r (fun a => bind (g a) K).
Proof. destruct r; reflexivity. Qed.

Create HintDb memo.

(** One statement of a property body against the body of the first layer. *)
Ltac memo_step v F :=
  lazymatch goal with
  | |- post _ _ (Memo.mbind Memo.self _ _) _ =>
      apply (@self_rule v F _ _ (post v F)); [assumption | cbv beta zeta]
  | |- post _ _ (Memo.mbind (Memo.lift _) _ _) (bind _ _) =>
      apply (@lift_rule v F _ _ _ (post v F));
      [ assumption
      | intros; apply post_raise; assumption
      | intros ?; cbv beta ]
  | |- post _ _ (Memo.lift _ _) _ =>
      split; [reflexivity | assumption]
  end.

Ltac memo_body v :=
  let F := fresh "F" in
  let st := fresh "st" in
  let G := fresh "G" in
  intros F st G; cbv zeta; repeat memo_step v F.

(** One statement of a mask body. *)
Ltac store_step v F a :=
  lazymatch goal with
  | |- store_post _ _ _ (Memo.mbind Memo.self _ _) _ =>
      apply (@self_rule v F _ _ (store_post v F a));
      [assumption | cbv beta zeta]
  | |- store_post _ _ _ (Memo.mbind (Memo.lift _) _ _) (bind _ _) =>
      apply (@lift_rule v F _ _ _ (store_post v F a));
      [ assumption
      | intros; apply store_post_raise; assumption
      | intros ?; cbv beta ]
  | |- store_post _ _ _ (Memo.mbind (Memo.setattr_mask _ _) _ _) _ =>
      apply store_tail; assumption
  | |- store_post _ _ _ (Memo.mbind _ _ _) (bind _ _) =>
      eapply (@bind_rule v F _ _ _ (store_post v F a));
      [ solve [eauto with memo]
      | assumption
      | intros; apply store_post_raise; assumption
      | intros ? ? ?; cbv beta ]
  end.

Ltac mask_body v a unfold_body :=
  let F := fresh "F" in
  let st := fresh "st" in
  let G := fresh "G" in
  apply (@returns_lazy_mask v a);
  intros F st G; unfold mask_value; unfold_body; cbv zeta;
  repeat store_step v F a.

Lemma returns_src_a_closest (v : SourceVariant) :
  returns v Memo.DownHoleTerminatingSrc.src_a_closest
          DownHoleTerminatingSrc.src_a_closest.
Proof.
  apply (@returns_cached_point v Memo._src_a_closest). memo_body v.
Qed.

Lemma returns_src_b_closest (v : SourceVariant) :
  returns v Memo.DownHoleTerminatingSrc.src_b_closest
          DownHoleTerminatingSrc.src_b_closest.
Proof.
  apply (@returns_cached_point v Memo._src_b_closest). memo_body v.
Qed.

Lemma returns_VED_src_a_closest (v : SourceVariant) :
  returns v Memo.VerticalElectricDipole.src_a_closest
          DownHoleTerminatingSrc.src_a_closest.
Proof.
  apply (@returns_cached_point v Memo._src_a_closest). memo_body v.
Qed.

#[export] Hint Resolve returns_src_a_closest returns_src_b_closest
  returns_VED_src_a_closest : memo.

Lemma returns_wire_in_borehole (v : SourceVariant) :
  returns v Memo.DownHoleTerminatingSrc.wire_in_borehole
          DownHoleTerminatingSrc.wire_in_borehole.
Proof.
  unfold Memo.DownHoleTerminatingSrc.wire_in_borehole.
  change DownHoleTerminatingSrc.wire_in_borehole
    with (mask_value v Memo._wire_in_borehole).
  mask_body v Memo._wire_in_borehole ltac:(unfold DownHoleTerminatingSrc.wire_in_borehole).
Qed.

Lemma returns_VED_wire_in_borehole (v : SourceVariant) :
  returns v Memo.VerticalElectricDipole.wire_in_borehole
          DownHoleTerminatingSrc.wire_in_borehole.
Proof.
  unfold Memo.VerticalElectricDipole.wire_in_borehole.
  change DownHoleTerminatingSrc.wire_in_borehole
    with (mask_value v Memo._wire_in_borehole).
  mask_body v Memo._wire_in_borehole ltac:(unfold DownHoleTerminatingSrc.wire_in_borehole).
Qed.

Lemma returns_surface_electrode (v : SourceVariant) :
  returns v Memo.DownHoleTerminatingSrc.surface_electrode
          DownHoleTerminatingSrc.surface_electrode.
Proof.
  unfold Memo.DownHoleTerminatingSrc.surface_electrode.
  change DownHoleTerminatingSrc.surface_electrode
    with (mask_value v Memo._surface_electrode).
  mask_body v Memo._surface_electrode ltac:(unfold DownHoleTerminatingSrc.surface_electrode).
Qed.

Lemma returns_downhole_electrode (v : SourceVariant) :
  returns v Memo.DownHoleCasingSrc.downhole_electrode
          DownHoleCasingSrc.downhole_electrode.
Proof.
  unfold Memo.DownHoleCasingSrc.downhole_electrode.
  change DownHoleCasingSrc.downhole_electrode
    with (mask_value v Memo._downhole_electrode).
  mask_body v Memo._downhole_electrode ltac:(unfold DownHoleCasingSrc.downhole_electrode).
Qed.

Lemma returns_tophole_electrode (v : SourceVariant) :
  returns v Memo.TopCasingSrc.tophole_electrode
          TopCasingSrc.tophole_electrode.
Proof.
  unfold Memo.TopCasingSrc.tophole_electrode.
  change TopCasingSrc.tophole_electrode
    with (mask_value v Memo._tophole_electrode).
  mask_body v Memo._tophole_electrode ltac:(unfold TopCasingSrc.tophole_electrode).
Qed.

Lemma returns_HED_surface_wire :
  returns HED Memo.HorizontalElectricDipole.surface_wire
          HorizontalElectricDipole.surface_wire.
Proof.
  unfold Memo.HorizontalElectricDipole.surface_wire.
  change HorizontalElectricDipole.surface_wire
    with (mask_value HED Memo._surface_wire).
  mask_body HED Memo._surface_wire ltac:(unfold HorizontalElectricDipole.surface_wire).
Qed.

Lemma returns_DHT_surface_wire (v : SourceVariant) :
  v = DHT \/ v = DHC ->
  returns v Memo.DownHoleTerminatingSrc.surface_wire
          DownHoleTerminatingSrc.surface_wire.
Proof.
  unfold Memo.DownHoleTerminatingSrc.surface_wire.
  intros [-> | ->].
  - change DownHoleTerminatingSrc.surface_wire
      with (mask_value DHT Memo._surface_wire).
    mask_body DHT Memo._surface_wire
      ltac:(unfold DownHoleTerminatingSrc.surface_wire).
  - change DownHoleTerminatingSrc.surface_wire
      with (mask_value DHC Memo._surface_wire).
    mask_body DHC Memo._surface_wire
      ltac:(unfold DownHoleTerminatingSrc.surface_wire).
Qed.

Lemma returns_TCS_surface_wire :
  returns TCS Memo.TopCasingSrc.surface_wire TopCasingSrc.surface_wire.
Proof.
  unfold Memo.TopCasingSrc.surface_wire.
  change TopCasingSrc.surface_wire
    with (mask_value TCS Memo._surface_wire).
  mask_body TCS Memo._surface_wire ltac:(unfold TopCasingSrc.surface_wire).
Qed.

#[export] Hint Resolve returns_wire_in_borehole returns_VED_wire_in_borehole
  returns_surface_electrode returns_downhole_electrode
  returns_tophole_electrode returns_HED_surface_wire
  returns_DHT_surface_wire returns_TCS_surface_wire : memo.

(** ** The array returned by [s_e] *)

Lemma alloc_post_raise (v : SourceVariant) (F st : Memo.State) (e : exn) :
  good v F st -> alloc_post v F (Raise e, st) (Raise e).
Proof. intros G. split; [reflexivity | exact G]. Qed.

Lemma normalise_post (v : SourceVariant) (F st : Memo.State)
    (s_x s_y s_z : list Q) :
  good v F st ->
  alloc_post v F (Memo.normalise s_x s_y s_z st)
             (np_divide (s_x ++ s_y ++ s_z)
                        (area (mesh (Memo.kwargs F)))).
Proof.
  intros G.
  pose proof G as ((Hp & Hm & Hs & Hl & Hy) & Hk & Ha & He & Hsl).
  unfold Memo.normalise, Memo.mbind, Memo.self, Memo.lift, Memo.alloc.
  rewrite Hk.
  destruct (np_divide (s_x ++ s_y ++ s_z) (area (mesh (Memo.kwargs F))))
    as [vec|e]; unfold alloc_post; simpl.
  - exists vec. rewrite Ha. split_ands; auto.
    unfold coherent; simpl. split_ands; auto.
    intros r Hr. destruct (Hs r Hr) as (old & Hold & Hv).
    exists old. split; [|exact Hv].
    rewrite nth_error_app1; [exact Hold|].
    apply nth_error_Some. congruence.
  - split; [reflexivity | exact G].
Qed.

Ltac alloc_step v F :=
  rewrite ?bind_assoc;
  lazymatch goal with
  | |- alloc_post _ _ (Memo.mbind Memo.self _ _) _ =>
      apply (@self_rule v F _ _ (alloc_post v F));
      [assumption | cbv beta zeta]
  | |- alloc_post _ _ (Memo.mbind (Memo.lift _) _ _) (bind _ _) =>
      apply (@lift_rule v F _ _ _ (alloc_post v F));
      [ assumption
      | intros; apply alloc_post_raise; assumption
      | intros ?; cbv beta ]
  | |- alloc_post _ _ (Memo.mbind _ _ _) (bind _ _) =>
      eapply (@bind_rule v F _ _ _ (alloc_post v F));
      [ solve [eauto with memo]
      | assumption
      | intros; apply alloc_post_raise; assumption
      | intros ? ? ?; cbv beta ]
  | |- alloc_post _ _ (Memo.normalise _ _ _ _) _ =>
      cbn [bind]; cbv beta iota zeta; apply normalise_post; assumption
  end.

Lemma s_e_body_HED (F st : Memo.State) :
  good HED F st ->
  alloc_post HED F (Memo.HorizontalElectricDipole.s_e_body st)
             (s_e HED (Memo.kwargs F)).
Proof.
  intros G.
  unfold Memo.HorizontalElectricDipole.s_e_body, s_e,
    HorizontalElectricDipole.s_e, HorizontalElectricDipole.s_xyz.
  cbv zeta. repeat alloc_step HED F.
Qed.

Lemma s_e_body_VED (F st : Memo.State) :
  good VED F st ->
  alloc_post VED F (Memo.VerticalElectricDipole.s_e_body st)
             (s_e VED (Memo.kwargs F)).
Proof.
  intros G.
  unfold Memo.VerticalElectricDipole.s_e_body, s_e,
    VerticalElectricDipole.s_e, VerticalElectricDipole.s_xyz.
  rewrite VED_wire_in_borehole_eq.
  cbv zeta. repeat alloc_step VED F.
Qed.

Lemma s_e_body_DHT (F st : Memo.State) :
  good DHT F st ->
  alloc_post DHT F (Memo.DownHoleTerminatingSrc.s_e_body st)
             (s_e DHT (Memo.kwargs F)).
Proof.
  intros G.
  unfold Memo.DownHoleTerminatingSrc.s_e_body, s_e,
    DownHoleTerminatingSrc.s_e, DownHoleTerminatingSrc.s_xyz.
  cbv zeta. repeat alloc_step DHT F.
Qed.

Lemma s_e_body_DHC (F st : Memo.State) :
  good DHC F st ->
  alloc_post DHC F (Memo.DownHoleCasingSrc.s_e_body st)
             (s_e DHC (Memo.kwargs F)).
Proof.
  intros G.
  unfold Memo.DownHoleCasingSrc.s_e_body, s_e,
    DownHoleCasingSrc.s_e, DownHoleCasingSrc.s_xyz.
  cbv zeta. repeat alloc_step DHC F.
Qed.

Lemma s_e_body_TCS (F st : Memo.State) :
  good TCS F st ->
  alloc_post TCS F (Memo.TopCasingSrc.s_e_body st)
             (s_e TCS (Memo.kwargs F)).
Proof.
  intros G.
  unfold Memo.TopCasingSrc.s_e_body, s_e,
    TopCasingSrc.s_e, TopCasingSrc.s_xyz.
  cbv zeta. repeat alloc_step TCS F.
Qed.

Lemma s_e_body_spec (v : SourceVariant) (F st : Memo.State) :
  good v F st ->
  alloc_post v F
    (match v with
     | HED => Memo.HorizontalElectricDipole.s_e_body
     | VED => Memo.VerticalElectricDipole.s_e_body
     | DHT => Memo.DownHoleTerminatingSrc.s_e_body
     | DHC => Memo.DownHoleCasingSrc.s_e_body
     | TCS => Memo.TopCasingSrc.s_e_body
     end st)
    (s_e v (Memo.kwargs F)).
Proof.
  destruct v; [ apply s_e_body_HED | apply s_e_body_VED | apply s_e_body_DHT
              | apply s_e_body_DHC | apply s_e_body_TCS ].
Qed.

Lemma coherent_set_s_e (v : SourceVariant) (F st : Memo.State)
    (vec : list Q) :
  coherent v st ->
  Memo.kwargs st = Memo.kwargs F ->
  Memo.arrays st = Memo.arrays F ++ [vec] ->
  s_e v (Memo.kwargs F) = Ok vec ->
  coherent v (Memo.set_s_e (length (Memo.arrays F)) st).
Proof.
  intros (Hp & Hm & Hs & Hl & Hy) Hk Ha Hv.
  unfold coherent; simpl. split_ands; auto; try discriminate.
  intros r Hr. inversion Hr; subst r. exists vec.
  rewrite Ha, Hk, nth_error_app2, Nat.sub_diag by lia. auto.
Qed.

(** What a guarded [s_e] does when its guard attribute is unset: it runs the
    body, stores the new reference in [_s_e] and returns it. *)
Lemma lazy_s_e_compute (v : SourceVariant) (G : Type)
    (guard : Memo.State -> option G) (body : Memo.M Memo.ref)
    (st : Memo.State) :
  (forall F st, good v F st -> alloc_post v F (body st) (s_e v (Memo.kwargs F))) ->
  coherent v st ->
  guard st = None ->
  let out := Memo.lazy_attr guard Memo._s_e "_s_e" Memo.set_s_e body st in
  match fst out with
  | Ok r =>
      exists vec,
        s_e v (Memo.kwargs st) = Ok vec /\
        r = length (Memo.arrays st) /\
        Memo.arrays (snd out) = Memo.arrays st ++ [vec] /\
        Memo._s_e (snd out) = Some r /\
        Memo._srcList (snd out) = Memo._srcList st /\
        coherent v (snd out) /\
        Memo.kwargs (snd out) = Memo.kwargs st
  | Raise e =>
      s_e v (Memo.kwargs st) = Raise e /\ coherent v (snd out) /\
      Memo.kwargs (snd out) = Memo.kwargs st /\
      Memo.arrays (snd out) = Memo.arrays st
  end.
Proof.
  intros Hbody Hc Hg.
  unfold Memo.lazy_attr, Memo.mbind, Memo.getattr_or_None, Memo.getattr,
    Memo.modify, Memo.ret.
  rewrite Hg.
  pose proof (Hbody st st (good_refl Hc)) as Hb. unfold alloc_post in Hb.
  destruct (body st) as [[r|e] st']; simpl in Hb |- *.
  - destruct Hb as (vec & Hv & Hr & Ha & Hc' & Hk & He & Hsl).
    exists vec. subst r. split_ands; auto.
    eapply coherent_set_s_e; eauto.
  - destruct Hb as (Hv & Hc' & Hk & Ha & _). auto.
Qed.

(** What it does when the guard attribute is set: it reads [_s_e]. *)
Lemma lazy_s_e_cached (G : Type) (guard : Memo.State -> option G)
    (body : Memo.M Memo.ref) (st : Memo.State) (g : G) (r : Memo.ref) :
  guard st = Some g ->
  Memo._s_e st = Some r ->
  Memo.lazy_attr guard Memo._s_e "_s_e" Memo.set_s_e body st = (Ok r, st).
Proof.
  intros Hg Hr.
  unfold Memo.lazy_attr, Memo.mbind, Memo.getattr_or_None, Memo.getattr,
    Memo.modify, Memo.ret.
  now rewrite Hg, Hr.
Qed.

Lemma Memo_s_e_unfold (v : SourceVariant) :
  Memo.s_e v =
  match v with
  | HED => Memo.lazy_attr Memo._s_e Memo._s_e "_s_e" Memo.set_s_e
             Memo.HorizontalElectricDipole.s_e_body
  | VED => Memo.lazy_attr Memo._s_e Memo._s_e "_s_e" Memo.set_s_e
             Memo.VerticalElectricDipole.s_e_body
  | DHT => Memo.lazy_attr Memo._srcList Memo._s_e "_s_e" Memo.set_s_e
             Memo.DownHoleTerminatingSrc.s_e_body
  | DHC => Memo.lazy_attr Memo._srcList Memo._s_e "_s_e" Memo.set_s_e
             Memo.DownHoleCasingSrc.s_e_body
  | TCS => Memo.lazy_attr Memo._srcList Memo._s_e "_s_e" Memo.set_s_e
             Memo.TopCasingSrc.s_e_body
  end.
Proof. destruct v; reflexivity. Qed.

(** [Memo.s_e] returns a reference to the vector of the first layer, or
    raises what the first layer raises; it keeps the instance coherent and
    the arrays already allocated. *)
Lemma Memo_s_e_sound (v : SourceVariant) (st : Memo.State) :
  coherent v st ->
  let out := Memo.s_e v st in
  coherent v (snd out) /\
  Memo.kwargs (snd out) = Memo.kwargs st /\
  (forall r0 vec0, nth_error (Memo.arrays st) r0 = Some vec0 ->
                   nth_error (Memo.arrays (snd out)) r0 = Some vec0) /\
  match fst out with
  | Ok r => exists vec, s_e v (Memo.kwargs st) = Ok vec /\
                        nth_error (Memo.arrays (snd out)) r = Some vec
  | Raise e => s_e v (Memo.kwargs st) = Raise e
  end.
Proof.
  intros Hc.
  assert (Cached : forall (G : Type) (guard : Memo.State -> option G) body g,
             guard st = Some g -> Memo._s_e st <> None ->
             let out := Memo.lazy_attr guard Memo._s_e "_s_e" Memo.set_s_e
                                       body st in
             coherent v (snd out) /\
             Memo.kwargs (snd out) = Memo.kwargs st /\
             (forall r0 vec0, nth_error (Memo.arrays st) r0 = Some vec0 ->
                  nth_error (Memo.arrays (snd out)) r0 = Some vec0) /\
             match fst out with
             | Ok r => exists vec, s_e v (Memo.kwargs st) = Ok vec /\
                                   nth_error (Memo.arrays (snd out)) r = Some vec
             | Raise e => s_e v (Memo.kwargs st) = Raise e
             end).
  { intros G guard body g Hg Hne.
    destruct (Memo._s_e st) as [r|] eqn:Er; [|congruence].
    rewrite (lazy_s_e_cached guard body st Hg Er). simpl.
    split_ands; auto.
    destruct Hc as (_ & _ & Hs & _). destruct (Hs r Er) as (vec & H1 & H2).
    exists vec; auto. }
  assert (Compute : forall (G : Type) (guard : Memo.State -> option G) body,
             (forall F st, good v F st ->
                           alloc_post v F (body st) (s_e v (Memo.kwargs F))) ->
             guard st = None ->
             let out := Memo.lazy_attr guard Memo._s_e "_s_e" Memo.set_s_e
                                       body st in
             coherent v (snd out) /\
             Memo.kwargs (snd out) = Memo.kwargs st /\
             (forall r0 vec0, nth_error (Memo.arrays st) r0 = Some vec0 ->
                  nth_error (Memo.arrays (snd out)) r0 = Some vec0) /\
             match fst out with
             | Ok r => exists vec, s_e v (Memo.kwargs st) = Ok vec /\
                                   nth_error (Memo.arrays (snd out)) r = Some vec
             | Raise e => s_e v (Memo.kwargs st) = Raise e
             end).
  { intros G guard body Hbody Hg.
    pose proof (@lazy_s_e_compute v G guard body st Hbody Hc Hg) as H.
    cbv zeta in H |- *.
    destruct (Memo.lazy_attr guard Memo._s_e "_s_e" Memo.set_s_e body st)
      as [[r|e] st']; simpl in H |- *.
    - destruct H as (vec & Hv & Hr & Ha & He & Hsl & Hc' & Hk).
      split_ands; auto.
      + intros r0 vec0 H0. rewrite Ha, nth_error_app1; auto.
        apply nth_error_Some. congruence.
      + exists vec. split; auto. subst r.
        rewrite Ha, nth_error_app2, Nat.sub_diag by lia. reflexivity.
    - destruct H as (Hv & Hc' & Hk & Ha). split_ands; auto.
      intros r0 vec0 H0. now rewrite Ha. }
  rewrite Memo_s_e_unfold.
  destruct v.
  - destruct (Memo._s_e st) as [r|] eqn:E.
    + apply Cached with (g := r); congruence.
    + apply Compute; auto. intros; now apply s_e_body_HED.
  - destruct (Memo._s_e st) as [r|] eqn:E.
    + apply Cached with (g := r); congruence.
    + apply Compute; auto. intros; now apply s_e_body_VED.
  - destruct (Memo._srcList st) as [l|] eqn:E.
    + apply Cached with (g := l); auto.
      destruct Hc as (_ & _ & _ & Hl). apply Hl. congruence.
    + apply Compute; auto. intros; now apply s_e_body_DHT.
  - destruct (Memo._srcList st) as [l|] eqn:E.
    + apply Cached with (g := l); auto.
      destruct Hc as (_ & _ & _ & Hl). apply Hl. congruence.
    + apply Compute; auto. intros; now apply s_e_body_DHC.
  - destruct (Memo._srcList st) as [l|] eqn:E.
    + apply Cached with (g := l); auto.
      destruct Hc as (_ & _ & _ & Hl). apply Hl. congruence.
    + apply Compute; auto. intros; now apply s_e_body_TCS.
Qed.

(** ** Calling [s_e] twice *)

(** For every class the two calls return references to equal vectors, the
    vector of the first layer. *)
Lemma s_e_twice_equal_contents (v : SourceVariant) (st st1 : Memo.State)
    (r1 : Memo.ref) :
  coherent v st ->
  Memo.s_e v st = (Ok r1, st1) ->
  exists r2 st2 vec,
    Memo.s_e v st1 = (Ok r2, st2) /\
    s_e v (Memo.kwargs st) = Ok vec /\
    nth_error (Memo.arrays st2) r1 = Some vec /\
    nth_error (Memo.arrays st2) r2 = Some vec.
Proof.
  intros Hc E1.
  pose proof (Memo_s_e_sound Hc) as H1. cbv zeta in H1.
  rewrite E1 in H1. simpl in H1.
  destruct H1 as (Hc1 & Hk1 & _ & vec & Hv & Hr1).
  pose proof (Memo_s_e_sound Hc1) as H2. cbv zeta in H2.
  destruct (Memo.s_e v st1) as [[r2|e] st2]; simpl in H2.
  - destruct H2 as (_ & _ & Hkeep & vec2 & Hv2 & Hr2).
    exists r2, st2, vec. rewrite Hk1 in Hv2.
    assert (vec2 = vec) by congruence. subst vec2. auto.
  - destruct H2 as (_ & _ & _ & Hv2). rewrite Hk1 in Hv2. congruence.
Qed.

(** HorizontalElectricDipole and VerticalElectricDipole guard [s_e] with
    [_s_e]: the second call returns the reference of the first and leaves
    the instance as it is. *)
Lemma s_e_cached_HED_VED (v : SourceVariant) (st st1 : Memo.State)
    (r1 : Memo.ref) :
  v = HED \/ v = VED ->
  Memo.s_e v st = (Ok r1, st1) ->
  Memo._s_e st1 = Some r1 /\ Memo.s_e v st1 = (Ok r1, st1).
Proof.
  intros Hv E1.
  assert (Hs : Memo._s_e st1 = Some r1).
  { rewrite Memo_s_e_unfold in E1.
    destruct Hv; subst v;
      unfold Memo.lazy_attr, Memo.mbind, Memo.getattr_or_None, Memo.getattr,
        Memo.modify, Memo.ret in E1;
      (destruct (Memo._s_e st) as [r|] eqn:Es;
       [ rewrite Es in E1; inversion E1; subst; assumption
       | match type of E1 with
         | context [?body st] => destruct (body st) as [[r|e] st'] 
         end; simpl in E1; inversion E1; subst; reflexivity ]). }
  split; [exact Hs|].
  rewrite Memo_s_e_unfold.
  destruct Hv; subst v; now apply lazy_s_e_cached with (g := r1).
Qed.

(** DownHoleTerminatingSrc, DownHoleCasingSrc and TopCasingSrc guard [s_e]
    with [_srcList]: while [srcList] has not been read, the second call runs
    the body again and returns the reference of a new array. *)
Lemma s_e_recomputed (v : SourceVariant) (st st1 : Memo.State)
    (r1 : Memo.ref) :
  v = DHT \/ v = DHC \/ v = TCS ->
  coherent v st ->
  Memo._srcList st = None ->
  Memo.s_e v st = (Ok r1, st1) ->
  exists r2 st2 vec,
    Memo.s_e v st1 = (Ok r2, st2) /\
    r2 = S r1 /\
    Memo.arrays st2 = Memo.arrays st1 ++ [vec] /\
    Memo._s_e st2 = Some r2.
Proof.
  intros Hv Hc Hn E1.
  assert (Step : forall s, coherent v s -> Memo._srcList s = None ->
            let out := Memo.s_e v s in
            match fst out with
            | Ok r =>
                exists vec,
                  s_e v (Memo.kwargs s) = Ok vec /\
                  r = length (Memo.arrays s) /\
                  Memo.arrays (snd out) = Memo.arrays s ++ [vec] /\
                  Memo._s_e (snd out) = Some r /\
                  Memo._srcList (snd out) = Memo._srcList s /\
                  coherent v (snd out) /\
                  Memo.kwargs (snd out) = Memo.kwargs s
            | Raise e =>
                s_e v (Memo.kwargs s) = Raise e /\ coherent v (snd out) /\
                Memo.kwargs (snd out) = Memo.kwargs s /\
                Memo.arrays (snd out) = Memo.arrays s
            end).
  { intros s Hs Hsl. rewrite Memo_s_e_unfold.
    destruct Hv as [-> | [-> | ->]];
      apply lazy_s_e_compute; auto; intros.
    - now apply s_e_body_DHT.
    - now apply s_e_body_DHC.
    - now apply s_e_body_TCS. }
  pose proof (Step st Hc Hn) as H1. cbv zeta in H1.
  rewrite E1 in H1. simpl in H1.
  destruct H1 as (vec & Hvec & Hr1 & Ha1 & He1 & Hsl1 & Hc1 & Hk1).
  assert (Hn1 : Memo._srcList st1 = None) by congruence.
  pose proof (Step st1 Hc1 Hn1) as H2. cbv zeta in H2.
  destruct (Memo.s_e v st1) as [[r2|e] st2]; simpl in H2.
  - destruct H2 as (vec2 & Hvec2 & Hr2 & Ha2 & He2 & _).
    exists r2, st2, vec2. split_ands; auto.
    rewrite Hr2, Ha1, length_app, Hr1. simpl. lia.
  - destruct H2 as (Hvec2 & _). rewrite Hk1 in Hvec2. congruence.
Qed.

(** C8, on the code.  A fresh DownHoleTerminatingSrc on [ex_mesh]: the first
    call of [s_e] returns array 0, the second call returns array 1, a second
    array with the same entries; the output of the first call was stored in
    [_s_e] but the guard reads [_srcList].  A fresh HorizontalElectricDipole
    returns array 0 both times and allocates one array. *)
Theorem C8_second_call_allocates_anew :
  let first := Memo.s_e DHT (Memo.fresh ex_downhole) in
  let second := Memo.s_e DHT (snd first) in
  fst first = Ok 0%nat /\
  fst second = Ok 1%nat /\
  length (Memo.arrays (snd second)) = 2%nat /\
  nth_error (Memo.arrays (snd second)) 0
  = nth_error (Memo.arrays (snd second)) 1 /\
  let first' := Memo.s_e HED (Memo.fresh hed_scenario) in
  let second' := Memo.s_e HED (snd first') in
  fst first' = Ok 0%nat /\
  fst second' = Ok 0%nat /\
  length (Memo.arrays (snd second')) = 1%nat.
Proof. vm_compute. repeat split. Qed.

(** With FDEM and no frequency, [srcList] sets [_srcList] without reading
    [s_e]; a later [s_e] on DownHoleTerminatingSrc then finds no [_s_e]. *)
Lemma s_e_after_empty_srcList :
  let self := {| cp := {| model.src_a := mkpoint 0 0 (-1);
                          model.src_b := mkpoint (9#10) 0 0;
                          model.casing_a := 1#2; model.freqs := [] |};
                 meshGenerator := ex_mesh; physics := FDEM |} in
  let after := Memo.srcList DHT (Memo.fresh self) in
  fst after = Ok [] /\
  fst (Memo.s_e DHT (snd after)) = Raise (AttributeError "_s_e").
Proof. vm_compute. repeat split. Qed.

(** ** Further properties: construction *)

Lemma Qeq_bool_false_iff (x y : Q) : Qeq_bool x y = false <-> ~ x == y.
Proof.
  split.
  - apply Qeq_bool_neq.
  - intros H. destruct (Qeq_bool x y) eqn:E; [|reflexivity].
    apply Qeq_bool_iff in E. contradiction.
Qed.

(** X1: the constructor of HorizontalElectricDipole returns the instance
    exactly when the endpoints agree in y and in z.  The base assertion on y
    runs first: endpoints that differ in y fail with its message whatever
    their z, and the message about z is raised only when y agrees. *)
Theorem X1_HED_init_outcomes :
  forall kwargs : Source,
    let a := src_a kwargs in
    let b := src_b kwargs in
    (HorizontalElectricDipole.__init__ kwargs = Ok kwargs <->
     c1 a == c1 b /\ c2 a == c2 b) /\
    (HorizontalElectricDipole.__init__ kwargs
     = Raise (AssertionError
                "non y-axis aligned sources have not been implemented") <->
     ~ c1 a == c1 b) /\
    (HorizontalElectricDipole.__init__ kwargs
     = Raise (AssertionError "z locations must be the same for a HED") <->
     c1 a == c1 b /\ ~ c2 a == c2 b).
Proof.
  intros kwargs a b. subst a b.
  unfold HorizontalElectricDipole.__init__, BaseCasingSrc.__init__, assert.
  cbv zeta.
  destruct (Qeq_bool (c1 (src_a kwargs)) (c1 (src_b kwargs))) eqn:Ey;
    [apply Qeq_bool_iff in Ey | apply Qeq_bool_false_iff in Ey];
    cbn [bind].
  - destruct (Qeq_bool (c2 (src_a kwargs)) (c2 (src_b kwargs))) eqn:Ez;
      [apply Qeq_bool_iff in Ez | apply Qeq_bool_false_iff in Ez];
      cbn [bind]; split_ands; split; try tauto; try discriminate.
  - split_ands; split; try tauto; try discriminate.
Qed.

(** X2: the constructors of DownHoleTerminatingSrc, DownHoleCasingSrc and
    TopCasingSrc run the base check only: they return the instance exactly
    when the endpoints agree in y, and otherwise raise the base assertion.
    Nothing is asked of x or z. *)
Theorem X2_downhole_init_outcomes :
  forall kwargs : Source,
    DownHoleCasingSrc.__init__ kwargs
    = DownHoleTerminatingSrc.__init__ kwargs /\
    TopCasingSrc.__init__ kwargs = DownHoleTerminatingSrc.__init__ kwargs /\
    (DownHoleTerminatingSrc.__init__ kwargs = Ok kwargs <->
     c1 (src_a kwargs) == c1 (src_b kwargs)) /\
    (DownHoleTerminatingSrc.__init__ kwargs
     = Raise (AssertionError
                "non y-axis aligned sources have not been implemented") <->
     ~ c1 (src_a kwargs) == c1 (src_b kwargs)).
Proof.
  intros kwargs.
  unfold DownHoleCasingSrc.__init__, TopCasingSrc.__init__,
    DownHoleTerminatingSrc.__init__, BaseCasingSrc.__init__, assert.
  cbv zeta.
  destruct (Qeq_bool (c1 (src_a kwargs)) (c1 (src_b kwargs))) eqn:Ey;
    [apply Qeq_bool_iff in Ey | apply Qeq_bool_false_iff in Ey];
    cbn [bind]; split_ands; try reflexivity; split; try tauto;
    try discriminate.
Qed.

(** ** Further properties: the nearest face *)

Lemma argmin_from_first (all : list Q) :
  forall (l : list Q) (best_i i : nat) (best : Q),
    nth_error all best_i = Some best ->
    (forall k x, nth_error l k = Some x -> nth_error all (i + k) = Some x) ->
    (best_i < i)%nat ->
    (forall k y, (k < best_i)%nat -> nth_error all k = Some y -> best < y) ->
    (forall k y, (best_i <= k < i)%nat -> nth_error all k = Some y ->
                 best <= y) ->
    exists v, nth_error all (argmin_from best_i best i l) = Some v /\
              forall k y, (k < argmin_from best_i best i l)%nat ->
                          nth_error all k = Some y -> v < y.
Proof.
  induction l as [|x t IH]; intros best_i i best Hb Hl Hlt Hbefore Hbetween;
    simpl.
  - exists best. split; assumption.
  - assert (Hx : nth_error all i = Some x).
    { specialize (Hl 0%nat x eq_refl). now rewrite Nat.add_0_r in Hl. }
    assert (Ht : forall k y, nth_error t k = Some y ->
                             nth_error all (S i + k) = Some y).
    { intros k y Hk. specialize (Hl (S k) y Hk).
      now rewrite Nat.add_succ_r in Hl. }
    destruct (Qlt_bool x best) eqn:C.
    + apply Qlt_bool_iff in C.
      apply (IH i (S i) x Hx Ht); [lia | | ].
      * intros k y Hk Hy.
        destruct (Nat.lt_ge_cases k best_i) as [Hkb | Hkb].
        -- eapply Qlt_trans; [exact C | eapply Hbefore; eassumption].
        -- eapply Qlt_le_trans; [exact C|].
           apply (Hbetween k y); [lia | assumption].
      * intros k y Hk Hy. assert (k = i) by lia. subst k.
        rewrite Hx in Hy. inversion Hy. apply Qle_refl.
    + apply Qlt_bool_false in C.
      apply (IH best_i (S i) best Hb Ht); [lia | assumption |].
      intros k y Hk Hy.
      destruct (Nat.eq_dec k i) as [-> | Hne].
      * rewrite Hx in Hy. inversion Hy; subst y. exact C.
      * apply (Hbetween k y); [lia | assumption].
Qed.

Lemma np_argmin_first (l : list Q) (i : nat) :
  np_argmin l = Ok i ->
  exists v, nth_error l i = Some v /\
            forall k y, (k < i)%nat -> nth_error l k = Some y -> v < y.
Proof.
  destruct l as [|x t]; simpl; [discriminate|].
  intros H; inversion H; clear H.
  apply (@argmin_from_first (x :: t) t 0 1 x); auto.
  - intros k y Hk; lia.
  - intros k y Hk Hy. assert (k = 0)%nat by lia. subst k.
    simpl in Hy. inversion Hy. apply Qle_refl.
Qed.

(** The shared body of the four closest-face properties. *)
Lemma closest_outcomes (m : Mesh) (pt : point) :
  let closest :=
    (inds <- closestPoints_Fz m pt ;;
     rows <- take_rows (gridFz m) inds ;;
     _ <- assert (length rows =? 1)%nat "multiple source locs found" ;;
     match rows with
     | p :: _ => Ok p
     | [] => Raise (IndexError "index 0 is out of bounds")
     end) in
  (gridFz m = [] ->
   closest = Raise (ValueError "attempt to get argmin of an empty sequence")) /\
  (gridFz m <> [] ->
   exists i a,
     closest = Ok a /\ nth_error (gridFz m) i = Some a /\
     nearest_face m pt a /\
     forall k g, (k < i)%nat -> nth_error (gridFz m) k = Some g ->
                 dist2 pt a < dist2 pt g).
Proof.
  cbv zeta. split.
  - intros E. unfold closestPoints_Fz. rewrite E. reflexivity.
  - intros Hne.
    destruct (@closest_face_spec m pt Hne) as (i & a & Hc & Ha & Hn).
    exists i, a. rewrite Hc. cbn [bind take_rows]. rewrite Ha. cbn.
    split_ands; auto.
    intros k g Hk Hg.
    unfold closestPoints_Fz in Hc.
    destruct (np_argmin (map (fun g0 => dist2 pt g0) (gridFz m)))
      as [i'|] eqn:Ei; [|discriminate].
    cbn in Hc. inversion Hc; subst i'.
    destruct (np_argmin_first _ Ei) as (v & Hv & Hfirst).
    rewrite nth_error_map, Ha in Hv. cbn in Hv. inversion Hv; subst v.
    apply (Hfirst k); [assumption|].
    now rewrite nth_error_map, Hg.
Qed.

(** X3: the closest-face properties of VerticalElectricDipole and of
    DownHoleTerminatingSrc raise ValueError when the mesh has no z-face;
    otherwise they return a z-face that no other is nearer to the electrode,
    the first such face of the grid, so the assertion on the number of
    faces found never fails. *)
Theorem X3_closest_face_outcomes :
  forall self : Source,
    VerticalElectricDipole.src_b_closest self
    = DownHoleTerminatingSrc.src_b_closest self /\
    (gridFz (mesh self) = [] ->
     DownHoleTerminatingSrc.src_a_closest self
     = Raise (ValueError "attempt to get argmin of an empty sequence") /\
     DownHoleTerminatingSrc.src_b_closest self
     = Raise (ValueError "attempt to get argmin of an empty sequence")) /\
    (gridFz (mesh self) <> [] ->
     exists i a j b,
       DownHoleTerminatingSrc.src_a_closest self = Ok a /\
       nth_error (gridFz (mesh self)) i = Some a /\
       nearest_face (mesh self) (src_a self) a /\
       (forall k g, (k < i)%nat -> nth_error (gridFz (mesh self)) k = Some g ->
                    dist2 (src_a self) a < dist2 (src_a self) g) /\
       DownHoleTerminatingSrc.src_b_closest self = Ok b /\
       nth_error (gridFz (mesh self)) j = Some b /\
       nearest_face (mesh self) (src_b self) b /\
       (forall k g, (k < j)%nat -> nth_error (gridFz (mesh self)) k = Some g ->
                    dist2 (src_b self) b < dist2 (src_b self) g)) /\
    (forall msg,
       DownHoleTerminatingSrc.src_a_closest self <> Raise (AssertionError msg) /\
       DownHoleTerminatingSrc.src_b_closest self <> Raise (AssertionError msg)).
Proof.
  intros self.
  pose proof (closest_outcomes (mesh self) (src_a self)) as (Ea & Na).
  pose proof (closest_outcomes (mesh self) (src_b self)) as (Eb & Nb).
  fold (DownHoleTerminatingSrc.src_a_closest self) in Ea, Na.
  fold (DownHoleTerminatingSrc.src_b_closest self) in Eb, Nb.
  split; [reflexivity|]. split; [auto|]. split.
  - intros Hne.
    destruct (Na Hne) as (i & a & H1 & H2 & H3 & H4).
    destruct (Nb Hne) as (j & b & H5 & H6 & H7 & H8).
    exists i, a, j, b. split_ands; assumption.
  - intros msg.
    destruct (gridFz (mesh self)) as [|g0 gs] eqn:Eg.
    + rewrite (Ea eq_refl), (Eb eq_refl). split; discriminate.
    + destruct Na as (i & a & H1 & _); [discriminate|].
      destruct Nb as (j & b & H5 & _); [discriminate|].
      rewrite H1, H5. split; discriminate.
Qed.

Lemma X3_closest_face_outcomes_witness :
  exists i a j b,
    DownHoleTerminatingSrc.src_a_closest ex_downhole = Ok a /\
    nth_error (gridFz ex_mesh) i = Some a /\
    nearest_face ex_mesh (src_a ex_downhole) a /\
    DownHoleTerminatingSrc.src_b_closest ex_downhole = Ok b /\
    nth_error (gridFz ex_mesh) j = Some b /\
    nearest_face ex_mesh (src_b ex_downhole) b.
Proof.
  destruct (X3_closest_face_outcomes ex_downhole) as (_ & _ & H & _).
  destruct H as (i & a & j & b & Ha & Hi & Hna & _ & Hb & Hj & Hnb & _).
  - discriminate.
  - exists i, a, j, b.
    exact (conj Ha (conj Hi (conj Hna (conj Hb (conj Hj Hnb))))).
Defined.

(** ** Further properties: the bands of the other masks *)

(** X4: the surface-wire mask of HorizontalElectricDipole has one entry per
    x-face and selects exactly the faces whose x lies between the x of the
    two endpoints (both included), whose z lies strictly within hz_min/2 of
    src_b.z and, when the mesh is not symmetric, whose y lies strictly
    within hy_min/2 of src_b.y. *)
Theorem X4_HED_surface_wire_band :
  forall (self : Source) (hy_min hz_min : Q),
    np_min (hz (mesh self)) = Ok hz_min ->
    (not_symmetric (mesh self) = true ->
     np_min (hy (mesh self)) = Ok hy_min) ->
    exists m,
      HorizontalElectricDipole.surface_wire self = Ok m /\
      length m = length (gridFx (mesh self)) /\
      forall i, nth i m false = true <->
        exists p, nth_error (gridFx (mesh self)) i = Some p /\
          (Qmin (c0 (src_a self)) (c0 (src_b self)) <= c0 p /\
           c0 p <= Qmax (c0 (src_a self)) (c0 (src_b self))) /\
          (c2 (src_b self) - hz_min / 2 < c2 p /\
           c2 p < c2 (src_b self) + hz_min / 2) /\
          (not_symmetric (mesh self) = true ->
           c1 (src_b self) - hy_min / 2 < c1 p /\
           c1 p < c1 (src_b self) + hy_min / 2).
Proof. intros; now apply HED_surface_wire_spec. Qed.

(** The scenario of the horizontal dipole: the three x-faces at 0, 5 and 10
    are selected. *)
Lemma X4_HED_surface_wire_band_witness :
  exists m,
    HorizontalElectricDipole.surface_wire hed_scenario = Ok m /\
    m = [true; true; true] /\
    length m = length (gridFx (mesh hed_scenario)).
Proof.
  destruct (@X4_HED_surface_wire_band hed_scenario 1 1) as (m & Hm & Hl & _);
    [reflexivity | intros _; reflexivity |].
  exists m. split; [exact Hm|]. split; [|exact Hl].
  vm_compute in Hm. now inversion Hm.
Defined.

(** X5: the surface-electrode mask of DownHoleTerminatingSrc, which the two
    casing sources inherit, selects exactly the z-faces whose x lies strictly
    within hx_min/2 of the x of the z-face nearest to src_b, whose z lies in
    [src_b.z - hz_min, src_b.z + 7 hz_min/4) and, when the mesh is not
    symmetric, whose y lies strictly within hy_min/2 of src_b.y. *)
Theorem X5_surface_electrode_band :
  forall (self : Source) (hx_min hy_min hz_min : Q),
    gridFz (mesh self) <> [] ->
    np_min (hx (mesh self)) = Ok hx_min ->
    np_min (hz (mesh self)) = Ok hz_min ->
    (not_symmetric (mesh self) = true ->
     np_min (hy (mesh self)) = Ok hy_min) ->
    exists b m,
      DownHoleTerminatingSrc.src_b_closest self = Ok b /\
      DownHoleTerminatingSrc.surface_electrode self = Ok m /\
      length m = length (gridFz (mesh self)) /\
      forall i, nth i m false = true <->
        exists p, nth_error (gridFz (mesh self)) i = Some p /\
          (c0 b - hx_min / 2 < c0 p /\ c0 p < c0 b + hx_min / 2) /\
          (c2 (src_b self) - hz_min <= c2 p /\
           c2 p < c2 (src_b self) + (7#4) * hz_min) /\
          (not_symmetric (mesh self) = true ->
           c1 (src_b self) - hy_min / 2 < c1 p /\
           c1 p < c1 (src_b self) + hy_min / 2).
Proof. intros; now apply surface_electrode_spec. Qed.

(** The return electrode near x = 9/10 at the surface of [ex_mesh]: the
    z-faces at x = 9/10 on the layers z = -1, 0 and 1. *)
Lemma X5_surface_electrode_band_witness :
  exists m,
    DownHoleTerminatingSrc.surface_electrode ex_downhole = Ok m /\
    select (gridFz (mesh ex_downhole)) m
    = [mkpoint (9#10) 0 (-1); mkpoint (9#10) 0 0; mkpoint (9#10) 0 1].
Proof.
  destruct (@X5_surface_electrode_band ex_downhole (1#5) 6 1)
    as (b & m & _ & Hm & _);
    [discriminate | reflexivity | reflexivity | intros H; discriminate H |].
  exists m. split; [exact Hm|].
  vm_compute in Hm. inversion Hm. reflexivity.
Defined.

(** X6: the downhole-electrode mask of DownHoleCasingSrc selects exactly the
    x-faces with x <= casing_a (every face from the axis to the casing),
    whose z lies in (src_a.z - hz_min, src_a.z] and, when the mesh is not
    symmetric, whose y lies strictly within hy_min/2 of src_a.y. *)
Theorem X6_downhole_electrode_band :
  forall (self : Source) (hy_min hz_min : Q),
    np_min (hz (mesh self)) = Ok hz_min ->
    (not_symmetric (mesh self) = true ->
     np_min (hy (mesh self)) = Ok hy_min) ->
    exists m,
      DownHoleCasingSrc.downhole_electrode self = Ok m /\
      length m = length (gridFx (mesh self)) /\
      forall i, nth i m false = true <->
        exists p, nth_error (gridFx (mesh self)) i = Some p /\
          c0 p <= casing_a self /\
          (c2 (src_a self) - hz_min < c2 p /\ c2 p <= c2 (src_a self)) /\
          (not_symmetric (mesh self) = true ->
           c1 (src_a self) - hy_min / 2 < c1 p /\
           c1 p < c1 (src_a self) + hy_min / 2).
Proof. intros; now apply downhole_electrode_spec. Qed.

(** A casing of radius 1/2 and an electrode at z = -1 in [ex_mesh]: the
    x-faces at x = 1/5 and 2/5 of the layer z = -3/2. *)
Lemma X6_downhole_electrode_band_witness :
  exists m,
    DownHoleCasingSrc.downhole_electrode ex_downhole = Ok m /\
    select (gridFx (mesh ex_downhole)) m
    = [mkpoint (1#5) 0 (-(3#2)); mkpoint (2#5) 0 (-(3#2))].
Proof.
  destruct (@X6_downhole_electrode_band ex_downhole 6 1) as (m & Hm & _);
    [reflexivity | intros H; discriminate H |].
  exists m. split; [exact Hm|].
  vm_compute in Hm. inversion Hm. reflexivity.
Defined.

(** X7: the surface-wire mask of TopCasingSrc selects exactly the x-faces
    whose x lies in (casing_a + hx_min/2, b.x], b being the z-face nearest to
    src_b, whose z lies in (src_b.z + hz_min, src_b.z + 7 hz_min/4] and, when
    the mesh is not symmetric, whose y lies strictly within hy_min/2 of
    src_b.y.  Unlike the inherited surface wire, its z-band moves with
    src_b.z. *)
Theorem X7_TCS_surface_wire_band :
  forall (self : Source) (hx_min hy_min hz_min : Q),
    gridFz (mesh self) <> [] ->
    np_min (hx (mesh self)) = Ok hx_min ->
    np_min (hz (mesh self)) = Ok hz_min ->
    (not_symmetric (mesh self) = true ->
     np_min (hy (mesh self)) = Ok hy_min) ->
    exists b m,
      DownHoleTerminatingSrc.src_b_closest self = Ok b /\
      TopCasingSrc.surface_wire self = Ok m /\
      length m = length (gridFx (mesh self)) /\
      forall i, nth i m false = true <->
        exists p, nth_error (gridFx (mesh self)) i = Some p /\
          (casing_a self + hx_min / 2 < c0 p /\ c0 p <= c0 b) /\
          (c2 (src_b self) + hz_min < c2 p /\
           c2 p <= c2 (src_b self) + (7#4) * hz_min) /\
          (not_symmetric (mesh self) = true ->
           c1 (src_b self) - hy_min / 2 < c1 p /\
           c1 p < c1 (src_b self) + hy_min / 2).
Proof. intros; now apply TCS_surface_wire_spec. Qed.

(** A casing of radius 1/2 and a return electrode near x = 9/10 in
    [ex_mesh]: the one x-face at x = 4/5 on the layer z = 3/2. *)
Lemma X7_TCS_surface_wire_band_witness :
  exists m,
    TopCasingSrc.surface_wire ex_top = Ok m /\
    select (gridFx (mesh ex_top)) m = [mkpoint (4#5) 0 (3#2)].
Proof.
  destruct (@X7_TCS_surface_wire_band ex_top (1#5) 6 1)
    as (b & m & _ & Hm & _);
    [discriminate | reflexivity | reflexivity | intros H; discriminate H |].
  exists m. split; [exact Hm|].
  vm_compute in Hm. inversion Hm. reflexivity.
Defined.

Lemma select_nil (g : list point) (m : mask) :
  (forall i, nth i m false = false) -> select g m = [].
Proof.
  revert m; induction g as [|p g IH]; intros [|b m] H; simpl; auto.
  pose proof (H 0%nat) as H0. simpl in H0. subst b.
  apply IH. intros i. exact (H (S i)).
Qed.

(** X8: the borehole wire runs from src_a up to src_b.  When src_a lies two
    minimum cell heights or more above src_b, the wire-in-borehole mask of
    VerticalElectricDipole and DownHoleTerminatingSrc selects no face. *)
Theorem X8_wire_in_borehole_empty :
  forall (self : Source) (hx_min hy_min hz_min : Q),
    gridFz (mesh self) <> [] ->
    np_min (hx (mesh self)) = Ok hx_min ->
    np_min (hz (mesh self)) = Ok hz_min ->
    (not_symmetric (mesh self) = true ->
     np_min (hy (mesh self)) = Ok hy_min) ->
    c2 (src_b self) + 2 * hz_min <= c2 (src_a self) ->
    exists m,
      VerticalElectricDipole.wire_in_borehole self = Ok m /\
      DownHoleTerminatingSrc.wire_in_borehole self = Ok m /\
      (forall i, nth i m false = false) /\
      select (gridFz (mesh self)) m = [].
Proof.
  intros self hx_min hy_min hz_min Hne Hx Hz Hy Hab.
  destruct (wire_in_borehole_spec self Hne Hx Hz Hy)
    as (a & m & _ & _ & Hm & _ & Hi).
  exists m. rewrite VED_wire_in_borehole_eq.
  assert (Hnone : forall i, nth i m false = false).
  { intros i. destruct (nth i m false) eqn:E; [|reflexivity].
    apply Hi in E. destruct E as (p & _ & (Hlo & Hhi) & _).
    exfalso. lra. }
  split_ands; auto. now apply select_nil.
Qed.

(** Electrodes at z = 0 and z = -2 in [ex_mesh], the upper one given as
    src_a. *)
Lemma X8_wire_in_borehole_empty_witness :
  exists m,
    DownHoleTerminatingSrc.wire_in_borehole
      (ex_source (mkpoint 0 0 0) (mkpoint 0 0 (-2)) (1#2)) = Ok m /\
    forall i, nth i m false = false.
Proof.
  destruct (@X8_wire_in_borehole_empty
              (ex_source (mkpoint 0 0 0) (mkpoint 0 0 (-2)) (1#2)) (1#5) 6 1)
    as (m & _ & Hm & Hnone & _);
    [ discriminate | reflexivity | reflexivity | intros H; discriminate H
    | vm_compute; discriminate | ].
  exists m. split; assumption.
Defined.

(** ** Further properties: the validators *)

Lemma np_unique_of_single_valued (l : list Q) :
  single_valued l -> length (np_unique l) = 1%nat.
Proof.
  induction l as [|x t IH]; intros (Hne & Heq); [congruence|].
  simpl. destruct t as [|y t'].
  - reflexivity.
  - assert (E : existsb (Qeq_bool x) (y :: t') = true).
    { apply existsb_exists. exists y. split; [now left|].
      apply Qeq_bool_iff. apply Heq; [now left | right; now left]. }
    rewrite E. apply IH. split; [discriminate|].
    intros u w Hu Hw. apply Heq; now right.
Qed.

Lemma unique_one_iff (l : list Q) :
  (length (np_unique l) =? 1)%nat = true <-> single_valued l.
Proof.
  rewrite Nat.eqb_eq. split.
  - intros L.
    destruct (np_unique l) as [|u [|? ?]] eqn:E; try discriminate.
    split.
    + intros ->. discriminate.
    + intros x y Hx Hy.
      rewrite (np_unique_single _ E x Hx), (np_unique_single _ E y Hy).
      reflexivity.
  - apply np_unique_of_single_valued.
Qed.

Lemma unique_one_false_iff (l : list Q) :
  (length (np_unique l) =? 1)%nat = false <-> ~ single_valued l.
Proof.
  rewrite <- unique_one_iff.
  destruct (length (np_unique l) =? 1)%nat; split; congruence.
Qed.

(** Reads the next assertion of a validator as a statement on the column. *)
Ltac check_column :=
  match goal with
  | |- context [assert (length (np_unique ?l) =? 1)%nat _] =>
      let E := fresh "E" in
      destruct (length (np_unique l) =? 1)%nat eqn:E;
      [apply unique_one_iff in E | apply unique_one_false_iff in E];
      unfold assert at 1; cbn [bind]
  end.

(** The same for all the assertions of a validator at once. *)
Ltac check_columns :=
  repeat match goal with
         | |- context [(length (np_unique ?l) =? 1)%nat] =>
             let E := fresh "E" in
             destruct (length (np_unique l) =? 1)%nat eqn:E;
             [apply unique_one_iff in E | apply unique_one_false_iff in E];
             cbn [bind]
         end.

Ltac outcome_cases :=
  split_ands;
  first [ solve [intros; congruence]
        | split; try tauto; try discriminate; try congruence ].

(** X9: given the surface-wire mask, the validator of
    HorizontalElectricDipole passes exactly when the selected x-faces are at
    least one and share one y and one z.  It checks y first: faces on several
    y (or no face) give the message about the y-location, and the message
    about the z-location is raised only when y is single. *)
Theorem X9_HED_check_wire_outcomes :
  forall (self : Source) (sw : mask),
    HorizontalElectricDipole.surface_wire self = Ok sw ->
    let rows := select (gridFx (mesh self)) sw in
    (HorizontalElectricDipole._check_wire self = Ok tt <->
     single_valued (col1 rows) /\ single_valued (col2 rows)) /\
    (HorizontalElectricDipole._check_wire self
     = Raise (AssertionError "the surface wire has more than one y-location")
     <-> ~ single_valued (col1 rows)) /\
    (HorizontalElectricDipole._check_wire self
     = Raise (AssertionError "the surface wire has more than one z-location")
     <-> single_valued (col1 rows) /\ ~ single_valued (col2 rows)).
Proof.
  intros self sw Hsw rows. subst rows.
  unfold HorizontalElectricDipole._check_wire. rewrite Hsw. cbn [bind].
  cbv zeta. check_column; [check_column|]; outcome_cases.
Qed.

Lemma X9_HED_check_wire_outcomes_witness :
  HorizontalElectricDipole._check_wire hed_scenario = Ok tt <->
  single_valued (col1 (select (gridFx (mesh hed_scenario))
                              [true; true; true])) /\
  single_valued (col2 (select (gridFx (mesh hed_scenario))
                              [true; true; true])).
Proof.
  destruct (@X9_HED_check_wire_outcomes hed_scenario [true; true; true]
              eq_refl) as (H & _).
  exact H.
Defined.

(** X10: given the wire-in-borehole mask, the validator of
    VerticalElectricDipole passes exactly when the selected z-faces are at
    least one and share one x and one y; x is checked first. *)
Theorem X10_VED_check_wire_outcomes :
  forall (self : Source) (wib : mask),
    VerticalElectricDipole.wire_in_borehole self = Ok wib ->
    let rows := select (gridFz (mesh self)) wib in
    (VerticalElectricDipole._check_wire self = Ok true <->
     single_valued (col0 rows) /\ single_valued (col1 rows)) /\
    (VerticalElectricDipole._check_wire self
     = Raise (AssertionError
                "the wire in borehole has more than one x-location")
     <-> ~ single_valued (col0 rows)) /\
    (VerticalElectricDipole._check_wire self
     = Raise (AssertionError
                "the wire in borehole has more than one y-location")
     <-> single_valued (col0 rows) /\ ~ single_valued (col1 rows)).
Proof.
  intros self wib Hwib rows. subst rows.
  unfold VerticalElectricDipole._check_wire. rewrite Hwib. cbn [bind].
  cbv zeta. check_column; [check_column|]; outcome_cases.
Qed.

Lemma X10_VED_check_wire_outcomes_witness :
  VerticalElectricDipole._check_wire ex_downhole = Ok true.
Proof.
  destruct (@X10_VED_check_wire_outcomes ex_downhole
              (match VerticalElectricDipole.wire_in_borehole ex_downhole with
               | Ok m => m
               | Raise _ => []
               end) eq_refl) as (H & _).
  apply H. split; apply unique_one_iff; reflexivity.
Defined.

(** X11: given its three masks, the validator of DownHoleTerminatingSrc
    (inherited by DownHoleCasingSrc) passes exactly when each segment
    selects at least one face and its faces share the two coordinates
    checked: x and y for the surface electrode, y and z for the surface
    wire, x and y for the wire in the borehole.  The surface electrode is
    checked first: if its faces do not share one x, that message is raised
    whatever the other segments are. *)
Theorem X11_DHT_check_wire_outcomes :
  forall (self : Source) (se sw wib : mask),
    DownHoleTerminatingSrc.surface_electrode self = Ok se ->
    DownHoleTerminatingSrc.surface_wire self = Ok sw ->
    DownHoleTerminatingSrc.wire_in_borehole self = Ok wib ->
    let e := select (gridFz (mesh self)) se in
    let w := select (gridFx (mesh self)) sw in
    let b := select (gridFz (mesh self)) wib in
    (DownHoleTerminatingSrc._check_wire self = Ok true <->
     (single_valued (col0 e) /\ single_valued (col1 e)) /\
     (single_valued (col1 w) /\ single_valued (col2 w)) /\
     (single_valued (col0 b) /\ single_valued (col1 b))) /\
    (DownHoleTerminatingSrc._check_wire self
     = Raise (AssertionError
                "the surface electrode has more than one x-location")
     <-> ~ single_valued (col0 e)) /\
    (forall r, DownHoleTerminatingSrc._check_wire self = Ok r -> r = true).
Proof.
  intros self se sw wib Hse Hsw Hwib e w b. subst e w b.
  unfold DownHoleTerminatingSrc._check_wire, assert.
  rewrite Hse, Hsw, Hwib. cbn [bind]. cbv zeta.
  check_columns; outcome_cases.
Qed.

Lemma X11_DHT_check_wire_outcomes_witness :
  DownHoleTerminatingSrc._check_wire ex_downhole = Ok true.
Proof.
  destruct (@X11_DHT_check_wire_outcomes ex_downhole
              (match DownHoleTerminatingSrc.surface_electrode ex_downhole with
               | Ok m => m | Raise _ => [] end)
              (match DownHoleTerminatingSrc.surface_wire ex_downhole with
               | Ok m => m | Raise _ => [] end)
              (match DownHoleTerminatingSrc.wire_in_borehole ex_downhole with
               | Ok m => m | Raise _ => [] end)
              eq_refl eq_refl eq_refl) as (H & _).
  apply H. split_ands; apply unique_one_iff; reflexivity.
Defined.

(** X12: given its three masks, the validator of TopCasingSrc passes exactly
    when each of surface electrode, tophole electrode and surface wire
    selects at least one face and its faces share the two coordinates
    checked (x and y, x and y, y and z). *)
Theorem X12_TCS_check_wire_outcomes :
  forall (self : Source) (se te sw : mask),
    DownHoleTerminatingSrc.surface_electrode self = Ok se ->
    TopCasingSrc.tophole_electrode self = Ok te ->
    TopCasingSrc.surface_wire self = Ok sw ->
    let e := select (gridFz (mesh self)) se in
    let t := select (gridFz (mesh self)) te in
    let w := select (gridFx (mesh self)) sw in
    (TopCasingSrc._check_wire self = Ok true <->
     (single_valued (col0 e) /\ single_valued (col1 e)) /\
     (single_valued (col0 t) /\ single_valued (col1 t)) /\
     (single_valued (col1 w) /\ single_valued (col2 w))) /\
    (TopCasingSrc._check_wire self
     = Raise (AssertionError
                "the tophole electrode has more than one x-location")
     <-> (single_valued (col0 e) /\ single_valued (col1 e)) /\
         ~ single_valued (col0 t)).
Proof.
  intros self se te sw Hse Hte Hsw e t w. subst e t w.
  unfold TopCasingSrc._check_wire, assert.
  rewrite Hse, Hte, Hsw. cbn [bind]. cbv zeta.
  check_columns; outcome_cases.
Qed.

(** On [ex_top] the tophole electrode takes the faces (7/10, 0, 0) and
    (7/10, 0, 1) and the validator passes. *)
Lemma X12_TCS_check_wire_outcomes_witness :
  TopCasingSrc._check_wire ex_top = Ok true.
Proof.
  destruct (@X12_TCS_check_wire_outcomes ex_top
              (match DownHoleTerminatingSrc.surface_electrode ex_top with
               | Ok m => m | Raise _ => [] end)
              (match TopCasingSrc.tophole_electrode ex_top with
               | Ok m => m | Raise _ => [] end)
              (match TopCasingSrc.surface_wire ex_top with
               | Ok m => m | Raise _ => [] end)
              eq_refl eq_refl eq_refl) as (H & _).
  apply H. split_ands; apply unique_one_iff; reflexivity.
Defined.

(** X13: given the downhole-electrode mask, the extra validator of
    DownHoleCasingSrc passes exactly when the selected x-faces are at least
    one and share one y and one z; y is checked first. *)
Theorem X13_check_wire_more_outcomes :
  forall (self : Source) (de : mask),
    DownHoleCasingSrc.downhole_electrode self = Ok de ->
    let rows := select (gridFx (mesh self)) de in
    (DownHoleCasingSrc._check_wire_more self = Ok true <->
     single_valued (col1 rows) /\ single_valued (col2 rows)) /\
    (DownHoleCasingSrc._check_wire_more self
     = Raise (AssertionError
                "the downhole electrode has more than one y-location")
     <-> ~ single_valued (col1 rows)) /\
    (DownHoleCasingSrc._check_wire_more self
     = Raise (AssertionError
                "the downhole electrode has more than one z-location")
     <-> single_valued (col1 rows) /\ ~ single_valued (col2 rows)).
Proof.
  intros self de Hde rows. subst rows.
  unfold DownHoleCasingSrc._check_wire_more. rewrite Hde. cbn [bind].
  cbv zeta. check_column; [check_column|]; outcome_cases.
Qed.

(** On [ex_downhole] the contact takes two faces of one layer and the
    validator passes. *)
Lemma X13_check_wire_more_outcomes_witness :
  DownHoleCasingSrc._check_wire_more ex_downhole = Ok true.
Proof.
  destruct (@X13_check_wire_more_outcomes ex_downhole
              (match DownHoleCasingSrc.downhole_electrode ex_downhole with
               | Ok m => m | Raise _ => [] end) eq_refl) as (H & _).
  apply H. split; apply unique_one_iff; reflexivity.
Defined.



(** ** Further properties: when [s_e] returns *)

Lemma closest_cases (self : Source) :
  (gridFz (mesh self) = [] /\
   (exists msg, DownHoleTerminatingSrc.src_a_closest self
                = Raise (ValueError msg)) /\
   (exists msg, DownHoleTerminatingSrc.src_b_closest self
                = Raise (ValueError msg))) \/
  (gridFz (mesh self) <> [] /\
   (exists a, DownHoleTerminatingSrc.src_a_closest self = Ok a) /\
   (exists b, DownHoleTerminatingSrc.src_b_closest self = Ok b)).
Proof.
  pose proof (closest_outcomes (mesh self) (src_a self)) as (Ea & Na).
  pose proof (closest_outcomes (mesh self) (src_b self)) as (Eb & Nb).
  fold (DownHoleTerminatingSrc.src_a_closest self) in Ea, Na.
  fold (DownHoleTerminatingSrc.src_b_closest self) in Eb, Nb.
  destruct (gridFz (mesh self)) as [|g gs] eqn:Eg.
  - left. split_ands; eauto.
  - right. destruct Na as (i & a & Ha & _); [discriminate|].
    destruct Nb as (j & b & Hb & _); [discriminate|].
    split_ands; eauto. discriminate.
Qed.

(** Splits on what the mesh provides and settles a mask outcome. *)
Ltac mask_outcome_cases self :=
  cbv zeta; unfold mask_outcome, mask_needs, ok_or_ValueError;
  destruct (hx (mesh self)) as [|? ?];
  destruct (hz (mesh self)) as [|? ?];
  destruct (not_symmetric (mesh self));
  destruct (hy (mesh self)) as [|? ?];
  cbn [np_min bind];
  split_ands;
  try (intros; exfalso; intuition congruence);
  try (intros (? & ?); discriminate);
  try (intros; eexists; split; [reflexivity | as_map; apply length_map]);
  try (intros; split_ands; intros; solve [discriminate | congruence]);
  try exact I;
  try (eexists; reflexivity).

Lemma HED_surface_wire_outcome (self : Source) :
  mask_outcome false false (mesh self) (gridFx (mesh self))
               (HorizontalElectricDipole.surface_wire self).
Proof.
  unfold HorizontalElectricDipole.surface_wire. mask_outcome_cases self.
Qed.

Lemma downhole_electrode_outcome (self : Source) :
  mask_outcome false false (mesh self) (gridFx (mesh self))
               (DownHoleCasingSrc.downhole_electrode self).
Proof.
  unfold DownHoleCasingSrc.downhole_electrode. mask_outcome_cases self.
Qed.

Lemma tophole_electrode_outcome (self : Source) :
  mask_outcome true false (mesh self) (gridFz (mesh self))
               (TopCasingSrc.tophole_electrode self).
Proof.
  unfold TopCasingSrc.tophole_electrode. mask_outcome_cases self.
Qed.

(** The same for the masks that start from a nearest z-face. *)
Ltac closest_mask_outcome self :=
  let Eg := fresh "Eg" in
  let a := fresh "a" in
  let b := fresh "b" in
  let Ha := fresh "Ha" in
  let Hb := fresh "Hb" in
  destruct (closest_cases self)
    as [(Eg & (a & Ha) & (b & Hb)) | (Eg & (a & Ha) & (b & Hb))];
  rewrite ?Ha, ?Hb; cbn [bind];
  cbv zeta; unfold mask_outcome, mask_needs, ok_or_ValueError;
  [ split_ands;
    [ intros (_ & _ & _ & Hz); exfalso; now apply Hz
    | intros (? & ?); discriminate
    | eexists; reflexivity ]
  | destruct (hx (mesh self)) as [|? ?];
    destruct (hz (mesh self)) as [|? ?];
    destruct (not_symmetric (mesh self));
    destruct (hy (mesh self)) as [|? ?];
    cbn [np_min bind];
    split_ands;
    try (intros; exfalso; intuition congruence);
    try (intros (? & ?); discriminate);
    try (intros; eexists; split; [reflexivity | as_map; apply length_map]);
    try (intros; split_ands; intros;
         solve [discriminate | assumption | congruence]);
    try exact I;
    try (eexists; reflexivity) ].

Lemma wire_in_borehole_outcome (self : Source) :
  mask_outcome true true (mesh self) (gridFz (mesh self))
               (DownHoleTerminatingSrc.wire_in_borehole self).
Proof.
  unfold DownHoleTerminatingSrc.wire_in_borehole. closest_mask_outcome self.
Qed.

Lemma surface_electrode_outcome (self : Source) :
  mask_outcome true true (mesh self) (gridFz (mesh self))
               (DownHoleTerminatingSrc.surface_electrode self).
Proof.
  unfold DownHoleTerminatingSrc.surface_electrode. closest_mask_outcome self.
Qed.

Lemma DHT_surface_wire_outcome (self : Source) :
  mask_outcome false true (mesh self) (gridFx (mesh self))
               (DownHoleTerminatingSrc.surface_wire self).
Proof.
  unfold DownHoleTerminatingSrc.surface_wire. closest_mask_outcome self.
Qed.

Lemma TCS_surface_wire_outcome (self : Source) :
  mask_outcome true true (mesh self) (gridFx (mesh self))
               (TopCasingSrc.surface_wire self).
Proof.
  unfold TopCasingSrc.surface_wire. closest_mask_outcome self.
Qed.

Lemma mask_outcome_Ok (x z : bool) (m : Mesh) (g : list point)
    (r : result mask) (k : mask) :
  mask_outcome x z m g r -> r = Ok k ->
  mask_needs x z m /\ length k = length g.
Proof.
  intros (H1 & H2 & _) E.
  assert (N : mask_needs x z m) by (apply H2; eauto).
  split; [exact N|].
  destruct (H1 N) as (k' & E' & L). congruence.
Qed.

Lemma mask_outcome_Raise (x z : bool) (m : Mesh) (g : list point)
    (r : result mask) (e : exn) :
  mask_outcome x z m g r -> r = Raise e ->
  ~ mask_needs x z m /\ exists msg, e = ValueError msg.
Proof.
  intros (H1 & _ & H3) E. split.
  - intros N. destruct (H1 N) as (k & E' & _). congruence.
  - rewrite E in H3. exact H3.
Qed.

Lemma mesh_needs_mask (v : SourceVariant) (x z : bool) (m : Mesh) :
  mesh_needs v m -> (v = HED -> x = false /\ z = false) ->
  mask_needs x z m.
Proof.
  intros (Hz & Hy & Hv) Hxz. unfold mask_needs. split_ands; auto.
  - intros ->. apply Hv. intros ->. destruct (Hxz eq_refl). discriminate.
  - intros ->. apply Hv. intros ->. destruct (Hxz eq_refl). discriminate.
Qed.

Lemma mask_needs_mesh (v : SourceVariant) (x z : bool) (m : Mesh) :
  mask_needs x z m -> (v <> HED -> x = true /\ z = true) ->
  mesh_needs v m.
Proof.
  intros (Hz & Hy & Hx & Hg) Hv. unfold mesh_needs. split_ands; auto.
  intros Hne. destruct (Hv Hne). auto.
Qed.

(** Reads the next property of an [s_xyz] body with its outcome lemma. *)
Ltac next_mask v lem :=
  match goal with
  | |- context [bind (?f ?self) _] =>
      let k := fresh "k" in
      let e := fresh "e" in
      let E := fresh "E" in
      let N := fresh "N" in
      let L := fresh "L" in
      let M := fresh "M" in
      destruct (f self) as [k|e] eqn:E; cbn [bind];
      [ destruct (mask_outcome_Ok (lem self) E) as (N & L);
        rewrite setmask_same_length
          by (rewrite ?length_assign, ?length_np_zeros; congruence);
        cbn [bind]
      | destruct (mask_outcome_Raise (lem self) E) as (N & M);
        split_ands;
        [ intros Hneeds; exfalso; apply N;
          apply (@mesh_needs_mask v); [exact Hneeds | intros; try discriminate; auto]
        | intros (? & ?); discriminate
        | exact M ] ]
  end.

Ltac s_xyz_done v N :=
  split_ands;
  [ intros _; eexists; reflexivity
  | intros _; apply (mask_needs_mesh (v := v) N);
    intros; try congruence; auto
  | exact I ].

Lemma s_xyz_outcome (v : SourceVariant) (self : Source) :
  mesh_wf (mesh self) ->
  (mesh_needs v (mesh self) -> exists xyz, s_xyz v self = Ok xyz) /\
  ((exists xyz, s_xyz v self = Ok xyz) -> mesh_needs v (mesh self)) /\
  ok_or_ValueError (s_xyz v self).
Proof.
  intros (Wx & Wz & _).
  destruct v; unfold s_xyz, ok_or_ValueError.
  - unfold HorizontalElectricDipole.s_xyz. cbv zeta.
    next_mask HED HED_surface_wire_outcome.
    s_xyz_done HED N.
  - unfold VerticalElectricDipole.s_xyz. cbv zeta.
    rewrite VED_wire_in_borehole_eq.
    next_mask VED wire_in_borehole_outcome.
    s_xyz_done VED N.
  - unfold DownHoleTerminatingSrc.s_xyz. cbv zeta.
    next_mask DHT wire_in_borehole_outcome.
    next_mask DHT DHT_surface_wire_outcome.
    next_mask DHT surface_electrode_outcome.
    s_xyz_done DHT N.
  - unfold DownHoleCasingSrc.s_xyz. cbv zeta.
    next_mask DHC wire_in_borehole_outcome.
    next_mask DHC downhole_electrode_outcome.
    next_mask DHC DHT_surface_wire_outcome.
    next_mask DHC surface_electrode_outcome.
    s_xyz_done DHC N.
  - unfold TopCasingSrc.s_xyz. cbv zeta.
    next_mask TCS tophole_electrode_outcome.
    next_mask TCS TCS_surface_wire_outcome.
    next_mask TCS surface_electrode_outcome.
    s_xyz_done TCS N0.
Qed.

(** X15: on a mesh that keeps its contract, [s_e] returns a vector exactly
    when the mesh has what the class reads: a cell along z, a cell along y
    if the mesh is not symmetric and, for every class but
    HorizontalElectricDipole, a cell along x and a z-face.  When it does
    not return, the exception is a ValueError (from a minimum or a nearest
    face over nothing): no mask assignment is ever out of shape and no
    assertion fails. *)
Theorem X15_s_e_returns_iff :
  forall (v : SourceVariant) (self : Source),
    mesh_wf (mesh self) ->
    ((exists vec, s_e v self = Ok vec) <-> mesh_needs v (mesh self)) /\
    (forall e, s_e v self = Raise e -> exists msg, e = ValueError msg).
Proof.
  intros v self W.
  destruct (s_xyz_outcome v self W) as (H1 & H2 & H3).
  destruct W as (_ & _ & Harea & _).
  rewrite s_e_unfold.
  destruct (s_xyz v self) as [[[s_x s_y] s_z]|e0] eqn:E; cbn [bind].
  - destruct (s_xyz_spec _ _ E) as ((Lx & Ly & Lz) & _).
    rewrite np_divide_same_length by (rewrite !length_app; lia).
    split; [split|].
    + intros _. apply H2. eauto.
    + intros _. eauto.
    + intros e He. discriminate He.
  - split; [split|].
    + intros (vec & Hv). discriminate Hv.
    + intros N. destruct (H1 N) as (xyz & Hx). discriminate Hx.
    + intros e He. inversion He; subst e. exact H3.
Qed.

Lemma mesh_wf_hed_mesh : mesh_wf hed_mesh.
Proof.
  repeat split; try reflexivity.
  repeat constructor; discriminate.
Qed.

(** The mesh of the horizontal-dipole scenario has no z-face and the
    horizontal dipole returns its vector on it; the other classes do not. *)
Lemma X15_s_e_returns_iff_witness :
  ((exists vec, s_e HED hed_scenario = Ok vec) <->
   mesh_needs HED (mesh hed_scenario)) /\
  s_e HED hed_scenario = Ok [-1; -1; -1] /\
  s_e DHT hed_scenario
  = Raise (ValueError "attempt to get argmin of an empty sequence").
Proof.
  destruct (@X15_s_e_returns_iff HED hed_scenario mesh_wf_hed_mesh)
    as (H & _).
  split; [exact H|]. split; reflexivity.
Defined.

(** ** Further properties: the entries of [s_e] *)

Ltac unfold_unit_current :=
  unfold unit_current, segments, last_sign, selects;
  cbn [seg_axis seg_mask seg_sign axis_eqb andb];
  unfold HorizontalElectricDipole.surface_wire_direction,
    DownHoleTerminatingSrc.surface_wire_direction;
  repeat match goal with
         | |- context [match ?r with Ok _ => _ | Raise _ => _ end] =>
             destruct r
         | |- context [if ?b then _ else _] => destruct b
         end.

Lemma unit_current_values (v : SourceVariant) (self : Source) (ax : axis)
    (j : nat) :
  unit_current (segments v self) ax j = 0 \/
  unit_current (segments v self) ax j = 1 \/
  unit_current (segments v self) ax j = -1.
Proof. destruct v, ax; unfold_unit_current; auto. Qed.

Lemma unit_current_support (v : SourceVariant) (self : Source) (j : nat) :
  unit_current (segments v self) Fy j = 0 /\
  (v = HED -> unit_current (segments v self) Fz j = 0) /\
  (v = VED -> unit_current (segments v self) Fx j = 0).
Proof.
  split_ands; [destruct v | intros -> | intros ->];
    unfold_unit_current; auto.
Qed.

(** X16: every entry of the vector returned by [s_e] is zero, or plus or
    minus the inverse of the area of its face.  No class writes a y-face, so
    the y-block is zero; HorizontalElectricDipole leaves the z-block zero and
    VerticalElectricDipole the x-block. *)
Theorem X16_s_e_entry_values :
  forall (v : SourceVariant) (self : Source) (vec : list Q) (i : nat),
    mesh_wf (mesh self) ->
    s_e v self = Ok vec ->
    (i < length vec)%nat ->
    (nth i vec 0 == 0 \/
     nth i vec 0 = 1 / nth i (area (mesh self)) 0 \/
     nth i vec 0 = -1 / nth i (area (mesh self)) 0) /\
    (forall j, locate (mesh self) i = (Fy, j) -> nth i vec 0 == 0) /\
    (v = HED -> forall j, locate (mesh self) i = (Fz, j) ->
                nth i vec 0 == 0) /\
    (v = VED -> forall j, locate (mesh self) i = (Fx, j) ->
                nth i vec 0 == 0).
Proof.
  intros v self vec i W H Hi.
  destruct (s_e_entries v self W H) as (_ & E).
  assert (Z : forall a, 0 / a == 0) by (intros a; unfold Qdiv; apply Qmult_0_l).
  split_ands.
  - destruct (locate (mesh self) i) as [ax j] eqn:Hl.
    rewrite (E i ax j Hi Hl).
    destruct (unit_current_values v self ax j) as [-> | [-> | ->]]; auto.
  - intros j Hl. rewrite (E i Fy j Hi Hl).
    destruct (unit_current_support v self j) as (-> & _). apply Z.
  - intros Hv j Hl. rewrite (E i Fz j Hi Hl).
    destruct (unit_current_support v self j) as (_ & Hz & _).
    rewrite (Hz Hv). apply Z.
  - intros Hv j Hl. rewrite (E i Fx j Hi Hl).
    destruct (unit_current_support v self j) as (_ & _ & Hx).
    rewrite (Hx Hv). apply Z.
Qed.

(** On the casing source of [ex_mesh]: entry 15, an x-face of the surface
    wire of area 1/2, holds -1 / (1/2). *)
Lemma X16_s_e_entry_values_witness :
  nth 15 ex_vec 0 == 0 \/
  nth 15 ex_vec 0 = 1 / nth 15 (area (mesh ex_downhole)) 0 \/
  nth 15 ex_vec 0 = -1 / nth 15 (area (mesh ex_downhole)) 0.
Proof.
  destruct (@X16_s_e_entry_values DHC ex_downhole ex_vec 15%nat
              mesh_wf_ex_mesh eq_refl) as (H & _);
    [vm_compute; lia | exact H].
Defined.

(** X17: in the z-face array of DownHoleTerminatingSrc the surface
    electrode is written after the wire in the borehole.  A face of the
    surface electrode holds +1 whether or not the borehole wire selects it
    too, and a face of the borehole wire holds -1 only if the surface
    electrode does not select it. *)
Theorem X17_DHT_later_assignment_wins :
  forall (self : Source) (wib se : mask) (s_x s_y s_z : list Q) (j : nat),
    DownHoleTerminatingSrc.wire_in_borehole self = Ok wib ->
    DownHoleTerminatingSrc.surface_electrode self = Ok se ->
    DownHoleTerminatingSrc.s_xyz self = Ok (s_x, s_y, s_z) ->
    (nth j se false = true -> nth j s_z 0 = 1) /\
    (nth j se false = false -> nth j wib false = true ->
     nth j s_z 0 = -1) /\
    (nth j se false = false -> nth j wib false = false -> nth j s_z 0 = 0).
Proof.
  intros self wib se s_x s_y s_z j Hwib Hse Hxyz.
  destruct (@s_xyz_spec DHT self s_x s_y s_z Hxyz) as (_ & Hn).
  destruct (Hn j) as (_ & _ & Hz). rewrite Hz.
  unfold unit_current, segments, last_sign, selects.
  cbn [seg_axis seg_mask seg_sign axis_eqb andb].
  rewrite Hwib, Hse.
  destruct (nth j se false), (nth j wib false); split_ands; intros;
    try discriminate; reflexivity.
Qed.

(** Electrodes on one vertical line of [ex_mesh]: the z-face (1/10, 0, 0),
    entry 10, belongs to the borehole wire and to the surface electrode, and
    holds +1. *)
Lemma X17_DHT_later_assignment_wins_witness :
  let wib := match DownHoleTerminatingSrc.wire_in_borehole ex_vertical with
             | Ok m => m | Raise _ => [] end in
  let se := match DownHoleTerminatingSrc.surface_electrode ex_vertical with
            | Ok m => m | Raise _ => [] end in
  let s_z := match DownHoleTerminatingSrc.s_xyz ex_vertical with
             | Ok (_, _, s_z) => s_z | Raise _ => [] end in
  nth_error (gridFz (mesh ex_vertical)) 10 = Some (mkpoint (1#10) 0 0) /\
  nth 10 wib false = true /\ nth 10 se false = true /\
  nth 10 s_z 0 = 1.
Proof.
  intros wib se s_z.
  split; [reflexivity|]. split; [reflexivity|]. split; [reflexivity|].
  refine (proj1 (@X17_DHT_later_assignment_wins ex_vertical wib se
                   (match DownHoleTerminatingSrc.s_xyz ex_vertical with
                    | Ok (s_x, _, _) => s_x | Raise _ => [] end)
                   (match DownHoleTerminatingSrc.s_xyz ex_vertical with
                    | Ok (_, s_y, _) => s_y | Raise _ => [] end)
                   s_z 10%nat _ _ _) _);
    vm_compute; reflexivity.
Defined.

(** X18: in the x-face array of DownHoleCasingSrc the surface wire is
    written after the downhole electrode: a face of the surface wire holds
    -1 whether or not the downhole electrode selects it too, and a face of
    the downhole electrode holds +1 only if the surface wire does not select
    it. *)
Theorem X18_DHC_later_assignment_wins :
  forall (self : Source) (de sw : mask) (s_x s_y s_z : list Q) (j : nat),
    DownHoleCasingSrc.downhole_electrode self = Ok de ->
    DownHoleTerminatingSrc.surface_wire self = Ok sw ->
    DownHoleCasingSrc.s_xyz self = Ok (s_x, s_y, s_z) ->
    (nth j sw false = true -> nth j s_x 0 = -1) /\
    (nth j sw false = false -> nth j de false = true ->
     nth j s_x 0 = 1) /\
    (nth j sw false = false -> nth j de false = false -> nth j s_x 0 = 0).
Proof.
  intros self de sw s_x s_y s_z j Hde Hsw Hxyz.
  destruct (@s_xyz_spec DHC self s_x s_y s_z Hxyz) as (_ & Hn).
  destruct (Hn j) as (Hx & _). rewrite Hx.
  unfold unit_current, segments, last_sign, selects.
  cbn [seg_axis seg_mask seg_sign axis_eqb andb].
  rewrite Hde, Hsw.
  destruct (nth j sw false), (nth j de false); split_ands; intros;
    try discriminate; reflexivity.
Qed.

(** A casing contact at z = 3/2 in [ex_mesh], the layer of the surface
    wire: the x-face (1/5, 0, 3/2), entry 15, belongs to both segments and
    holds -1. *)
Lemma X18_DHC_later_assignment_wins_witness :
  let self := ex_source (mkpoint 0 0 (3#2)) (mkpoint (9#10) 0 0) (1#2) in
  let de := match DownHoleCasingSrc.downhole_electrode self with
            | Ok m => m | Raise _ => [] end in
  let sw := match DownHoleTerminatingSrc.surface_wire self with
            | Ok m => m | Raise _ => [] end in
  let s_x := match DownHoleCasingSrc.s_xyz self with
             | Ok (s_x, _, _) => s_x | Raise _ => [] end in
  nth_error (gridFx (mesh self)) 15 = Some (mkpoint (1#5) 0 (3#2)) /\
  nth 15 de false = true /\ nth 15 sw false = true /\
  nth 15 s_x 0 = -1.
Proof.
  intros self de sw s_x.
  split; [reflexivity|]. split; [reflexivity|]. split; [reflexivity|].
  refine (proj1 (@X18_DHC_later_assignment_wins self de sw s_x
                   (match DownHoleCasingSrc.s_xyz self with
                    | Ok (_, s_y, _) => s_y | Raise _ => [] end)
                   (match DownHoleCasingSrc.s_xyz self with
                    | Ok (_, _, s_z) => s_z | Raise _ => [] end)
                   15%nat _ _ _) _);
    vm_compute; reflexivity.
Defined.

(** ** Further properties: reversing the horizontal dipole *)

Lemma Qle_bool_Qeq (x y x' y' : Q) :
  x == x' -> y == y' -> Qle_bool x y = Qle_bool x' y'.
Proof.
  intros Hx Hy.
  destruct (Qle_bool x y) eqn:E1, (Qle_bool x' y') eqn:E2; try reflexivity.
  - apply Qle_bool_iff in E1. rewrite Hx, Hy in E1.
    apply Qle_bool_iff in E1. congruence.
  - apply Qle_bool_iff in E2. rewrite <- Hx, <- Hy in E2.
    apply Qle_bool_iff in E2. congruence.
Qed.

Lemma Qlt_bool_Qeq (x y x' y' : Q) :
  x == x' -> y == y' -> Qlt_bool x y = Qlt_bool x' y'.
Proof.
  intros Hx Hy.
  destruct (Qlt_bool x y) eqn:E1, (Qlt_bool x' y') eqn:E2; try reflexivity.
  - apply Qlt_bool_iff in E1. rewrite Hx, Hy in E1.
    apply Qlt_bool_iff in E1. congruence.
  - apply Qlt_bool_iff in E2. rewrite <- Hx, <- Hy in E2.
    apply Qlt_bool_iff in E2. congruence.
Qed.

Lemma andb_cong (a a' b b' : bool) : a = a' -> b = b' -> a && b = a' && b'.
Proof. congruence. Qed.

(** X19: for endpoints that the constructor of HorizontalElectricDipole
    accepts (equal y and equal z), exchanging src_a and src_b leaves the
    surface-wire mask as it is; when the endpoints differ in x it reverses
    the sign written there, and when they share x the sign stays +1. *)
Theorem X19_HED_reversal :
  forall self : Source,
    c1 (src_a self) == c1 (src_b self) ->
    c2 (src_a self) == c2 (src_b self) ->
    HorizontalElectricDipole.surface_wire (swap_endpoints self)
    = HorizontalElectricDipole.surface_wire self /\
    (~ c0 (src_a self) == c0 (src_b self) ->
     HorizontalElectricDipole.surface_wire_direction (swap_endpoints self)
     = - HorizontalElectricDipole.surface_wire_direction self) /\
    (c0 (src_a self) == c0 (src_b self) ->
     HorizontalElectricDipole.surface_wire_direction (swap_endpoints self) = 1
     /\ HorizontalElectricDipole.surface_wire_direction self = 1).
Proof.
  intros self Hy Hz. split_ands.
  - unfold HorizontalElectricDipole.surface_wire. cbv zeta.
    change (mesh (swap_endpoints self)) with (mesh self).
    change (src_a (swap_endpoints self)) with (src_b self).
    change (src_b (swap_endpoints self)) with (src_a self).
    destruct (np_min (hz (mesh self))) as [h|]; [|reflexivity].
    cbn [bind].
    destruct (not_symmetric (mesh self));
      [destruct (np_min (hy (mesh self))) as [hy0|]; [|reflexivity] |];
      cbn [bind]; f_equal; as_map; apply map_ext; intros p;
      repeat match goal with
             | |- andb _ _ = andb _ _ => apply andb_cong
             end;
      first [apply Qle_bool_Qeq | apply Qlt_bool_Qeq];
      try reflexivity;
      try apply Q.max_comm; try apply Q.min_comm;
      try (rewrite Hz; reflexivity); try (rewrite Hy; reflexivity).
  - intros Hx.
    unfold HorizontalElectricDipole.surface_wire_direction.
    change (src_a (swap_endpoints self)) with (src_b self).
    change (src_b (swap_endpoints self)) with (src_a self).
    destruct (Qlt_bool (c0 (src_a self)) (c0 (src_b self))) eqn:E1;
      destruct (Qlt_bool (c0 (src_b self)) (c0 (src_a self))) eqn:E2;
      try reflexivity; exfalso.
    + apply Qlt_bool_iff in E1. apply Qlt_bool_iff in E2. lra.
    + apply Qlt_bool_false in E1. apply Qlt_bool_false in E2.
      apply Hx. lra.
  - intros Hx.
    unfold HorizontalElectricDipole.surface_wire_direction.
    change (src_a (swap_endpoints self)) with (src_b self).
    change (src_b (swap_endpoints self)) with (src_a self).
    destruct (Qlt_bool (c0 (src_a self)) (c0 (src_b self))) eqn:E1;
      destruct (Qlt_bool (c0 (src_b self)) (c0 (src_a self))) eqn:E2;
      try (split; reflexivity); exfalso;
      try (apply Qlt_bool_iff in E1; lra);
      try (apply Qlt_bool_iff in E2; lra).
Qed.

(** The dipole of the scenario, from (0,0,0) to (10,0,0): reversed, it
    selects the same three faces and writes +1 instead of -1. *)
Lemma X19_HED_reversal_witness :
  HorizontalElectricDipole.surface_wire (swap_endpoints hed_scenario)
  = HorizontalElectricDipole.surface_wire hed_scenario /\
  HorizontalElectricDipole.s_xyz hed_scenario = Ok ([-1; -1; -1], [], []) /\
  HorizontalElectricDipole.s_xyz (swap_endpoints hed_scenario)
  = Ok ([1; 1; 1], [], []).
Proof.
  destruct (@X19_HED_reversal hed_scenario) as (H & _);
    [reflexivity | reflexivity |].
  split; [exact H|]. split; reflexivity.
Defined.

(** ** Further properties: the cached properties *)

(** X20: on a freshly constructed instance (on a mesh that is not symmetric,
    one with a cell along y) the cached [s_e] returns a reference to an
    array of the store that holds exactly the vector computed by its body,
    and when the body raises, it raises the same exception. *)
Theorem X20_cached_s_e_agrees_with_body :
  forall (v : SourceVariant) (kw : Source),
    (not_symmetric (mesh kw) = true -> hy (mesh kw) <> []) ->
    let out := Memo.s_e v (Memo.fresh kw) in
    match fst out with
    | Ok r => exists vec, s_e v kw = Ok vec /\
                          nth_error (Memo.arrays (snd out)) r = Some vec
    | Raise e => s_e v kw = Raise e
    end.
Proof.
  intros v kw Hy out. subst out.
  pose proof (Memo_s_e_sound (coherent_fresh v kw Hy)) as H.
  cbv zeta in H. destruct H as (_ & _ & _ & H). exact H.
Qed.

Lemma X20_cached_s_e_agrees_with_body_witness :
  let out := Memo.s_e DHC (Memo.fresh ex_downhole) in
  fst out = Ok 0%nat /\
  match fst out with
  | Ok r => exists vec, s_e DHC ex_downhole = Ok vec /\
                        nth_error (Memo.arrays (snd out)) r = Some vec
  | Raise e => s_e DHC ex_downhole = Raise e
  end.
Proof.
  intros out. split; [vm_compute; reflexivity|].
  apply (@X20_cached_s_e_agrees_with_body DHC ex_downhole).
  intros H; discriminate H.
Defined.

Lemma lazy_mask_cached (a : Memo.mask_attr) (name : string)
    (body : Memo.M unit) (st st1 : Memo.State) (m : mask) :
  Memo.lazy_mask a name body st = (Ok m, st1) ->
  Memo.masks st1 a = Some m /\
  Memo.lazy_mask a name body st1 = (Ok m, st1).
Proof.
  unfold Memo.lazy_mask, Memo.mbind, Memo.getattr_or_None, Memo.getattr,
    Memo.ret.
  intros H.
  assert (Hm : Memo.masks st1 a = Some m).
  { destruct (Memo.masks st a) as [m0|] eqn:E.
    - rewrite E in H. inversion H; subst. exact E.
    - destruct (body st) as [[u|e] st']; simpl in H; [|discriminate H].
      destruct (Memo.masks st' a) as [m1|] eqn:E'; [|discriminate H].
      inversion H; subst. exact E'. }
  split; [exact Hm|]. cbn. rewrite Hm. cbn. rewrite ?Hm. reflexivity.
Qed.

Lemma lazy_attr_cached (A : Type) (get : Memo.State -> option A)
    (name : string) (set : A -> Memo.State -> Memo.State)
    (body : Memo.M A) (st st1 : Memo.State) (x : A) :
  (forall y s, get (set y s) = Some y) ->
  Memo.lazy_attr get get name set body st = (Ok x, st1) ->
  get st1 = Some x /\
  Memo.lazy_attr get get name set body st1 = (Ok x, st1).
Proof.
  unfold Memo.lazy_attr, Memo.mbind, Memo.getattr_or_None, Memo.getattr,
    Memo.modify, Memo.ret.
  intros Hset H.
  assert (Hm : get st1 = Some x).
  { destruct (get st) as [x0|] eqn:E.
    - rewrite E in H. inversion H; subst. exact E.
    - destruct (body st) as [[y|e] st']; simpl in H; [|discriminate H].
      rewrite Hset in H. inversion H; subst. apply Hset. }
  split; [exact Hm|]. cbn. rewrite Hm. cbn. rewrite ?Hm. reflexivity.
Qed.

(** X21: a mask or closest-face property that has returned once is not
    computed again: the next access returns the same value and leaves the
    instance exactly as it is. *)
Theorem X21_properties_computed_once :
  forall (st st1 : Memo.State),
    (forall m p, In p [ Memo.HorizontalElectricDipole.surface_wire;
                        Memo.VerticalElectricDipole.wire_in_borehole;
                        Memo.DownHoleTerminatingSrc.wire_in_borehole;
                        Memo.DownHoleTerminatingSrc.surface_wire;
                        Memo.DownHoleTerminatingSrc.surface_electrode;
                        Memo.DownHoleCasingSrc.downhole_electrode;
                        Memo.TopCasingSrc.tophole_electrode;
                        Memo.TopCasingSrc.surface_wire ] ->
                  p st = (Ok m, st1) -> p st1 = (Ok m, st1)) /\
    (forall a p, In p [ Memo.VerticalElectricDipole.src_a_closest;
                        Memo.DownHoleTerminatingSrc.src_a_closest;
                        Memo.DownHoleTerminatingSrc.src_b_closest ] ->
                  p st = (Ok a, st1) -> p st1 = (Ok a, st1)).
Proof.
  intros st st1. split.
  - intros m p Hp H. simpl in Hp.
    repeat (destruct Hp as [<- | Hp];
            [exact (proj2 (lazy_mask_cached _ _ _ _ H))|]).
    destruct Hp.
  - intros a p Hp H. simpl in Hp.
    repeat (destruct Hp as [<- | Hp];
            [ refine (proj2 (lazy_attr_cached _ _ _ _ _ _ H));
              intros y s; simpl; reflexivity |]).
    destruct Hp.
Qed.

Lemma X21_properties_computed_once_witness :
  let first := Memo.HorizontalElectricDipole.surface_wire
                 (Memo.fresh hed_scenario) in
  let once := Memo.DownHoleTerminatingSrc.src_b_closest
                (Memo.fresh ex_downhole) in
  let b := match fst once with Ok b => b | Raise _ => mkpoint 0 0 0 end in
  Memo.HorizontalElectricDipole.surface_wire (snd first)
  = (Ok [true; true; true], snd first) /\
  Memo.DownHoleTerminatingSrc.src_b_closest (snd once) = (Ok b, snd once).
Proof.
  intros first once b. split.
  - destruct (X21_properties_computed_once (Memo.fresh hed_scenario)
                                           (snd first)) as (H & _).
    apply (H [true; true; true] Memo.HorizontalElectricDipole.surface_wire).
    + left. reflexivity.
    + vm_compute. reflexivity.
  - destruct (X21_properties_computed_once (Memo.fresh ex_downhole)
                                           (snd once)) as (_ & H).
    apply (H b Memo.DownHoleTerminatingSrc.src_b_closest).
    + right. right. left. reflexivity.
    + vm_compute. reflexivity.
Defined.

(** X22: the surface-wire property of HorizontalElectricDipole stores the
    mask of its x- and z-tests before it reads [hy].  On a mesh that is not
    symmetric and has no cell along y, the first access raises ValueError,
    as the body does, but the next access returns the stored mask, the one
    without the y-test, and raises nothing. *)
Theorem X22_failed_access_leaves_partial_mask :
  forall (kw : Source) (hz_min : Q),
    not_symmetric (mesh kw) = true ->
    hy (mesh kw) = [] ->
    np_min (hz (mesh kw)) = Ok hz_min ->
    let first := Memo.HorizontalElectricDipole.surface_wire (Memo.fresh kw) in
    let second := Memo.HorizontalElectricDipole.surface_wire (snd first) in
    HorizontalElectricDipole.surface_wire kw
    = Raise (ValueError "zero-size array to reduction operation minimum") /\
    fst first
    = Raise (ValueError "zero-size array to reduction operation minimum") /\
    exists m,
      fst second = Ok m /\
      length m = length (gridFx (mesh kw)) /\
      forall i, nth i m false = true <->
        exists p, nth_error (gridFx (mesh kw)) i = Some p /\
          (Qmin (c0 (src_a kw)) (c0 (src_b kw)) <= c0 p /\
           c0 p <= Qmax (c0 (src_a kw)) (c0 (src_b kw))) /\
          (c2 (src_b kw) - hz_min / 2 < c2 p /\
           c2 p < c2 (src_b kw) + hz_min / 2).
Proof.
  intros kw hz_min Hs Hy Hz first second. subst first second.
  unfold Memo.HorizontalElectricDipole.surface_wire,
    HorizontalElectricDipole.surface_wire, Memo.lazy_mask, Memo.mbind,
    Memo.getattr_or_None, Memo.getattr, Memo.getattr_mask, Memo.setattr_mask,
    Memo.modify, Memo.self, Memo.lift, Memo.ret.
  cbv zeta. cbn [Memo.fresh Memo.masks Memo.kwargs].
  rewrite Hz, Hs, Hy. cbn.
  split; [reflexivity|]. split; [reflexivity|].
  eexists. split; [reflexivity|].
  as_map. split; [apply length_map|].
  apply mask_char. intros p. bool_to_prop. tauto.
Qed.

(** A mesh without the symmetry attribute and with no cell along y. *)
Lemma X22_failed_access_leaves_partial_mask_witness :
  let kw := {| cp := cp hed_scenario;
               meshGenerator :=
                 {| gridFx := gridFx hed_mesh; gridFz := [];
                    vnF := vnF hed_mesh; hx := hx hed_mesh; hy := [];
                    hz := hz hed_mesh; area := area hed_mesh;
                    isSymmetric := None |};
               physics := TDEM |} in
  let first := Memo.HorizontalElectricDipole.surface_wire (Memo.fresh kw) in
  let second := Memo.HorizontalElectricDipole.surface_wire (snd first) in
  fst first
  = Raise (ValueError "zero-size array to reduction operation minimum") /\
  fst second = Ok [true; true; true].
Proof.
  intros kw first second.
  destruct (@X22_failed_access_leaves_partial_mask kw 1)
    as (_ & H1 & _); [reflexivity | reflexivity | reflexivity |].
  split; [exact H1 | reflexivity].
Defined.

(** ** Further properties: [srcList] *)

(** One read of [s_e] on a coherent instance. *)
Lemma Memo_s_e_step (v : SourceVariant) (st : Memo.State) :
  coherent v st ->
  let out := Memo.s_e v st in
  coherent v (snd out) /\
  Memo.kwargs (snd out) = Memo.kwargs st /\
  Memo._srcList (snd out) = Memo._srcList st /\
  match fst out with
  | Ok r =>
      exists vec,
        s_e v (Memo.kwargs st) = Ok vec /\
        nth_error (Memo.arrays (snd out)) r = Some vec /\
        Memo._s_e (snd out) = Some r /\
        (guard_set v st = true -> snd out = st) /\
        (guard_set v st = false ->
         Memo.arrays (snd out) = Memo.arrays st ++ [vec])
  | Raise e =>
      s_e v (Memo.kwargs st) = Raise e /\
      Memo.arrays (snd out) = Memo.arrays st /\
      Memo._s_e (snd out) = Memo._s_e st
  end.
Proof.
  intros Hc.
  assert (Cached : forall (G : Type) (guard : Memo.State -> option G) body g,
             guard st = Some g -> guard_set v st = true ->
             Memo._s_e st <> None ->
             let out := Memo.lazy_attr guard Memo._s_e "_s_e" Memo.set_s_e
                                       body st in
             coherent v (snd out) /\
             Memo.kwargs (snd out) = Memo.kwargs st /\
             Memo._srcList (snd out) = Memo._srcList st /\
             match fst out with
             | Ok r =>
                 exists vec,
                   s_e v (Memo.kwargs st) = Ok vec /\
                   nth_error (Memo.arrays (snd out)) r = Some vec /\
                   Memo._s_e (snd out) = Some r /\
                   (guard_set v st = true -> snd out = st) /\
                   (guard_set v st = false ->
                    Memo.arrays (snd out) = Memo.arrays st ++ [vec])
             | Raise e =>
                 s_e v (Memo.kwargs st) = Raise e /\
                 Memo.arrays (snd out) = Memo.arrays st /\
                 Memo._s_e (snd out) = Memo._s_e st
             end).
  { intros G guard body g Hg Hgs Hne.
    destruct (Memo._s_e st) as [r|] eqn:Er; [|congruence].
    rewrite (lazy_s_e_cached guard body st Hg Er). simpl.
    split_ands; auto.
    destruct Hc as (_ & _ & Hs & _). destruct (Hs r Er) as (vec & H1 & H2).
    exists vec. split_ands; auto. congruence. }
  assert (Compute : forall (G : Type) (guard : Memo.State -> option G) body,
             (forall F st, good v F st ->
                           alloc_post v F (body st) (s_e v (Memo.kwargs F))) ->
             guard st = None -> guard_set v st = false ->
             let out := Memo.lazy_attr guard Memo._s_e "_s_e" Memo.set_s_e
                                       body st in
             coherent v (snd out) /\
             Memo.kwargs (snd out) = Memo.kwargs st /\
             Memo._srcList (snd out) = Memo._srcList st /\
             match fst out with
             | Ok r =>
                 exists vec,
                   s_e v (Memo.kwargs st) = Ok vec /\
                   nth_error (Memo.arrays (snd out)) r = Some vec /\
                   Memo._s_e (snd out) = Some r /\
                   (guard_set v st = true -> snd out = st) /\
                   (guard_set v st = false ->
                    Memo.arrays (snd out) = Memo.arrays st ++ [vec])
             | Raise e =>
                 s_e v (Memo.kwargs st) = Raise e /\
                 Memo.arrays (snd out) = Memo.arrays st /\
                 Memo._s_e (snd out) = Memo._s_e st
             end).
  { intros G guard body Hbody Hg Hgs.
    pose proof (@lazy_s_e_compute v G guard body st Hbody Hc Hg) as H.
    assert (Hraise : forall e st',
               Memo.lazy_attr guard Memo._s_e "_s_e" Memo.set_s_e body st
               = (Raise e, st') ->
               Memo._s_e st' = Memo._s_e st /\
               Memo._srcList st' = Memo._srcList st).
    { intros e st'.
      unfold Memo.lazy_attr, Memo.mbind, Memo.getattr_or_None, Memo.getattr,
        Memo.modify, Memo.ret.
      rewrite Hg.
      pose proof (Hbody st st (good_refl Hc)) as Hb. unfold alloc_post in Hb.
      destruct (body st) as [[r|e0] st0]; simpl in Hb |- *.
      - intros H0. discriminate H0.
      - intros H0. inversion H0; subst.
        destruct Hb as (_ & _ & _ & _ & He & Hsl). auto. }
    cbv zeta in H |- *.
    destruct (Memo.lazy_attr guard Memo._s_e "_s_e" Memo.set_s_e body st)
      as [[r|e] st']; simpl in H |- *.
    - destruct H as (vec & Hv & Hr & Ha & He & Hsl & Hc' & Hk).
      split_ands; auto.
      exists vec. split_ands; auto.
      + subst r. rewrite Ha, nth_error_app2, Nat.sub_diag by lia. reflexivity.
      + congruence.
    - destruct H as (Hv & Hc' & Hk & Ha).
      destruct (Hraise e st' eq_refl) as (He & Hsl).
      split_ands; auto. }
  rewrite Memo_s_e_unfold.
  destruct v.
  - destruct (Memo._s_e st) as [r|] eqn:E.
    + apply Cached with (g := r); unfold guard_set; rewrite ?E; congruence.
    + apply Compute; unfold guard_set; rewrite ?E; auto.
      intros; now apply s_e_body_HED.
  - destruct (Memo._s_e st) as [r|] eqn:E.
    + apply Cached with (g := r); unfold guard_set; rewrite ?E; congruence.
    + apply Compute; unfold guard_set; rewrite ?E; auto.
      intros; now apply s_e_body_VED.
  - destruct (Memo._srcList st) as [l|] eqn:E.
    + apply Cached with (g := l); unfold guard_set; rewrite ?E; auto.
      destruct Hc as (_ & _ & _ & Hl & _). apply Hl. congruence.
    + apply Compute; unfold guard_set; rewrite ?E; auto.
      intros; now apply s_e_body_DHT.
  - destruct (Memo._srcList st) as [l|] eqn:E.
    + apply Cached with (g := l); unfold guard_set; rewrite ?E; auto.
      destruct Hc as (_ & _ & _ & Hl & _). apply Hl. congruence.
    + apply Compute; unfold guard_set; rewrite ?E; auto.
      intros; now apply s_e_body_DHC.
  - destruct (Memo._srcList st) as [l|] eqn:E.
    + apply Cached with (g := l); unfold guard_set; rewrite ?E; auto.
      destruct Hc as (_ & _ & _ & Hl & _). apply Hl. congruence.
    + apply Compute; unfold guard_set; rewrite ?E; auto.
      intros; now apply s_e_body_TCS.
Qed.

Lemma guard_set_after_read (v : SourceVariant) (st st1 : Memo.State) (r : Memo.ref) :
  Memo._s_e st1 = Some r ->
  Memo._srcList st1 = Memo._srcList st ->
  guard_set v st = false ->
  guard_set v st1 = match v with HED | VED => true | _ => false end.
Proof.
  unfold guard_set. intros He Hsl. rewrite He, Hsl.
  destruct v; auto.
Qed.

(** The comprehension over [freqs] on a coherent instance. *)
Lemma fdem_sources_spec (v : SourceVariant) (fs : list Q) :
  forall st, coherent v st ->
  let out := Memo.fdem_sources (Memo.s_e v) fs st in
  coherent v (snd out) /\
  Memo.kwargs (snd out) = Memo.kwargs st /\
  Memo._srcList (snd out) = Memo._srcList st /\
  match fst out with
  | Ok l =>
      (fs = [] -> snd out = st) /\
      (fs <> [] ->
       exists r vec, Memo._s_e (snd out) = Some r /\
                     nth_error (Memo.arrays (snd out)) r = Some vec /\
                     s_e v (Memo.kwargs st) = Ok vec) /\
      (forall vec, s_e v (Memo.kwargs st) = Ok vec ->
                   l = map (fun f => Memo.RawVec_e f vec) fs) /\
      length (Memo.arrays (snd out))
      = (length (Memo.arrays st) + allocations v st (length fs))%nat
  | Raise e => fs <> [] /\ s_e v (Memo.kwargs st) = Raise e
  end.
Proof.
  induction fs as [|f t IH]; intros st Hc.
  - simpl. split_ands; auto; try congruence.
    unfold allocations. destruct (guard_set v st), v; simpl; lia.
  - cbv zeta. cbn [Memo.fdem_sources]. unfold Memo.mbind, Memo.deref, Memo.ret.
    pose proof (Memo_s_e_step Hc) as H1. cbv zeta in H1.
    destruct (Memo.s_e v st) as [[r|e] st1]; simpl in H1.
    + destruct H1 as (Hc1 & Hk1 & Hsl1 & vec & Hv & Hn & He & Hgt & Hgf).
      rewrite Hn.
      specialize (IH st1 Hc1). cbv zeta in IH.
      destruct (Memo.fdem_sources (Memo.s_e v) t st1) as [[l|e] st2];
        simpl in IH |- *.
      * destruct IH as (Hc2 & Hk2 & Hsl2 & Hnil & Hcons & Hmap & Hlen).
        split_ands; auto; try congruence.
        -- intros _.
           destruct t as [|f' t'].
           ++ rewrite (Hnil eq_refl). exists r, vec. auto.
           ++ destruct Hcons as (r' & vec' & A & B & C); [discriminate|].
              exists r', vec'. split_ands; auto. congruence.
        -- intros vec0 Hv0. rewrite Hv in Hv0. inversion Hv0; subst vec0.
           f_equal. apply Hmap. congruence.
        -- rewrite Hlen. unfold allocations at 2.
           destruct (guard_set v st) eqn:G.
           ++ rewrite (Hgt eq_refl). unfold allocations. rewrite G. lia.
           ++ rewrite (Hgf eq_refl), length_app. simpl.
              unfold allocations.
              rewrite (@guard_set_after_read v st st1 r He Hsl1 G).
              destruct v; simpl; lia.
      * destruct IH as (Hc2 & Hk2 & Hsl2 & Hne & Hr).
        split_ands; auto; try congruence.
    + destruct H1 as (Hc1 & Hk1 & Hsl1 & Hr & _).
      simpl. split_ands; auto; try congruence.
Qed.

Lemma srcList_unfold (v : SourceVariant) (st : Memo.State) :
  Memo._srcList st = None ->
  Memo.srcList v st
  = match (match physics (Memo.kwargs st) with
           | FDEM => Memo.fdem_sources (Memo.s_e v) (freqs (Memo.kwargs st))
           | TDEM => Memo.mbind (Memo.s_e v)
                       (fun r => Memo.ret [Memo.RawVec_Grounded r])
           end) st with
    | (Ok l, st') => (Ok l, Memo.set_srcList l st')
    | (Raise e, st') => (Raise e, st')
    end.
Proof.
  intros H.
  unfold Memo.srcList, Memo.lazy_attr, Memo.mbind, Memo.getattr_or_None,
    Memo.getattr, Memo.modify, Memo.ret, Memo.self.
  rewrite H.
  destruct (physics (Memo.kwargs st)).
  - destruct (Memo.fdem_sources (Memo.s_e v) (freqs (Memo.kwargs st)) st)
      as [[l|e] st']; reflexivity.
  - destruct (Memo.s_e v st) as [[r|e] st']; reflexivity.
Qed.

Lemma srcList_cached (v : SourceVariant) (st : Memo.State) (l : list Memo.Src) :
  Memo._srcList st = Some l -> Memo.srcList v st = (Ok l, st).
Proof.
  intros H.
  unfold Memo.srcList, Memo.lazy_attr, Memo.mbind, Memo.getattr_or_None,
    Memo.getattr, Memo.modify, Memo.ret.
  rewrite H. cbn. rewrite H. reflexivity.
Qed.

(** X23: with FDEM physics, the first read of [srcList] builds one
    [RawVec_e] per frequency, in the order of [freqs], each carrying that
    frequency and the entries of the source vector.  It fails only when
    there is a frequency and [s_e] fails, with the exception of [s_e], and
    then leaves [_srcList] unset.  Every frequency reads [s_e] anew: the
    three downhole classes allocate one array per frequency, the two dipoles
    at most one.  The list is stored, and the next read returns it without
    touching the instance. *)
Theorem X23_FDEM_srcList :
  forall (v : SourceVariant) (st : Memo.State),
    coherent v st ->
    Memo._srcList st = None ->
    physics (Memo.kwargs st) = FDEM ->
    let kw := Memo.kwargs st in
    let out := Memo.srcList v st in
    match fst out with
    | Ok l =>
        length l = length (freqs kw) /\
        (forall vec, s_e v kw = Ok vec ->
                     l = map (fun f => Memo.RawVec_e f vec) (freqs kw)) /\
        (freqs kw <> [] -> exists vec, s_e v kw = Ok vec) /\
        length (Memo.arrays (snd out))
        = (length (Memo.arrays st)
           + allocations v st (length (freqs kw)))%nat /\
        Memo._srcList (snd out) = Some l /\
        Memo.srcList v (snd out) = (Ok l, snd out)
    | Raise e =>
        freqs kw <> [] /\ s_e v kw = Raise e /\
        Memo._srcList (snd out) = None
    end.
Proof.
  intros v st Hc Hsl Hp kw out. subst out kw.
  rewrite (@srcList_unfold v st Hsl), Hp.
  pose proof (@fdem_sources_spec v (freqs (Memo.kwargs st)) st Hc) as H.
  cbv zeta in H.
  destruct (Memo.fdem_sources (Memo.s_e v) (freqs (Memo.kwargs st)) st)
    as [[l|e] st'] eqn:E; simpl in H |- *.
  - destruct H as (Hc' & Hk & Hsl' & Hnil & Hcons & Hmap & Hlen).
    assert (Hex : freqs (Memo.kwargs st) <> [] ->
                  exists vec, s_e v (Memo.kwargs st) = Ok vec).
    { intros Hne. destruct (Hcons Hne) as (r & vec & _ & _ & Hv).
      now exists vec. }
    split_ands; auto.
    destruct (freqs (Memo.kwargs st)) as [|f t] eqn:Ef.
    + simpl in E. unfold Memo.ret in E. inversion E. reflexivity.
    + destruct Hex as (vec & Hv); [discriminate|].
      rewrite (Hmap vec Hv), length_map. reflexivity.
  - destruct H as (_ & _ & Hsl' & Hne & Hr). split_ands; auto. congruence.
Qed.

Lemma X23_FDEM_srcList_witness :
  let kw := {| cp := {| model.src_a := mkpoint 0 0 (-1);
                        model.src_b := mkpoint (9#10) 0 0;
                        model.casing_a := 1#2; model.freqs := [1; 2; 3] |};
               meshGenerator := ex_mesh; physics := FDEM |} in
  let out := Memo.srcList DHT (Memo.fresh kw) in
  match fst out with
  | Ok l =>
      length l = 3%nat /\
      (forall vec, s_e DHT kw = Ok vec ->
                   l = map (fun f => Memo.RawVec_e f vec) [1; 2; 3]) /\
      length (Memo.arrays (snd out)) = 3%nat
  | Raise _ => False
  end.
Proof.
  intros kw out.
  assert (Hc : coherent DHT (Memo.fresh kw)).
  { apply coherent_fresh. intros _. discriminate. }
  pose proof (@X23_FDEM_srcList DHT (Memo.fresh kw) Hc eq_refl eq_refl) as H.
  cbv zeta in H. fold kw in H. fold out in H.
  assert (E : exists l, fst out = Ok l).
  { vm_compute. eexists. reflexivity. }
  destruct E as (l & E). rewrite E in H |- *.
  destruct H as (H1 & H2 & _ & H4 & _).
  split_ands; [exact H1 | exact H2 | exact H4].
Defined.

(** X24: with TDEM physics, the first read of [srcList] is a single
    [RawVec_Grounded] holding the array that [s_e] returned, not a copy:
    the reference is the one left in [_s_e], it points at the source
    vector, and every later [s_e] returns the same reference without
    touching the instance.  The read fails exactly as [s_e] fails and then
    leaves [_srcList] unset. *)
Theorem X24_TDEM_srcList :
  forall (v : SourceVariant) (st : Memo.State),
    coherent v st ->
    Memo._srcList st = None ->
    physics (Memo.kwargs st) = TDEM ->
    let out := Memo.srcList v st in
    match fst out with
    | Ok l =>
        exists r vec,
          l = [Memo.RawVec_Grounded r] /\
          s_e v (Memo.kwargs st) = Ok vec /\
          nth_error (Memo.arrays (snd out)) r = Some vec /\
          Memo._s_e (snd out) = Some r /\
          Memo._srcList (snd out) = Some l /\
          Memo.s_e v (snd out) = (Ok r, snd out) /\
          Memo.srcList v (snd out) = (Ok l, snd out)
    | Raise e =>
        s_e v (Memo.kwargs st) = Raise e /\ Memo._srcList (snd out) = None
    end.
Proof.
  intros v st Hc Hsl Hp out. subst out.
  rewrite (@srcList_unfold v st Hsl), Hp.
  pose proof (Memo_s_e_step Hc) as H. cbv zeta in H.
  unfold Memo.mbind, Memo.ret.
  destruct (Memo.s_e v st) as [[r|e] st'] eqn:E; simpl in H |- *.
  - destruct H as (Hc' & Hk & Hsl' & vec & Hv & Hn & He & _).
    exists r, vec. split_ands; auto.
    rewrite Memo_s_e_unfold.
    destruct v;
      first [ apply lazy_s_e_cached with (g := r); simpl; assumption
            | apply lazy_s_e_cached with (g := [Memo.RawVec_Grounded r]);
              simpl; auto ].
  - destruct H as (_ & _ & Hsl' & Hr & _). split; congruence.
Qed.

Lemma X24_TDEM_srcList_witness :
  let kw := {| cp := cp ex_downhole; meshGenerator := ex_mesh;
               physics := TDEM |} in
  let out := Memo.srcList DHT (Memo.fresh kw) in
  fst out = Ok [Memo.RawVec_Grounded 0%nat] /\
  Memo.s_e DHT (snd out) = (Ok 0%nat, snd out).
Proof.
  intros kw out.
  assert (Hc : coherent DHT (Memo.fresh kw)).
  { apply coherent_fresh. intros _. discriminate. }
  pose proof (@X24_TDEM_srcList DHT (Memo.fresh kw) Hc eq_refl eq_refl) as H.
  cbv zeta in H. fold kw in H. fold out in H.
  assert (E : fst out = Ok [Memo.RawVec_Grounded 0%nat]).
  { vm_compute. reflexivity. }
  rewrite E in H. destruct H as (r & vec & Hl & _ & _ & _ & _ & Hs & _).
  inversion Hl; subst r. split; [exact E | exact Hs].
Defined.

(** X25: with FDEM physics and no frequency, [srcList] never reads [s_e]:
    it returns the empty list, stores it and leaves everything else as it
    was.  On an instance that has not read [s_e] before, the three downhole
    classes then find [_srcList] set and [_s_e] missing, and [s_e] raises
    AttributeError. *)
Theorem X25_no_frequency_srcList :
  forall (v : SourceVariant) (st : Memo.State),
    physics (Memo.kwargs st) = FDEM ->
    freqs (Memo.kwargs st) = [] ->
    Memo._srcList st = None ->
    Memo.srcList v st = (Ok [], Memo.set_srcList [] st) /\
    (Memo._s_e st = None -> v <> HED -> v <> VED ->
     Memo.s_e v (Memo.set_srcList [] st)
     = (Raise (AttributeError "_s_e"), Memo.set_srcList [] st)).
Proof.
  intros v st Hp Hf Hsl. split.
  - rewrite (@srcList_unfold v st Hsl), Hp, Hf. reflexivity.
  - intros He Hh Hv. rewrite Memo_s_e_unfold.
    unfold Memo.lazy_attr, Memo.mbind, Memo.getattr_or_None, Memo.getattr,
      Memo.ret.
    destruct v; try congruence; simpl; rewrite He; reflexivity.
Qed.

Lemma X25_no_frequency_srcList_witness :
  let kw := {| cp := {| model.src_a := mkpoint 0 0 0;
                        model.src_b := mkpoint (9#10) 0 0;
                        model.casing_a := 1#2; model.freqs := [] |};
               meshGenerator := ex_mesh; physics := FDEM |} in
  Memo.srcList TCS (Memo.fresh kw) = (Ok [], Memo.set_srcList [] (Memo.fresh kw)) /\
  Memo.s_e TCS (Memo.set_srcList [] (Memo.fresh kw))
  = (Raise (AttributeError "_s_e"), Memo.set_srcList [] (Memo.fresh kw)).
Proof.
  intros kw.
  destruct (@X25_no_frequency_srcList TCS (Memo.fresh kw)
              eq_refl eq_refl eq_refl) as (H1 & H2).
  split; [exact H1|].
  apply H2; [reflexivity | discriminate | discriminate].
Defined.
